(** * Streaming text segmenter and dispatcher (dora-text-segmenter)

    A shallow embedding of
    [dora_text_segmenter/multi_participant_segmenter.py] (conference mode),
    [dora_text_segmenter/queue_based_segmenter.py] (single mode) and
    [dora_text_segmenter/simple_passthrough.py] (passthrough mode),
    together with the properties of the specification that concern them.

    Conventions of the embedding:
    - a Python [str] is a list of Unicode code points ([list N]), so that
      [len], indexing and membership in the configured punctuation string
      count characters exactly as Python does;
    - port names, participant names, session ids and status tags are only
      compared for equality and are kept as [string];
    - a [dict] keyed by participant is a [gmap string _]; reading a missing
      key raises [KeyError];
    - a [deque] is a list, [popleft] takes the head, [append] adds at the end;
    - the values of [time.time()] and [uuid.uuid4()] are inputs carried by
      the event that triggers them;
    - the [log] output is a side channel and is not part of the outputs. *)

From Stdlib Require Import ZArith NArith QArith String Ascii List Bool Lia.
From stdpp Require Import base option list gmap strings.
Import ListNotations.

Local Open Scope bool_scope.
Local Open Scope Z_scope.

(** ** Python values used by the segmenters *)

Definition char := N.
Definition str := list char.

(** An ASCII literal as a Python string. *)
Definition lit (s : string) : str :=
  List.map N_of_ascii (list_ascii_of_string s).

Definition len (s : str) : Z := Z.of_nat (length s).

(** [c in s] for a character [c] and a string [s]. *)
Definition mem (c : char) (s : str) : bool :=
  existsb (N.eqb c) s.

(** [str.isspace] on one character, that is CPython's
    [_PyUnicode_IsWhitespace]; the regular expression class [\s] of a
    [str] pattern is the same set. *)
Definition isspace (c : char) : bool :=
  ((9 <=? c) && (c <=? 13) || (28 <=? c) && (c <=? 32)
   || (c =? 133) || (c =? 160) || (c =? 5760)
   || (8192 <=? c) && (c <=? 8202)
   || (c =? 8232) || (c =? 8233) || (c =? 8239) || (c =? 8287)
   || (c =? 12288))%N.

Fixpoint lstrip (s : str) : str :=
  match s with
  | [] => []
  | c :: r => if isspace c then lstrip r else s
  end.

Definition rstrip (s : str) : str := rev (lstrip (rev s)).

(** [s.strip()] *)
Definition strip (s : str) : str := rstrip (lstrip s).

(** Truth value of a Python string: non-empty. *)
Definition truthy (s : str) : bool :=
  match s with [] => false | _ => true end.

(** Truth value of a list or deque: non-empty. *)
Definition truthy_list {A : Type} (l : list A) : bool :=
  match l with [] => false | _ => true end.

Fixpoint str_eqb (a b : str) : bool :=
  match a, b with
  | [], [] => true
  | x :: a', y :: b' => N.eqb x y && str_eqb a' b'
  | _, _ => false
  end.

Definition option_eqb {A : Type} (eqb : A -> A -> bool) (a b : option A) : bool :=
  match a, b with
  | Some x, Some y => eqb x y
  | None, None => true
  | _, _ => false
  end.

(** Exceptions that escape an event handler (and end the process). *)
Inductive exn : Type :=
| KeyError (k : string)
| TypeError
| AttributeError.

Inductive result (A : Type) : Type :=
| Ok (a : A)
| Raise (e : exn).
Arguments Ok {A} a.
Arguments Raise {A} e.

(** What one or more iterations of an event loop amount to: the final
    state and the values sent, or the exception that ended the process
    and the values sent before it. *)
Inductive outcome (A S E : Type) : Type :=
| Done (a : A) (st : S) (out : list E)
| Crash (e : exn) (out : list E).
Arguments Done {A S E} a st out.
Arguments Crash {A S E} e out.

Definition outputs {A S E : Type} (o : outcome A S E) : list E :=
  match o with
  | Done _ _ out => out
  | Crash _ out => out
  end.

(** ** Segmentation engine

    Both segmenters build the pattern [[^P]+[P]] from the escaped
    punctuation string [P] and walk over [re.finditer].  With a
    non-empty [P] the pattern is a negated class, repeated, followed by
    the class of [P].  With the empty [P] the pattern is the text
    [[^]+[]], which [re] reads as one negated class of the three
    characters that follow the circumflex: a closing bracket, a plus
    sign and an opening bracket. *)
Inductive pattern : Type :=
| RunAndMark (marks : str)
| NoneOf (excluded : str).

(** What [re] compiles [[^P]+[P]] to; every punctuation string gives a
    pattern that compiles. *)
Definition compile_pattern (marks : str) : pattern :=
  match marks with
  | [] => NoneOf (lit "]+[")
  | _ => RunAndMark marks
  end.

(** The matches of [RunAndMark].  A match starts at the first character
    outside [P], extends over the maximal run of such characters and
    needs one character of [P] after it; a character of [P] that follows
    no such run starts no match and is passed over.  [finditer_from]
    returns each match together with the text after its end
    ([text[match.end():]]); [cur] holds the run read so far, reversed. *)
Fixpoint finditer_from (marks : str) (cur : str) (s : str) : list (str * str) :=
  match s with
  | [] => []
  | c :: r =>
      if mem c marks then
        match cur with
        | [] => finditer_from marks [] r
        | _ => (rev cur ++ [c], r) :: finditer_from marks [] r
        end
      else finditer_from marks (c :: cur) r
  end.

(** The matches of [NoneOf]: every single character that is not
    excluded, with the text after it. *)
Fixpoint finditer_single (excluded : str) (s : str) : list (str * str) :=
  match s with
  | [] => []
  | c :: r =>
      if mem c excluded then finditer_single excluded r
      else ([c], r) :: finditer_single excluded r
  end.

Definition finditer (marks text : str) : list (str * str) :=
  match compile_pattern marks with
  | RunAndMark P => finditer_from P [] text
  | NoneOf excluded => finditer_single excluded text
  end.

(** The variables of the segmentation loop; [rest] is [text[last_end:]]. *)
Record seg_loop : Type := mk_seg_loop {
  segments : list str;
  accumulator : str;
  rest : str
}.

(** One iteration of [for match in re.finditer(pattern, text)]. *)
Definition seg_step (max_length : Z) (l : seg_loop) (m : str * str) : seg_loop :=
  let segment_text := strip (fst m) in
  if negb (truthy segment_text) then l
  else
    let combined :=
      if truthy (accumulator l) then accumulator l ++ segment_text
      else segment_text in
    if (0 <? max_length) && (max_length <? len combined) then
      if truthy (accumulator l) then
        mk_seg_loop (segments l ++ [accumulator l]) segment_text (snd m)
      else
        mk_seg_loop (segments l ++ [segment_text]) [] (snd m)
    else
      mk_seg_loop (segments l) combined (snd m).

(** The loop, the final flush of the accumulator and the stripped
    remainder: [(segments, incomplete)]. *)
Definition segment_loop (text : str) (max_length : Z) (marks : str)
  : list str * str :=
  let l := fold_left (seg_step max_length) (finditer marks text)
                     (mk_seg_loop [] [] text) in
  let segs := if truthy (accumulator l) then segments l ++ [accumulator l]
              else segments l in
  (segs, strip (rest l)).

(** The decimal digits of the regular expression class [\d]: Unicode
    category Nd.  The table belongs to the Python runtime; the embedding
    takes it as an interface and fixes it on ASCII, where the digits are
    [0] to [9]. *)
Class UnicodeTables : Type := {
  isdigit : char -> bool;
  isdigit_ascii : forall c : char, (c < 128)%N ->
    isdigit c = ((48 <=? c) && (c <=? 57))%N
}.

Definition ascii_isdigit (c : char) : bool := ((48 <=? c) && (c <=? 57))%N.

(** [remove_speaker_id]: delete one leading match of [^\[[^\]]+\]\s*]. *)
Fixpoint span_not (stop : char) (s : str) : str * str :=
  match s with
  | [] => ([], [])
  | c :: r =>
      if N.eqb c stop then ([], s)
      else let '(a, b) := span_not stop r in (c :: a, b)
  end.

Definition remove_speaker_id (text : str) : str :=
  match text with
  | 91%N :: r =>
      match span_not 93%N r with
      | (_ :: _, 93%N :: after) => lstrip after
      | _ => text
      end
  | _ => text
  end.

Module Single.

(** [queue_based_segmenter.segment_by_punctuation]; the third component
    is always [False] there, and [fallback_split_marks] is not used.  The
    function returns for every text and punctuation string. *)
Definition segment_by_punctuation (text : str) (punctuation_marks : str)
    (max_length min_length : Z) (fallback_split_marks : str)
  : result (list str * str * bool) :=
  if negb (truthy text) then Ok ([], [], false)
  else
    let '(segs, incomplete) := segment_loop text max_length punctuation_marks in
    Ok (segs, incomplete, false).

(** [queue_based_segmenter.should_skip_segment]: the stripped text is
    empty or matches [^[\s\d<marks>]+$]. *)
Definition should_skip_segment `{UnicodeTables} (text punctuation_marks : str) : bool :=
  let text_stripped := strip text in
  if negb (truthy text_stripped) then true
  else forallb (fun c => isspace c || isdigit c || mem c punctuation_marks)
               text_stripped.

(** The keys of an event's metadata that the segmenter reads or writes;
    all other keys are passed through untouched. *)
Record Meta : Type := mk_meta {
  session_status : option string;
  question_id : option Z
}.

Definition empty_meta : Meta := mk_meta None None.

(** [{**m, "session_status": "ended"}] *)
Definition mark_ended (m : Meta) : Meta :=
  mk_meta (Some "ended"%string) (question_id m).

Inductive Event : Type :=
| Input (id : string) (value : option str) (metadata : Meta)
| Stop.

Record Emission : Type := mk_emission {
  port : string;
  payload : str;
  out_metadata : Meta
}.

Record Config : Type := mk_config {
  punctuation_marks : str;
  min_segment_length : Z;
  max_segment_length : Z;
  remove_speaker_id_enabled : bool;
  fallback_split_marks : str
}.

(** The fallback marks of [main]: full- and half-width comma, ideographic
    comma, semicolons and colons. *)
Definition default_fallback_split_marks : str :=
  [65292; 44; 12289; 65307; 59; 65306; 58]%N.

(** [dict.fromkeys(s)] joined again: [s] without repeated characters,
    first occurrences kept. *)
Fixpoint dedup_chars (seen : str) (s : str) : str :=
  match s with
  | [] => []
  | c :: r => if mem c seen then dedup_chars seen r
              else c :: dedup_chars (c :: seen) r
  end.

(** The punctuation string [main] ends up with, from [PUNCTUATION_MARKS]
    and [SEGMENT_MODE]. *)
Definition effective_punctuation (env_marks : str) (segment_mode : string)
    (fallback : str) : str :=
  let marks := if truthy env_marks then env_marks
               else [12290; 65281; 65311; 46; 33; 63]%N in
  if String.eqb segment_mode "punctuation" then dedup_chars [] (marks ++ fallback)
  else marks.

(** Queued segments hold a reference to a metadata dictionary: all the
    segments cut from one event share the dictionary of that event, and
    marking the last queued segment as ended writes through the
    reference.  [heap] is the store of these dictionaries. *)
Record State : Type := mk_state {
  segment_queue : list (str * nat);
  heap : list Meta;
  is_sending : bool;
  current_question_id : option Z;
  text_buffer : str;
  pending_session_end : bool;
  pending_session_end_metadata : Meta
}.

Definition init : State := mk_state [] [] false None [] false empty_meta.

Definition deref (h : list Meta) (r : nat) : Meta :=
  match h !! r with Some m => m | None => empty_meta end.

Definition emit (h : list Meta) (seg : str * nat) : Emission :=
  mk_emission "text_segment" (fst seg) (deref h (snd seg)).

(** [segment_queue[-1]["metadata"]["session_status"] = "ended"] *)
Definition mark_last_ended (q : list (str * nat)) (h : list Meta) : list Meta :=
  match last q with
  | Some seg => <[snd seg := mark_ended (deref h (snd seg))]> h
  | None => h
  end.

(** The part of the text handler that runs when
    [session_status == "ended"], before the text itself is looked at. *)
Definition on_session_ended (st : State) (mref : nat) : State * list Emission :=
  let metadata := deref (heap st) mref in
  (* flush the buffer with a fresh metadata dictionary *)
  let '(q1, h1, buf1) :=
    if truthy (strip (text_buffer st)) then
      (segment_queue st ++ [(strip (text_buffer st), length (heap st))],
       heap st ++ [mark_ended metadata], [])
    else (segment_queue st, heap st, text_buffer st) in
  let h2 := if truthy_list q1 then mark_last_ended q1 h1 else h1 in
  match is_sending st, q1 with
  | false, seg :: q2 =>
      (mk_state q2 h2 true (current_question_id st) buf1
                (pending_session_end st) (pending_session_end_metadata st),
       [emit h2 seg])
  | true, [] =>
      (mk_state q1 h2 (is_sending st) (current_question_id st) buf1
                true metadata,
       [])
  | _, _ =>
      (mk_state q1 h2 (is_sending st) (current_question_id st) buf1
                (pending_session_end st) (pending_session_end_metadata st),
       [])
  end.

(** Segmentation, buffering, queueing and the first send of the text
    handler. *)
Definition on_text `{UnicodeTables} (cfg : Config) (st : State) (text0 : str)
    (mref : nat) : outcome unit State Emission :=
  let metadata := deref (heap st) mref in
  let text := if remove_speaker_id_enabled cfg then remove_speaker_id text0
              else text0 in
  let cq := match question_id metadata with
            | Some q => Some q
            | None => current_question_id st
            end in
  let combined_text := text_buffer st ++ text in
  match segment_by_punctuation combined_text (punctuation_marks cfg)
          (max_segment_length cfg) (min_segment_length cfg)
          (fallback_split_marks cfg) with
  | Raise e => Crash e []
  | Ok (complete_segments, incomplete_text, keep_incomplete) =>
      let buf :=
        if truthy incomplete_text then
          if negb keep_incomplete
             && should_skip_segment incomplete_text (punctuation_marks cfg)
          then [] else incomplete_text
        else [] in
      let queued :=
        List.filter (fun s => negb (should_skip_segment s (punctuation_marks cfg)))
                    complete_segments in
      let q := segment_queue st ++ List.map (fun s => (s, mref)) queued in
      match is_sending st, q with
      | false, seg :: q' =>
          Done tt (mk_state q' (heap st) true cq buf
                     (pending_session_end st) (pending_session_end_metadata st))
               [emit (heap st) seg]
      | _, _ =>
          Done tt (mk_state q (heap st) (is_sending st) cq buf
                     (pending_session_end st) (pending_session_end_metadata st))
               []
      end
  end.

(** Global clearing, shared by the [control] reset and the [reset]
    without question id. *)
Definition clear_all (st : State) : State :=
  mk_state [] (heap st) false (current_question_id st) [] false empty_meta.

(** The smart reset of the [reset] port. *)
Definition smart_reset (st : State) (incoming_question_id : Z) : State :=
  let keep (seg : str * nat) :=
    match question_id (deref (heap st) (snd seg)) with
    | None => true
    | Some q => Z.eqb q incoming_question_id
    end in
  let new_queue := List.filter keep (segment_queue st) in
  let changed :=
    negb (match current_question_id st with
          | Some q => Z.eqb q incoming_question_id
          | None => false
          end) in
  mk_state new_queue (heap st)
    (if truthy_list new_queue then is_sending st else false)
    (Some incoming_question_id)
    (if changed then [] else text_buffer st)
    (if changed then false else pending_session_end st)
    (if changed then empty_meta else pending_session_end_metadata st).

(** One iteration of the event loop on an [INPUT] event. *)
Definition handle `{UnicodeTables} (cfg : Config) (st : State)
    (id : string) (value : option str) (metadata : Meta)
  : outcome unit State Emission :=
  if String.eqb id "text" then
    match value with
    | None => Crash TypeError []
    | Some text =>
        (* the event's metadata dictionary enters the store *)
        let mref := length (heap st) in
        let st0 := mk_state (segment_queue st) (heap st ++ [metadata])
                     (is_sending st) (current_question_id st) (text_buffer st)
                     (pending_session_end st) (pending_session_end_metadata st) in
        if option_eqb String.eqb (session_status metadata) (Some "ended"%string) then
          let '(st1, out1) := on_session_ended st0 mref in
          if negb (truthy (strip text)) then Done tt st1 out1
          else
            match on_text cfg st1 text mref with
            | Crash e out2 => Crash e (out1 ++ out2)
            | Done _ st2 out2 => Done tt st2 (out1 ++ out2)
            end
        else on_text cfg st0 text mref
    end
  else if String.eqb id "tts_complete" then
    match segment_queue st with
    | seg :: q =>
        Done tt (mk_state q (heap st) (is_sending st) (current_question_id st)
                   (text_buffer st) (pending_session_end st)
                   (pending_session_end_metadata st))
             [emit (heap st) seg]
    | [] =>
        if pending_session_end st then
          Done tt (mk_state [] (heap st) false (current_question_id st)
                     (text_buffer st) false empty_meta)
               [mk_emission "text_segment" []
                  (mark_ended (pending_session_end_metadata st))]
        else
          Done tt (mk_state [] (heap st) false (current_question_id st)
                     (text_buffer st) (pending_session_end st)
                     (pending_session_end_metadata st))
               []
    end
  else if String.eqb id "control" then
    match value with
    | None => Crash TypeError []
    | Some command =>
        if str_eqb command (lit "reset") then Done tt (clear_all st) []
        else Done tt st []
    end
  else if String.eqb id "reset" then
    if option_eqb str_eqb value (Some (lit "resume")) then Done tt st []
    else
      match question_id metadata with
      | None => Done tt (clear_all st) []
      | Some q => Done tt (smart_reset st q) []
      end
  else Done tt st [].

(** The event loop: events are handled in order until [STOP]; an
    exception ends the run. *)
Fixpoint run `{UnicodeTables} (cfg : Config) (st : State) (evs : list Event)
  : outcome unit State Emission :=
  match evs with
  | [] => Done tt st []
  | Stop :: _ => Done tt st []
  | Input id value metadata :: evs' =>
      match handle cfg st id value metadata with
      | Crash e out1 => Crash e out1
      | Done _ st1 out1 =>
          match run cfg st1 evs' with
          | Crash e out2 => Crash e (out1 ++ out2)
          | Done _ st2 out2 => Done tt st2 (out1 ++ out2)
          end
      end
  end.

End Single.

(** ** Conference mode: [multi_participant_segmenter.py] *)

(** The first two components of what [segment_by_punctuation] returns. *)
Definition segments_and_tail (r : result (list str * str * bool))
  : option (list str * str) :=
  match r with
  | Ok (segs, incomplete, _) => Some (segs, incomplete)
  | Raise _ => None
  end.

Module Multi.

(** [multi_participant_segmenter.segment_by_punctuation]:
    [(complete_segments, incomplete_text, keep_incomplete)].  The
    function returns for every text and punctuation string. *)
Definition segment_by_punctuation (text : str) (min_length max_length : Z)
    (punctuation_marks : str) : result (list str * str * bool) :=
  if negb (truthy text) then Ok ([], [], false)
  else
    let '(segs, incomplete) := segment_loop text max_length punctuation_marks in
    Ok (segs, incomplete, truthy incomplete).

(** [multi_participant_segmenter.should_skip_segment]: the stripped text
    is empty, or every character is a punctuation mark or white space. *)
Definition should_skip_segment (text punctuation_marks : str) : bool :=
  if negb (truthy (strip text)) then true
  else forallb (fun c => mem c punctuation_marks || isspace c) text.

(** An entry of [session_timestamps[participant]]. *)
Record Marker : Type := mk_marker {
  m_session_id : string;
  timestamp : Q;
  m_question_id : option Z;
  m_session_status : string
}.

(** An entry of [segment_queues[participant]]. *)
Record Segment : Type := mk_segment {
  text : str;
  session_id : option string;
  is_session_end : bool;
  question_id : option Z;
  session_status : string
}.

(** A value sent on [text_segment_<participant>] with its metadata. *)
Record Emission : Type := mk_emission {
  port : string;
  payload : str;
  out_session_id : option string;
  out_question_id : option Z;
  out_session_status : string
}.

(** An input event.  [ev_text] is the value read as text (participant
    ports) or as a command (control ports), [ev_number] the value when it
    is an [int] or a [float]; the metadata is a dictionary, of which
    [md_session_status], [md_question_id] and [md_participant] are the
    keys the node reads and [md_other] tells whether it holds any other
    key; [ev_now] and [ev_uuid] are what [time.time()] and
    [uuid.uuid4()] return while the event is handled. *)
Record Event : Type := mk_event {
  ev_id : string;
  ev_text : option str;
  ev_number : option Q;
  md_session_status : option string;
  md_question_id : option Z;
  md_participant : option string;
  md_other : bool;
  ev_now : Q;
  ev_uuid : string
}.

(** Truth value of [event.get("metadata")]: a dictionary with a key. *)
Definition metadata_truthy (ev : Event) : bool :=
  match md_session_status ev, md_question_id ev, md_participant ev with
  | None, None, None => md_other ev
  | _, _, _ => true
  end.

Record Config : Type := mk_config {
  min_segment_length : Z;
  max_segment_length : Z;
  punctuation_marks : str;
  remove_speaker_id_enabled : bool;
  AUDIO_BUFFER_LOW_WATER_MARK : Z;
  AUDIO_BUFFER_HIGH_WATER_MARK : Z
}.

(** The variables of [main] that the event loop reads and writes. *)
Record State : Type := mk_state {
  participant_names : list string;
  segment_queues : gmap string (list Segment);
  text_buffers : gmap string str;
  session_timestamps : gmap string (list Marker);
  current_session : gmap string (option string);
  is_sending : gmap string bool;
  last_session_end_sent : gmap string bool;
  active_queue : option string;
  buffer_control_paused : bool;
  audio_buffer_level : Q
}.

Definition init : State :=
  mk_state [] ∅ ∅ ∅ ∅ ∅ ∅ None false 0%Q.

Definition set_segment_queues (f : gmap string (list Segment) -> gmap string (list Segment))
    (st : State) : State :=
  mk_state (participant_names st) (f (segment_queues st)) (text_buffers st)
    (session_timestamps st) (current_session st) (is_sending st)
    (last_session_end_sent st) (active_queue st) (buffer_control_paused st)
    (audio_buffer_level st).

Definition set_text_buffers (f : gmap string str -> gmap string str)
    (st : State) : State :=
  mk_state (participant_names st) (segment_queues st) (f (text_buffers st))
    (session_timestamps st) (current_session st) (is_sending st)
    (last_session_end_sent st) (active_queue st) (buffer_control_paused st)
    (audio_buffer_level st).

Definition set_session_timestamps (f : gmap string (list Marker) -> gmap string (list Marker))
    (st : State) : State :=
  mk_state (participant_names st) (segment_queues st) (text_buffers st)
    (f (session_timestamps st)) (current_session st) (is_sending st)
    (last_session_end_sent st) (active_queue st) (buffer_control_paused st)
    (audio_buffer_level st).

Definition set_current_session (f : gmap string (option string) -> gmap string (option string))
    (st : State) : State :=
  mk_state (participant_names st) (segment_queues st) (text_buffers st)
    (session_timestamps st) (f (current_session st)) (is_sending st)
    (last_session_end_sent st) (active_queue st) (buffer_control_paused st)
    (audio_buffer_level st).

Definition set_is_sending (f : gmap string bool -> gmap string bool)
    (st : State) : State :=
  mk_state (participant_names st) (segment_queues st) (text_buffers st)
    (session_timestamps st) (current_session st) (f (is_sending st))
    (last_session_end_sent st) (active_queue st) (buffer_control_paused st)
    (audio_buffer_level st).

Definition set_last_session_end_sent (f : gmap string bool -> gmap string bool)
    (st : State) : State :=
  mk_state (participant_names st) (segment_queues st) (text_buffers st)
    (session_timestamps st) (current_session st) (is_sending st)
    (f (last_session_end_sent st)) (active_queue st) (buffer_control_paused st)
    (audio_buffer_level st).

Definition set_active_queue (a : option string) (st : State) : State :=
  mk_state (participant_names st) (segment_queues st) (text_buffers st)
    (session_timestamps st) (current_session st) (is_sending st)
    (last_session_end_sent st) a (buffer_control_paused st)
    (audio_buffer_level st).

Definition set_buffer_control_paused (b : bool) (st : State) : State :=
  mk_state (participant_names st) (segment_queues st) (text_buffers st)
    (session_timestamps st) (current_session st) (is_sending st)
    (last_session_end_sent st) (active_queue st) b
    (audio_buffer_level st).

Definition set_audio_buffer_level (q : Q) (st : State) : State :=
  mk_state (participant_names st) (segment_queues st) (text_buffers st)
    (session_timestamps st) (current_session st) (is_sending st)
    (last_session_end_sent st) (active_queue st) (buffer_control_paused st) q.

(** *** The monad of an event handler: state, outputs, exceptions *)

Definition M (A : Type) : Type := State -> outcome A State Emission.

Definition ret {A : Type} (a : A) : M A := fun st => Done a st [].

Definition bind {A B : Type} (m : M A) (k : A -> M B) : M B :=
  fun st =>
    match m st with
    | Crash e out1 => Crash e out1
    | Done a st1 out1 =>
        match k a st1 with
        | Crash e out2 => Crash e (out1 ++ out2)
        | Done b st2 out2 => Done b st2 (out1 ++ out2)
        end
    end.

Notation "'let*' x ':=' m 'in' k" := (bind m (fun x => k))
  (at level 10, x name, m at level 100, k at level 200).
Notation "m ';;;' k" := (bind m (fun _ => k))
  (at level 100, k at level 200, right associativity).

Definition get : M State := fun st => Done st st [].
Definition modify (f : State -> State) : M unit := fun st => Done tt (f st) [].
Definition send_output (e : Emission) : M unit := fun st => Done tt st [e].

(** [d[k]] *)
Definition read {V : Type} (d : State -> gmap string V) (k : string) : M V :=
  fun st =>
    match d st !! k with
    | Some v => Done v st []
    | None => Crash (KeyError k) []
    end.

(** [for x in l: body(x)] *)
Fixpoint for_each {A : Type} (l : list A) (body : A -> M unit) : M unit :=
  match l with
  | [] => ret tt
  | x :: l' => body x ;;; for_each l' body
  end.

Definition when (b : bool) (m : M unit) : M unit := if b then m else ret tt.

Definition lift {A : Type} (r : result A) : M A :=
  fun st => match r with Ok a => Done a st [] | Raise e => Crash e [] end.

Definition Qltb (a b : Q) : bool := negb (Qle_bool b a).

(** [candidates.sort(key=lambda x: x[1])].  The sort of a Python list is
    stable, and a stable sort has one possible result; it is computed
    here by insertion, an element going in front of the first element
    whose key is not smaller than its own. *)
Fixpoint insert_by_ts (x : string * Q) (l : list (string * Q)) : list (string * Q) :=
  match l with
  | [] => [x]
  | y :: l' => if Qltb (snd y) (snd x) then y :: insert_by_ts x l'
               else x :: l
  end.

Fixpoint sort_by_ts (l : list (string * Q)) : list (string * Q) :=
  match l with
  | [] => []
  | x :: l' => insert_by_ts x (sort_by_ts l')
  end.

(** The loop of [select_oldest_session_queue] that collects the
    candidates, in the order of [participant_names]. *)
Fixpoint candidates (participant_names : list string)
    (session_timestamps : gmap string (list Marker))
    (segment_queues : gmap string (list Segment))
  : result (list (string * Q)) :=
  match participant_names with
  | [] => Ok []
  | participant :: names' =>
      match session_timestamps !! participant with
      | None => Raise (KeyError participant)
      | Some [] => candidates names' session_timestamps segment_queues
      | Some (oldest :: _) =>
          match segment_queues !! participant with
          | None => Raise (KeyError participant)
          | Some q =>
              match candidates names' session_timestamps segment_queues with
              | Raise e => Raise e
              | Ok cs => if truthy_list q
                         then Ok ((participant, timestamp oldest) :: cs)
                         else Ok cs
              end
          end
      end
  end.

Definition select_oldest_session_queue (participant_names : list string)
    (session_timestamps : gmap string (list Marker))
    (segment_queues : gmap string (list Segment))
  : result (option string) :=
  match candidates participant_names session_timestamps segment_queues with
  | Raise e => Raise e
  | Ok cs =>
      match sort_by_ts cs with
      | [] => Ok None
      | c :: _ => Ok (Some (fst c))
      end
  end.

Definition is_participant_port (event_id : string) : bool :=
  negb (String.eqb event_id "control" || String.eqb event_id "reset"
        || String.eqb event_id "audio_buffer_control"
        || String.eqb event_id "audio_complete"
        || String.prefix "tts_complete_" event_id).

Definition detect_session_event (session_status : option string) : string :=
  match session_status with
  | Some s => if String.eqb s "started" then "SESSION_START"
              else if String.eqb s "ended" then "SESSION_END"
              else "SESSION_CHUNK"
  | None => "SESSION_CHUNK"
  end.

(** Truth value of a participant name: a non-empty string. *)
Definition truthy_name (p : string) : bool := negb (String.eqb p "").

Definition output_port (participant : string) : string :=
  String.append "text_segment_" participant.

Definition emission_of (participant : string) (segment : Segment) : Emission :=
  mk_emission (output_port participant) (text segment) (session_id segment)
    (question_id segment) (session_status segment).

Definition ensure_participant_initialized (participant : string) : M unit :=
  let* st := get in
  if bool_decide (participant ∈ participant_names st) then ret tt
  else
    modify (fun st =>
      mk_state (participant_names st ++ [participant])
        (<[participant := []]> (segment_queues st))
        (<[participant := []]> (text_buffers st))
        (<[participant := []]> (session_timestamps st))
        (<[participant := None]> (current_session st))
        (<[participant := false]> (is_sending st))
        (<[participant := false]> (last_session_end_sent st))
        (active_queue st) (buffer_control_paused st) (audio_buffer_level st)).

Definition kick_start_sending (participant : string) : M unit :=
  let* q := read segment_queues participant in
  match q with
  | [] => ret tt
  | segment :: q' =>
      modify (set_is_sending <[participant := false]>) ;;;
      modify (set_segment_queues <[participant := q']>) ;;;
      send_output (emission_of participant segment) ;;;
      modify (set_is_sending <[participant := true]>)
  end.

(** [if next_queue: active = next_queue; kick_start_sending(next_queue)] *)
Definition activate (next_queue : option string) : M unit :=
  match next_queue with
  | Some p =>
      if truthy_name p then
        modify (set_active_queue (Some p)) ;;; kick_start_sending p
      else ret tt
  | None => ret tt
  end.

Definition try_activate_queue : M unit :=
  let* st := get in
  match active_queue st with
  | Some _ => ret tt
  | None =>
      let* next_queue :=
        lift (select_oldest_session_queue (participant_names st)
                (session_timestamps st) (segment_queues st)) in
      activate next_queue
  end.

(** [send_next_segment_for_participant] *)
Definition send_next_segment_for_participant (participant : string) : M unit :=
  let* st := get in
  match segment_queues st !! participant with
  | Some (segment :: q') =>
      modify (set_segment_queues <[participant := q']>) ;;;
      send_output (emission_of participant segment) ;;;
      modify (set_is_sending <[participant := true]>) ;;;
      when (is_session_end segment)
           (modify (set_last_session_end_sent <[participant := true]>))
  | _ => ret tt
  end.

Definition handle_audio_buffer_control (buffer_percentage : Q)
    (low_water_mark high_water_mark : Z) : M unit :=
  modify (set_audio_buffer_level buffer_percentage) ;;;
  let* st := get in
  if Qltb (inject_Z high_water_mark) buffer_percentage
     && negb (buffer_control_paused st) then
    modify (set_buffer_control_paused true)
  else if Qltb buffer_percentage (inject_Z low_water_mark)
          && buffer_control_paused st then
    modify (set_buffer_control_paused false) ;;;
    match active_queue st with
    | Some a =>
        if truthy_name a then
          match segment_queues st !! a with
          | Some (_ :: _) => send_next_segment_for_participant a
          | _ => ret tt
          end
        else ret tt
    | None => ret tt
    end
  else ret tt.

(** The lookups of the loop that logs the state of every participant
    before the next queue is selected. *)
Definition log_participants_state : M unit :=
  let* st := get in
  for_each (participant_names st) (fun p =>
    let* _ := read session_timestamps p in
    let* _ := read segment_queues p in
    ret tt).

Definition complete_session_and_activate_next (completed_participant : string)
  : M unit :=
  let* ts := read session_timestamps completed_participant in
  when (truthy_list ts)
       (modify (set_session_timestamps <[completed_participant := tail ts]>)) ;;;
  modify (set_active_queue None) ;;;
  log_participants_state ;;;
  let* st := get in
  let* next_queue :=
    lift (select_oldest_session_queue (participant_names st)
            (session_timestamps st) (segment_queues st)) in
  activate next_queue.

(** The loop that enqueues the segments cut from a chunk. *)
Definition enqueue_segments (cfg : Config) (participant : string)
    (complete_segments : list str) (current_session_metadata : option Marker)
  : M unit :=
  for_each complete_segments (fun segment_text =>
    when (negb (should_skip_segment segment_text (punctuation_marks cfg)))
      (let* q := read segment_queues participant in
       let* sid := read current_session participant in
       modify (set_segment_queues <[participant :=
         q ++ [mk_segment segment_text sid false
                 (current_session_metadata ≫= m_question_id)
                 (from_option m_session_status "started"%string
                    current_session_metadata)]]>))).

(** Speaker prefix removal, segmentation of buffer plus text, buffer
    update, enqueueing and activation: the common part of
    [SESSION_START] and [SESSION_CHUNK]. *)
Definition process_chunk (cfg : Config) (participant : string) (text0 : str)
  : M unit :=
  let text := if remove_speaker_id_enabled cfg then remove_speaker_id text0
              else text0 in
  let* buf := read text_buffers participant in
  let combined_text := buf ++ text in
  let* r := lift (segment_by_punctuation combined_text (min_segment_length cfg)
                    (max_segment_length cfg) (punctuation_marks cfg)) in
  let '(complete_segments, incomplete_text, keep_incomplete) := r in
  modify (set_text_buffers
            <[participant := if keep_incomplete then incomplete_text else []]>) ;;;
  let* ts := read session_timestamps participant in
  enqueue_segments cfg participant complete_segments (last ts) ;;;
  try_activate_queue.

Definition on_session_start (cfg : Config) (participant : string) (ev : Event)
    (text : str) : M unit :=
  let* ts := read session_timestamps participant in
  modify (set_session_timestamps <[participant :=
    ts ++ [mk_marker (ev_uuid ev) (ev_now ev) (md_question_id ev)
             (default "started"%string (md_session_status ev))]]>) ;;;
  modify (set_current_session <[participant := Some (ev_uuid ev)]>) ;;;
  process_chunk cfg participant text.

Definition on_session_chunk (cfg : Config) (participant : string) (text : str)
  : M unit :=
  let* cs := read current_session participant in
  match cs with
  | None => ret tt
  | Some _ => process_chunk cfg participant text
  end.

(** [segment_queues[participant][-1]["is_session_end"] = True] *)
Definition mark_last_session_end (q : list Segment) : list Segment :=
  match last q with
  | Some s =>
      take (length q - 1) q
        ++ [mk_segment (text s) (session_id s) true (question_id s)
              (session_status s)]
  | None => q
  end.

Definition on_session_end (cfg : Config) (participant : string) : M unit :=
  let* cs := read current_session participant in
  match cs with
  | None => ret tt
  | Some _ =>
      let* ts := read session_timestamps participant in
      let current_session_metadata := last ts in
      let* buf := read text_buffers participant in
      (if truthy (strip buf) then
         let incomplete_text := strip buf in
         when (negb (should_skip_segment incomplete_text (punctuation_marks cfg)))
           (let* q := read segment_queues participant in
            let* sid := read current_session participant in
            modify (set_segment_queues <[participant :=
              q ++ [mk_segment incomplete_text sid true
                      (current_session_metadata ≫= m_question_id)
                      (from_option m_session_status "ended"%string
                         current_session_metadata)]]>)) ;;;
         modify (set_text_buffers <[participant := []]>)
       else
         let* q := read segment_queues participant in
         when (truthy_list q)
           (modify (set_segment_queues <[participant := mark_last_session_end q]>))) ;;;
      modify (set_current_session <[participant := None]>) ;;;
      try_activate_queue
  end.

(** The branch of a participant port: the port name is the participant. *)
Definition on_participant_text (cfg : Config) (ev : Event) : M unit :=
  let participant := ev_id ev in
  ensure_participant_initialized participant ;;;
  let text := default [] (ev_text ev) in
  let session_event := detect_session_event (md_session_status ev) in
  if String.eqb session_event "SESSION_START" then
    on_session_start cfg participant ev text
  else if String.eqb session_event "SESSION_CHUNK" then
    on_session_chunk cfg participant text
  else on_session_end cfg participant.

(** The [audio_complete] branch.  A missing or empty participant is
    logged and dropped; [is_sending] is written before
    [last_session_end_sent] is read. *)
Definition on_audio_complete (ev : Event) : M unit :=
  match md_participant ev with
  | None => ret tt
  | Some participant =>
      if negb (truthy_name participant) then ret tt
      else
        modify (set_is_sending <[participant := false]>) ;;;
        let* end_sent := read last_session_end_sent participant in
        let* st := get in
        if end_sent && bool_decide (active_queue st = Some participant) then
          complete_session_and_activate_next participant ;;;
          modify (set_last_session_end_sent <[participant := false]>)
        else if negb (bool_decide (active_queue st = Some participant)) then ret tt
        else if buffer_control_paused st then ret tt
        else
          let* q := read segment_queues participant in
          match q with
          | [] => ret tt
          | segment :: q' =>
              modify (set_segment_queues <[participant := q']>) ;;;
              send_output (emission_of participant segment) ;;;
              modify (set_is_sending <[participant := true]>) ;;;
              when (is_session_end segment)
                   (modify (set_last_session_end_sent <[participant := true]>))
          end
  end.

(** The fill is the numeric value of the event.  Without one the
    handler turns to the metadata: an empty dictionary ends the test and
    the event is logged and dropped; on any other it reads the attribute
    [parameters], which a dictionary does not have. *)
Definition on_audio_buffer_control (cfg : Config) (ev : Event) : M unit :=
  match ev_number ev with
  | Some buffer_percentage =>
      handle_audio_buffer_control buffer_percentage
        (AUDIO_BUFFER_LOW_WATER_MARK cfg) (AUDIO_BUFFER_HIGH_WATER_MARK cfg)
  | None =>
      if metadata_truthy ev then lift (Raise AttributeError) else ret tt
  end.

(** The reset without question id. *)
Definition global_reset : M unit :=
  let* st := get in
  for_each (participant_names st) (fun participant =>
    let* _ := read segment_queues participant in
    modify (set_segment_queues <[participant := []]>) ;;;
    modify (set_text_buffers <[participant := []]>) ;;;
    let* _ := read session_timestamps participant in
    modify (set_session_timestamps <[participant := []]>) ;;;
    modify (set_current_session <[participant := None]>) ;;;
    modify (set_is_sending <[participant := false]>) ;;;
    modify (set_last_session_end_sent <[participant := false]>)) ;;;
  modify (set_active_queue None) ;;;
  modify (set_buffer_control_paused false) ;;;
  modify (set_audio_buffer_level 0%Q).

(** [seg_question_id == incoming_question_id or seg_question_id is None] *)
Definition keeps (incoming_question_id : Z) (segment : Segment) : bool :=
  match question_id segment with
  | Some q => Z.eqb q incoming_question_id
  | None => true
  end.

(** The smart reset, with the question id of the control event. *)
Definition smart_reset (incoming_question_id : Z) : M unit :=
  let* st := get in
  for_each (participant_names st) (fun participant =>
    let* q := read segment_queues participant in
    let new_queue := List.filter (keeps incoming_question_id) q in
    let cleared_count := (length q - length new_queue)%nat in
    modify (set_segment_queues <[participant := new_queue]>) ;;;
    when (0 <? cleared_count)%nat
      (modify (set_text_buffers <[participant := []]>) ;;;
       modify (set_is_sending <[participant := false]>))) ;;;
  modify (set_active_queue None) ;;;
  modify (set_buffer_control_paused false) ;;;
  modify (set_audio_buffer_level 0%Q).

Definition on_control (ev : Event) : M unit :=
  let command := ev_text ev in
  if option_eqb str_eqb command (Some (lit "reset"))
     || option_eqb str_eqb command (Some (lit "cancel")) then
    match md_question_id ev with
    | None => global_reset
    | Some incoming_question_id => smart_reset incoming_question_id
    end
  else ret tt.

(** One iteration of [for event in node]. *)
Definition handle (cfg : Config) (ev : Event) : M unit :=
  let event_id := ev_id ev in
  if is_participant_port event_id then on_participant_text cfg ev
  else if String.eqb event_id "audio_complete" then on_audio_complete ev
  else if String.eqb event_id "audio_buffer_control" then
    on_audio_buffer_control cfg ev
  else if String.eqb event_id "control" || String.eqb event_id "reset" then
    on_control ev
  else ret tt.

(** The event loop over a finite sequence of events. *)
Definition run (cfg : Config) (evs : list Event) : M unit :=
  for_each evs (handle cfg).

(** Events as the ports deliver them. *)
Definition text_event (participant : string) (status : option string)
    (question : option Z) (now : Q) (uuid : string) (t : str) : Event :=
  mk_event participant (Some t) None status question None false now uuid.

Definition audio_complete_event (participant : option string) : Event :=
  mk_event "audio_complete" None None None None participant false 0%Q "".

Definition buffer_event (fill : Q) : Event :=
  mk_event "audio_buffer_control" None (Some fill) None None None false 0%Q "".

Definition control_event (port : string) (command : str) (question : option Z)
  : Event :=
  mk_event port (Some command) None None question None false 0%Q "".

End Multi.

(** ** Passthrough mode: [simple_passthrough.py] *)

Module Passthrough.

Record Emission : Type := mk_emission {
  port : string;
  payload : str;
  segment_index : Z
}.

(** One [INPUT] event: a text is forwarded at once on [text_segment],
    followed by ["segment_sent"] on [status]; the state is the running
    segment index. *)
Definition handle (segment_index : Z) (id : string) (value : str)
  : Z * list Emission :=
  if String.eqb id "text" then
    (segment_index + 1,
     [mk_emission "text_segment" value segment_index;
      mk_emission "status" (lit "segment_sent") segment_index])
  else (segment_index, []).

End Passthrough.

(** The digit table restricted to ASCII, an instance of the interface. *)
#[export] Instance ascii_tables : UnicodeTables :=
  {| isdigit := ascii_isdigit; isdigit_ascii := fun c _ => eq_refl |}.

(** * Vocabulary of the properties *)

Module MultiSpec.
Import Multi.

(** [safe O m Q st]: run from [st], [m] sends only values that satisfy
    [O], whether it returns or raises, and if it returns, the value and
    the state satisfy [Q]. *)
Definition safe {A : Type} (O : Emission -> Prop) (m : M A)
    (Q : A -> State -> Prop) (st : State) : Prop :=
  match m st with
  | Done a st' out => Q a st' /\ Forall O out
  | Crash _ out => Forall O out
  end.

(** A text that the conference filter lets through. *)
Definition kept (cfg : Config) (t : str) : Prop :=
  should_skip_segment t (punctuation_marks cfg) = false.

(** The invariant of the event loop.  [obs] holds of the names seen so
    far on participant ports; [base] is a list of names known to be
    among the participants. *)
Record Inv (cfg : Config) (obs : string -> Prop) (base : list string)
    (st : State) : Prop := mk_inv {
  inv_nodup : NoDup (participant_names st);
  inv_keys : forall p, p ∈ participant_names st ->
    is_Some (segment_queues st !! p) /\ is_Some (text_buffers st !! p)
    /\ is_Some (session_timestamps st !! p)
    /\ is_Some (current_session st !! p)
    /\ is_Some (last_session_end_sent st !! p);
  inv_end_sent : forall p, is_Some (last_session_end_sent st !! p) ->
    p ∈ participant_names st;
  inv_active : forall a, active_queue st = Some a -> a ∈ participant_names st;
  inv_queue : forall p q, segment_queues st !! p = Some q ->
    Forall (fun s => kept cfg (text s)) q;
  inv_obs : forall p, p ∈ participant_names st -> obs p;
  inv_base : forall p, p ∈ base -> p ∈ participant_names st
}.

End MultiSpec.

Module SingleSpec.
Import Single.

Section Invariant.

Context {U : UnicodeTables} (cfg : Config).

Definition kept (t : str) : Prop :=
  should_skip_segment t (punctuation_marks cfg) = false.

(** What single mode sends: a kept text, or the empty text that stands
    for a pending end of session. *)
Definition well_formed (e : Emission) : Prop :=
  kept (payload e)
  \/ (payload e = [] /\ session_status (out_metadata e) = Some "ended"%string).

Record Inv (st : State) : Prop := mk_inv {
  inv_queue : Forall (fun seg => kept (fst seg)) (segment_queue st);
  inv_buffer : text_buffer st = [] \/ kept (text_buffer st)
}.

End Invariant.

End SingleSpec.

(** The timestamp with which a participant takes part in the election:
    that of its oldest session marker, provided it has one and its
    segment queue is not empty. *)
Definition candidate_ts (ts : gmap string (list Multi.Marker))
    (qs : gmap string (list Multi.Segment)) (p : string) : option Q :=
  match ts !! p, qs !! p with
  | Some (oldest :: _), Some (_ :: _) => Some (Multi.timestamp oldest)
  | _, _ => None
  end.

(** The first element with the least timestamp. *)
Fixpoint first_min (l : list (string * Q)) : option (string * Q) :=
  match l with
  | [] => None
  | x :: l' =>
      match first_min l' with
      | None => Some x
      | Some h => if Multi.Qltb (snd h) (snd x) then Some h else Some x
      end
  end.

(** A reset or cancel command on a control port, without and with a
    question id. *)
Definition is_reset_command (ev : Multi.Event) : bool :=
  (String.eqb (Multi.ev_id ev) "control" || String.eqb (Multi.ev_id ev) "reset")
  && (option_eqb str_eqb (Multi.ev_text ev) (Some (lit "reset"))
      || option_eqb str_eqb (Multi.ev_text ev) (Some (lit "cancel"))).

Definition is_global_reset (ev : Multi.Event) : bool :=
  is_reset_command ev
  && match Multi.md_question_id ev with None => true | Some _ => false end.

Definition is_selective_reset (ev : Multi.Event) (c : Z) : bool :=
  is_reset_command ev
  && match Multi.md_question_id ev with
     | None => false
     | Some q => Z.eqb q c
     end.

(** One iteration of the loop of the global reset. *)
Definition clear_participant (st : Multi.State) (p : string) : Multi.State :=
  Multi.set_last_session_end_sent <[p := false]>
    (Multi.set_is_sending <[p := false]>
       (Multi.set_current_session <[p := None]>
          (Multi.set_session_timestamps <[p := []]>
             (Multi.set_text_buffers <[p := []]>
                (Multi.set_segment_queues <[p := []]> st))))).

(** A dictionary after [d[p] = v] for every [p] of [names]. *)
Definition reset_keys {V : Type} (v : V) (names : list string)
    (d : gmap string V) : gmap string V :=
  foldl (fun m p => <[p := v]> m) d names.

(** The state after a global reset. *)
Definition cleared (st : Multi.State) : Multi.State :=
  let names := Multi.participant_names st in
  Multi.mk_state names
    (reset_keys [] names (Multi.segment_queues st))
    (reset_keys [] names (Multi.text_buffers st))
    (reset_keys [] names (Multi.session_timestamps st))
    (reset_keys None names (Multi.current_session st))
    (reset_keys false names (Multi.is_sending st))
    (reset_keys false names (Multi.last_session_end_sent st))
    None false 0%Q.

(** One iteration of the loop of the smart reset. *)
Definition smart_step (c : Z) (st : Multi.State) (p : string) : Multi.State :=
  match Multi.segment_queues st !! p with
  | Some q =>
      let new_queue := List.filter (Multi.keeps c) q in
      let st1 := Multi.set_segment_queues <[p := new_queue]> st in
      if (0 <? length q - length new_queue)%nat then
        Multi.set_is_sending <[p := false]>
          (Multi.set_text_buffers <[p := []]> st1)
      else st1
  | None => st
  end.

(** The body of the loop of the smart reset, as in [Multi.smart_reset]. *)
Definition smart_body (c : Z) (participant : string) : Multi.M unit :=
  Multi.bind (Multi.read Multi.segment_queues participant) (fun q =>
    let new_queue := List.filter (Multi.keeps c) q in
    let cleared_count := (length q - length new_queue)%nat in
    Multi.bind (Multi.modify (Multi.set_segment_queues <[participant := new_queue]>))
      (fun _ =>
         Multi.when (0 <? cleared_count)%nat
           (Multi.bind (Multi.modify (Multi.set_text_buffers <[participant := []]>))
              (fun _ => Multi.modify (Multi.set_is_sending <[participant := false]>))))).

(** How the state [s] reached inside the loop of the smart reset relates
    to the state [st] before the loop, [done] being the participants
    handled so far. *)
Record smart_rel (c : Z) (st s : Multi.State) (done : list string) : Prop :=
  mk_smart_rel {
  sr_names : Multi.participant_names s = Multi.participant_names st;
  sr_timestamps : Multi.session_timestamps s = Multi.session_timestamps st;
  sr_current : Multi.current_session s = Multi.current_session st;
  sr_end_sent : Multi.last_session_end_sent s = Multi.last_session_end_sent st;
  sr_active : Multi.active_queue s = Multi.active_queue st;
  sr_paused : Multi.buffer_control_paused s = Multi.buffer_control_paused st;
  sr_level : Multi.audio_buffer_level s = Multi.audio_buffer_level st;
  sr_other : forall k, k ∉ done ->
    Multi.segment_queues s !! k = Multi.segment_queues st !! k
    /\ Multi.text_buffers s !! k = Multi.text_buffers st !! k
    /\ Multi.is_sending s !! k = Multi.is_sending st !! k;
  sr_done : forall k q, k ∈ done -> Multi.segment_queues st !! k = Some q ->
    Multi.segment_queues s !! k = Some (List.filter (Multi.keeps c) q)
    /\ ((length (List.filter (Multi.keeps c) q) < length q)%nat ->
        Multi.text_buffers s !! k = Some []
        /\ Multi.is_sending s !! k = Some false)
}.

(** Any digit table computes like the ASCII one below 128, which is all
    that a run over ASCII text looks at. *)
Definition patched (U : UnicodeTables) (c : char) : bool :=
  if (c <? 128)%N then ascii_isdigit c else @isdigit U c.

Definition patched_tables (U : UnicodeTables) : UnicodeTables.
Proof.
  refine {| isdigit := patched U |}.
  intros c Hc. unfold patched. apply N.ltb_lt in Hc. now rewrite Hc.
Defined.

Definition state_after (o : outcome unit Multi.State Multi.Emission)
  : option Multi.State :=
  match o with
  | Done _ st _ => Some st
  | Crash _ _ => None
  end.


(** * Scenarios *)

(** The text of scenario S2, its claimed segmentation and the one the
    code computes. *)
Definition S2_text : str := lit "abcdefg, hij, klmnop, qrs.".

Definition S2_claimed : list str := [lit "abcdefg,"; lit "hij, klmnop,"; lit "qrs."].

Definition S2_computed : list str := [lit "abcdefg,hij,"; lit "klmnop,qrs."].

Definition S1_cfg : Single.Config :=
  Single.mk_config [12290; 65281; 65311; 46; 33; 63]%N 5 100 false
    Single.default_fallback_split_marks.

Definition S1_started : Single.Meta := Single.mk_meta (Some "started"%string) None.

Definition S1_chunk : Single.Meta := Single.mk_meta None None.

Definition S1_ended : Single.Meta := Single.mk_meta (Some "ended"%string) None.

Definition S1_events : list Single.Event :=
  [Single.Input "text" (Some (lit "Hello there. This is ")) S1_started;
   Single.Input "tts_complete" None S1_chunk;
   Single.Input "text" (Some (lit "a test! Final bit")) S1_chunk;
   Single.Input "tts_complete" None S1_chunk;
   Single.Input "text" (Some (lit "")) S1_ended;
   Single.Input "tts_complete" None S1_chunk].

Definition S1_claimed : list str :=
  [lit "Hello there."; lit "This is a test!"; lit "Final bit"].

(** The events of the single-mode end marker: a session whose only
    segment is still being spoken when the empty END arrives. *)
Definition pending_end_events : list Single.Event :=
  [Single.Input "text" (Some (lit "Hi.")) S1_started;
   Single.Input "text" (Some (lit "")) S1_ended;
   Single.Input "tts_complete" None S1_chunk].

Definition cfg0 : Multi.Config :=
  Multi.mk_config 5 15 (lit ".!?,") true 30 60.

Definition started_on (p : string) (now : Q) (uuid : string) (t : str) : Multi.Event :=
  Multi.text_event p (Some "started"%string) None now uuid t.

Definition chunk_on (p : string) (t : str) : Multi.Event :=
  Multi.text_event p None None 0%Q "" t.

Definition ended_on (p : string) : Multi.Event :=
  Multi.text_event p (Some "ended"%string) None 0%Q "" [].

(** Two waiting sessions with the same arrival time: pB is discovered
    before pA. *)
Definition tie_events : list Multi.Event :=
  [started_on "pC" 0%Q "sC" (lit "X.");
   chunk_on "pC" (lit "Y");
   started_on "pB" 1%Q "sB" (lit "B.");
   started_on "pA" 1%Q "sA" (lit "A.");
   ended_on "pC";
   Multi.audio_complete_event (Some "pC"%string);
   Multi.audio_complete_event (Some "pC"%string)].

(** A session of pA without any segment, then a session of pB. *)
Definition empty_session_events : list Multi.Event :=
  [started_on "pA" 1%Q "sA" [];
   ended_on "pA";
   started_on "pB" 2%Q "sB" (lit "Hi.");
   chunk_on "pB" (lit "Bye");
   ended_on "pB";
   Multi.audio_complete_event (Some "pB"%string);
   Multi.audio_complete_event (Some "pB"%string)].

(** While pC speaks, pA opens and closes a session without text
    (arrival 1), pB opens a session (arrival 5) and pA a second one
    (arrival 10); then the session of pC ends and is acknowledged. *)
Definition stale_marker_events : list Multi.Event :=
  [started_on "pC" 0%Q "sC" (lit "X.");
   chunk_on "pC" (lit "Y");
   started_on "pA" 1%Q "sA1" [];
   ended_on "pA";
   started_on "pB" 5%Q "sB" (lit "B.");
   started_on "pA" 10%Q "sA2" (lit "A.");
   ended_on "pC";
   Multi.audio_complete_event (Some "pC"%string);
   Multi.audio_complete_event (Some "pC"%string)].

(** The only segment of pA is sent at once, so its session ends with an
    empty tail and an empty queue; it is acknowledged; then pB has a
    whole session, and pA is acknowledged once more. *)
Definition floor_kept_events : list Multi.Event :=
  [started_on "pA" 1%Q "sA" (lit "Hello.");
   ended_on "pA";
   Multi.audio_complete_event (Some "pA"%string);
   started_on "pB" 2%Q "sB" (lit "Bye.");
   ended_on "pB";
   Multi.audio_complete_event (Some "pA"%string)].

Definition tie_timestamps : gmap string (list Multi.Marker) :=
  {[ "pB"%string := [Multi.mk_marker "sB" 1%Q None "started"];
     "pA"%string := [Multi.mk_marker "sA" 1%Q None "started"] ]}.

Definition tie_queues : gmap string (list Multi.Segment) :=
  {[ "pB"%string := [Multi.mk_segment (lit "B.") (Some "sB"%string) false None
                       "started"];
     "pA"%string := [Multi.mk_segment (lit "A.") (Some "sA"%string) false None
                       "started"] ]}.

(** The state of scenario S5: pA holds a segment of question 1 and two of
    question 2, pB one of question 1; both have a tail and are marked as
    sending; pA is active. *)
Definition S5_segment (t : string) (q : Z) : Multi.Segment :=
  Multi.mk_segment (lit t) (Some "s"%string) false (Some q) "started".

Definition S5_state : Multi.State :=
  Multi.mk_state ["pA"; "pB"]%string
    {[ "pA"%string := [S5_segment "X." 1; S5_segment "Y." 2; S5_segment "Z." 2];
       "pB"%string := [S5_segment "W." 1] ]}
    {[ "pA"%string := lit "tail a"; "pB"%string := lit "tail b" ]}
    {[ "pA"%string := []; "pB"%string := [] ]}
    {[ "pA"%string := None; "pB"%string := None ]}
    {[ "pA"%string := true; "pB"%string := true ]}
    {[ "pA"%string := false; "pB"%string := false ]}
    (Some "pA"%string) true 70%Q.



(** The state of the conference segmenter after START "Hello." of pA:
    the segment has been sent and pA is the active queue. *)
Definition hello_events : list Multi.Event :=
  [started_on "pA" 1%Q "s1" (lit "Hello.")].

Definition hello_state : Multi.State :=
  Multi.mk_state ["pA"%string]
    {["pA"%string := []]}
    {["pA"%string := []]}
    {["pA"%string := [Multi.mk_marker "s1" 1%Q None "started"]]}
    {["pA"%string := Some "s1"%string]}
    {["pA"%string := true]}
    {["pA"%string := false]}
    (Some "pA"%string) false 0%Q.

(** * Vocabulary of the further properties *)

(** The matches that the loop of [segment_by_punctuation] does not skip:
    stripped, non-empty, in the order of the text. *)
Definition stripped_runs (marks text : str) : list str :=
  List.filter truthy (List.map (fun m => strip (fst m)) (finditer marks text)).

(** A segment respects the length cap: capping is off, or the segment
    is short enough, or it is one single match (which is never cut). *)
Definition fits (max_length : Z) (runs : list str) (s : str) : Prop :=
  max_length <= 0 \/ len s <= max_length \/ In s runs.

(** The invariant of the segmentation loop after the runs [done]. *)
Record loop_inv (max_length : Z) (l : seg_loop) (done : list str) : Prop :=
  mk_loop_inv {
  li_concat : concat (segments l) ++ accumulator l = concat done;
  li_nonempty : Forall (fun s => s <> []) (segments l);
  li_segments : Forall (fits max_length done) (segments l);
  li_accumulator : accumulator l = [] \/ fits max_length done (accumulator l)
}.

(** The loop of [simple_passthrough.main] over the [INPUT] events that
    precede [STOP], each given by its port and its text. *)
Fixpoint passthrough_run (segment_index : Z) (evs : list (string * str))
  : Z * list Passthrough.Emission :=
  match evs with
  | [] => (segment_index, [])
  | ev :: evs' =>
      let '(i1, out1) := Passthrough.handle segment_index (fst ev) (snd ev) in
      let '(i2, out2) := passthrough_run i1 evs' in
      (i2, out1 ++ out2)
  end.

Definition on_text_segment (e : Passthrough.Emission) : bool :=
  String.eqb (Passthrough.port e) "text_segment".

(** Single mode is idle and nothing waits: either a segment is in flight
    or the queue is empty. *)
Definition nothing_waits (st : Single.State) : Prop :=
  Single.is_sending st = false -> Single.segment_queue st = [].

(** An event that carries the value its handler reads. *)
Definition has_value (ev : Single.Event) : bool :=
  match ev with
  | Single.Input id None _ =>
      negb (String.eqb id "text" || String.eqb id "control")
  | _ => true
  end.

(** Single mode: two short sentences arrive at once, are sent as one
    segment and acknowledged. *)
Definition two_sentences_events : list Single.Event :=
  [Single.Input "text" (Some (lit "One. Two.")) S1_chunk;
   Single.Input "tts_complete" None S1_chunk;
   Single.Input "tts_complete" None S1_chunk].

Definition two_sentences_state : Single.State :=
  Single.mk_state [] [S1_chunk] false None [] false Single.empty_meta.

Module MultiWp.
Import Multi.

(** [wp E m Q st]: run from [st], [m] returns a value, a state and a
    list of sent values that satisfy [Q]; if it raises instead, [E]
    holds.  With [E := False] the handler does not raise, with
    [E := True] nothing is said about a run that raises. *)
Definition wp {A : Type} (E : Prop) (m : M A)
    (Q : A -> State -> list Emission -> Prop) (st : State) : Prop :=
  match m st with
  | Done a st' out => Q a st' out
  | Crash _ _ => E
  end.

(** Nothing is sent, or one segment on the port of the participant
    that is the active queue of [st']. *)
Definition sends_on_active (st' : State) (out : list Emission) : Prop :=
  out = []
  \/ exists a segment, active_queue st' = Some a
                       /\ out = [emission_of a segment].

(** A step that sends nothing and touches neither the participants nor
    the active queue. *)
Definition quiet (st st' : State) (out : list Emission) : Prop :=
  participant_names st' = participant_names st
  /\ active_queue st' = active_queue st
  /\ out = [].

(** A step on the receiving side: the participants stay, whoever is
    active stays active and then nothing is sent; otherwise at most one
    segment goes to the participant that becomes active. *)
Definition keeps_floor (st st' : State) (out : list Emission) : Prop :=
  participant_names st' = participant_names st
  /\ sends_on_active st' out
  /\ forall a, active_queue st = Some a ->
               active_queue st' = Some a /\ out = [].

(** The participants after the names seen on participant ports are
    added in the order of their first appearance. *)
Definition discover (names : list string) (participant : string) : list string :=
  if bool_decide (participant ∈ names) then names else names ++ [participant].

Definition discovered (names : list string) (evs : list Event) : list string :=
  foldl (fun names ev =>
           if is_participant_port (ev_id ev) then discover names (ev_id ev)
           else names)
        names evs.

End MultiWp.

Module MultiRun.
Import Multi.






End MultiRun.

(** The state after a chunk of pB arrives while pA holds the floor: pB
    is registered, without a session, and nothing else changes. *)
Definition hello_with_pB : Multi.State :=
  Multi.mk_state ["pA"; "pB"]%string
    (<["pB"%string := []]> (Multi.segment_queues hello_state))
    (<["pB"%string := []]> (Multi.text_buffers hello_state))
    (<["pB"%string := []]> (Multi.session_timestamps hello_state))
    (<["pB"%string := None]> (Multi.current_session hello_state))
    (<["pB"%string := false]> (Multi.is_sending hello_state))
    (<["pB"%string := false]> (Multi.last_session_end_sent hello_state))
    (Some "pA"%string) false 0%Q.

(** ** Splitting by length: [find_split_index] and [split_segment_to_max]

    The two helpers of [queue_based_segmenter.py] that cut a segment at
    fallback marks or white space.  [split_marks] is the collection of
    one-character marks, given as the string of these characters. *)

Module Split.

(** [for idx in range(limit, 0, -1): if P(text[idx - 1]): return idx];
    [None] when the loop ends without returning.  The index [idx - 1]
    lies within the text, [limit] being at most its length. *)
Fixpoint scan_down (P : char -> bool) (text : str) (idx : nat) : option nat :=
  match idx with
  | O => None
  | S i =>
      match text !! i with
      | Some c => if P c then Some idx else scan_down P text i
      | None => scan_down P text i
      end
  end.

Definition find_split_index (text : str) (max_length : Z) (split_marks : str)
  : Z :=
  if max_length <=? 0 then -1
  else
    let limit := Z.to_nat (Z.min (len text) max_length) in
    match (if truthy split_marks
           then scan_down (fun c => mem c split_marks) text limit
           else None) with
    | Some idx => Z.of_nat idx
    | None =>
        match scan_down isspace text limit with
        | Some idx => Z.of_nat idx
        | None => -1
        end
    end.

(** The [while remainder:] loop of [split_segment_to_max]; [fuel] bounds
    the number of iterations, [None] means that it ran out. *)
Fixpoint split_loop (fuel : nat) (remainder : str) (max_length : Z)
    (split_marks : str) : option (list str) :=
  match fuel with
  | O => None
  | S fuel' =>
      if negb (truthy remainder) then Some []
      else if len remainder <=? max_length then Some [remainder]
      else
        let found := find_split_index remainder max_length split_marks in
        let split_idx := if found =? -1 then max_length else found in
        let chunk := take (Z.to_nat split_idx) remainder in
        match split_loop fuel'
                (lstrip (drop (Z.to_nat split_idx) remainder))
                max_length split_marks with
        | Some chunks =>
            Some (if truthy (strip chunk) then chunk :: chunks else chunks)
        | None => None
        end
  end.

(** [(chunks, tail)]; the loop gets one iteration more than the segment
    has characters. *)
Definition split_segment_to_max (segment : str) (max_length min_length : Z)
    (split_marks : str) : option (list str * str) :=
  if (max_length <=? 0) || (len segment <=? max_length)
  then Some ([segment], [])
  else
    match split_loop (S (length segment)) segment max_length split_marks with
    | None => None
    | Some chunks =>
        match last chunks with
        | Some last_chunk =>
            if len (strip last_chunk) <? Z.max min_length 1
            then Some (removelast chunks, last_chunk)
            else Some (chunks, [])
        | None => Some (chunks, [])
        end
    end.

(** The characters of a text that are not white space. *)
Definition ink (s : str) : str := List.filter (fun c => negb (isspace c)) s.

End Split.

(** ** Logging: [send_log]

    The three segmenters share the level filter of [send_log]. *)

Module Log.

(** [LOG_LEVELS.get(name, default)] *)
Definition LOG_LEVELS_get (name : string) (default : Z) : Z :=
  if String.eqb name "DEBUG" then 10
  else if String.eqb name "INFO" then 20
  else if String.eqb name "WARNING" then 30
  else if String.eqb name "ERROR" then 40
  else default.

(** Whether [send_log(node, level, message, config_level)] sends the
    message on [log] rather than returning at once. *)
Definition send_log_sends (level config_level : string) : bool :=
  negb (LOG_LEVELS_get level 0 <? LOG_LEVELS_get config_level 20).

Definition known_level (name : string) : bool :=
  String.eqb name "DEBUG" || String.eqb name "INFO"
  || String.eqb name "WARNING" || String.eqb name "ERROR".

End Log.

(** The state after START "Hi.." of pA: "Hi." has been sent, the lone
    full stop is the tail, and pA holds the floor. *)
Definition punctuation_tail_state : Multi.State :=
  Multi.mk_state ["pA"%string]
    {["pA"%string := []]}
    {["pA"%string := lit "."]}
    {["pA"%string := [Multi.mk_marker "s1" 1%Q None "started"]]}
    {["pA"%string := Some "s1"%string]}
    {["pA"%string := true]}
    {["pA"%string := false]}
    (Some "pA"%string) false 0%Q.

(** * Properties *)

(** ** Strings and the segmentation engine *)

Section Segmentation.

Lemma finditer_from_run (marks run : str) (c : char) (r cur : str) :
  forallb (fun x => negb (mem x marks)) run = true ->
  mem c marks = true ->
  cur ++ run <> [] ->
  finditer_from marks cur (run ++ c :: r)
  = (rev cur ++ run ++ [c], r) :: finditer_from marks [] r.
Proof.
  revert cur. induction run as [|x run IH]; intros cur Hrun Hc Hne.
  - rewrite app_nil_r in Hne. simpl. rewrite Hc.
    destruct cur; [congruence | reflexivity].
  - simpl in Hrun. apply andb_prop in Hrun as [Hx Hrun].
    apply negb_true_iff in Hx. simpl. rewrite Hx.
    rewrite IH; [| assumption | assumption | now destruct run].
    simpl. now rewrite <- !app_assoc.
Qed.

Lemma forallb_sub {A : Type} (P : A -> bool) (small big : list A) :
  forallb P big = true ->
  (forall x, In x small -> In x big) ->
  forallb P small = true.
Proof.
  intros Hbig Hsub. apply forallb_forall. intros x Hx.
  eapply forallb_forall in Hbig; eauto.
Qed.

Lemma finditer_nonempty (marks text : str) :
  marks <> [] -> finditer marks text = finditer_from marks [] text.
Proof. destruct marks; [congruence | reflexivity]. Qed.

Lemma finditer_mem (marks text : str) (c : char) :
  mem c marks = true -> finditer marks text = finditer_from marks [] text.
Proof. destruct marks; [discriminate | reflexivity]. Qed.

End Segmentation.

Lemma S2_matches (marks : str) :
  forallb (fun c => mem c marks) (lit ",.") = true ->
  forallb (fun c => negb (mem c marks)) (lit "abcdefghijklmnopqrs ") = true ->
  finditer marks S2_text
  = [(lit "abcdefg,", lit " hij, klmnop, qrs.");
     (lit " hij,", lit " klmnop, qrs.");
     (lit " klmnop,", lit " qrs.");
     (lit " qrs.", [])].
Proof.
  intros Hin Hout.
  assert (Hcomma : mem 44%N marks = true)
    by (simpl in Hin; now apply andb_prop in Hin as [? _]).
  assert (Hdot : mem 46%N marks = true).
  { simpl in Hin. apply andb_prop in Hin as [_ Hin].
    now apply andb_prop in Hin as [? _]. }
  assert (Hrun : forall run, (forall x, In x run ->
            In x (lit "abcdefghijklmnopqrs ")) ->
            forallb (fun x => negb (mem x marks)) run = true)
    by (intros run Hsub; eapply forallb_sub; eauto).
  rewrite (finditer_mem marks S2_text 44%N Hcomma).
  change S2_text with
    (lit "abcdefg" ++ 44%N :: (lit " hij" ++ 44%N ::
      (lit " klmnop" ++ 44%N :: (lit " qrs" ++ 46%N :: [])))).
  do 4 (rewrite finditer_from_run;
        [ | apply Hrun; intros x Hx; vm_compute in Hx |- *; tauto
          | assumption | discriminate ]).
  reflexivity.
Qed.

(** C6 (as the code computes it): with a maximum length of 15 and with
    comma and full stop among the punctuation marks (and no letter or
    space of the text among them), both segmenters cut
    "abcdefg, hij, klmnop, qrs." into "abcdefg,hij," and "klmnop,qrs."
    and leave an empty tail: runs are stripped and appended to the
    accumulator as long as the result has at most 15 characters. *)
Theorem C6_max_length_flush (marks fallback : str) (min_length : Z) :
  forallb (fun c => mem c marks) (lit ",.") = true ->
  forallb (fun c => negb (mem c marks)) (lit "abcdefghijklmnopqrs ") = true ->
  Multi.segment_by_punctuation S2_text min_length 15 marks
    = Ok (S2_computed, [], false)
  /\ Single.segment_by_punctuation S2_text marks 15 min_length fallback
    = Ok (S2_computed, [], false).
Proof.
  intros Hin Hout.
  unfold Multi.segment_by_punctuation, Single.segment_by_punctuation.
  change (negb (truthy S2_text)) with false. cbv iota.
  unfold segment_loop. rewrite (S2_matches marks Hin Hout).
  split; reflexivity.
Qed.

Lemma C6_max_length_flush_witness :
  Multi.segment_by_punctuation S2_text 5 15 (lit ".!?,")
    = Ok (S2_computed, [], false)
  /\ Single.segment_by_punctuation S2_text (lit ".!?,") 15 5
       Single.default_fallback_split_marks
    = Ok (S2_computed, [], false).
Proof.
  apply (C6_max_length_flush (lit ".!?,") Single.default_fallback_split_marks 5);
    reflexivity.
Defined.

(** C6 as stated fails: with comma and full stop as punctuation marks
    and a maximum length of 15, neither segmenter returns the segments
    "abcdefg,", "hij, klmnop,", "qrs." with an empty tail. *)
Lemma C6_counterexample :
  segments_and_tail (Multi.segment_by_punctuation S2_text 5 15 (lit ".,"))
    <> Some (S2_claimed, [])
  /\ segments_and_tail
       (Single.segment_by_punctuation S2_text (lit ".,") 15 5
          Single.default_fallback_split_marks)
    <> Some (S2_claimed, []).
Proof. split; vm_compute; discriminate. Qed.

(** ** Single mode *)

Section SingleMode.

Lemma single_keep {U : UnicodeTables} (t marks : str) (c : char) :
  In c (strip t) -> (c < 128)%N ->
  isspace c = false -> ascii_isdigit c = false -> mem c marks = false ->
  Single.should_skip_segment t marks = false.
Proof.
  intros Hin Hc Hs Hd Hm. unfold Single.should_skip_segment.
  destruct (strip t) as [|x r] eqn:E; [destruct Hin |].
  change (negb (truthy (x :: r))) with false. cbv iota.
  apply not_true_is_false. intros Hall.
  eapply forallb_forall in Hall; [| exact Hin].
  rewrite Hs, Hm, (isdigit_ascii c Hc) in Hall.
  unfold ascii_isdigit in Hd. rewrite Hd in Hall. discriminate.
Qed.

Lemma forallb_pointwise {A : Type} (f g : A -> bool) (l : list A) :
  (forall x, f x = g x) -> forallb f l = forallb g l.
Proof.
  intros H. induction l as [|x l IH]; simpl; [reflexivity |].
  now rewrite H, IH.
Qed.

Lemma should_skip_ext (U1 U2 : UnicodeTables) (t marks : str) :
  (forall c, @isdigit U1 c = @isdigit U2 c) ->
  @Single.should_skip_segment U1 t marks = @Single.should_skip_segment U2 t marks.
Proof.
  intros H. unfold Single.should_skip_segment.
  destruct (negb (truthy (strip t))); [reflexivity |].
  apply forallb_pointwise. intros c. now rewrite H.
Qed.

Lemma on_text_ext (U1 U2 : UnicodeTables) cfg st t mref :
  (forall c, @isdigit U1 c = @isdigit U2 c) ->
  @Single.on_text U1 cfg st t mref = @Single.on_text U2 cfg st t mref.
Proof.
  intros H. unfold Single.on_text.
  destruct (Single.segment_by_punctuation _ _ _ _ _) as [[[segs inc] keep]|e];
    [| reflexivity].
  rewrite (should_skip_ext U1 U2 inc _ H).
  rewrite (List.filter_ext _
             (fun s => negb (@Single.should_skip_segment U2 s
                               (Single.punctuation_marks cfg)))).
  - reflexivity.
  - intros s. now rewrite (should_skip_ext U1 U2 s _ H).
Qed.

Lemma handle_ext (U1 U2 : UnicodeTables) cfg st id value metadata :
  (forall c, @isdigit U1 c = @isdigit U2 c) ->
  @Single.handle U1 cfg st id value metadata
  = @Single.handle U2 cfg st id value metadata.
Proof.
  intros H. unfold Single.handle.
  destruct (String.eqb id "text"); [| reflexivity].
  destruct value as [t|]; [| reflexivity].
  destruct (option_eqb String.eqb _ _).
  - destruct (Single.on_session_ended _ _) as [st1 out1].
    now rewrite (on_text_ext U1 U2 _ _ _ _ H).
  - apply on_text_ext, H.
Qed.

Lemma run_ext (U1 U2 : UnicodeTables) cfg evs st :
  (forall c, @isdigit U1 c = @isdigit U2 c) ->
  @Single.run U1 cfg st evs = @Single.run U2 cfg st evs.
Proof.
  intros H. revert st. induction evs as [|[id value metadata|] evs IH];
    intros st; simpl; try reflexivity.
  rewrite (handle_ext U1 U2 _ _ _ _ _ H).
  destruct (Single.handle _ _ _ _ _) as [[] st1 out1|e out1]; [| reflexivity].
  now rewrite IH.
Qed.

Lemma patched_isdigit (U : UnicodeTables) (c : char) :
  @isdigit U c = @isdigit (patched_tables U) c.
Proof.
  simpl. unfold patched. destruct (c <? 128)%N eqn:E; [| reflexivity].
  apply N.ltb_lt in E. now rewrite (isdigit_ascii c E).
Qed.

End SingleMode.

(** C5 (as the code computes it): in single mode with min 5, max 100 and
    terminators "。！？.!?", the events START "Hello there. This is ",
    CHUNK "a test! Final bit", END "", each emission acknowledged at
    once, produce "Hello there.", "This isa test!" and "Final bit", the
    last with session_status "ended": the tail kept between chunks is
    stripped, so the space before "a test!" is lost. *)
Theorem C5_single_scenario (U : UnicodeTables) :
  outputs (Single.run S1_cfg Single.init S1_events)
  = [Single.mk_emission "text_segment" (lit "Hello there.") S1_started;
     Single.mk_emission "text_segment" (lit "This isa test!") S1_chunk;
     Single.mk_emission "text_segment" (lit "Final bit") S1_ended].
Proof.
  rewrite (run_ext U (patched_tables U) _ _ _ (patched_isdigit U)).
  vm_compute. reflexivity.
Qed.

(** C5 as stated fails: the second text sent is not "This is a test!". *)
Lemma C5_counterexample :
  List.map Single.payload
    (outputs (Single.run (H := ascii_tables) S1_cfg Single.init S1_events))
  <> S1_claimed.
Proof. vm_compute. discriminate. Qed.

(** C7 as stated fails: in single mode the END that arrives while the
    only segment is being spoken is passed on, after the acknowledgment,
    as a segment with empty text. *)
Lemma C7_counterexample :
  outputs (Single.run (H := ascii_tables) S1_cfg Single.init pending_end_events)
  = [Single.mk_emission "text_segment" (lit "Hi.") S1_started;
     Single.mk_emission "text_segment" [] S1_ended].
Proof. vm_compute. reflexivity. Qed.

(** ** Conference mode: scenarios *)

(** C1, at the failing input: the fill 70 is above the high watermark 60
    and pauses the gate; the START that follows activates the queue of
    pA and sends "Hello." while the gate is still paused. *)
Theorem C1_paused_gate_kick_start :
  (Multi.buffer_control_paused <$>
     state_after (Multi.run cfg0 [Multi.buffer_event 70%Q] Multi.init)) = Some true
  /\ outputs (Multi.run cfg0
       [Multi.buffer_event 70%Q; started_on "pA" 1%Q "s1" (lit "Hello.")]
       Multi.init)
     = [Multi.mk_emission "text_segment_pA" (lit "Hello.") (Some "s1"%string)
          None "started"]
  /\ (Multi.buffer_control_paused <$>
       state_after (Multi.run cfg0
         [Multi.buffer_event 70%Q; started_on "pA" 1%Q "s1" (lit "Hello.")]
         Multi.init)) = Some true.
Proof. vm_compute. repeat split; reflexivity. Qed.

(** C2, at the failing input: "First." is sent on activation and not
    acknowledged; the gate is paused and resumed; the resume kick sends
    "Second." although [is_sending] is set for pA.  No [audio_complete]
    has been handled, so two segments are in flight. *)
Theorem C2_resume_kick_while_sending :
  let before := [started_on "pA" 1%Q "s1" (lit "First.");
                 chunk_on "pA" (lit "Second.");
                 Multi.buffer_event 70%Q] in
  (state_after (Multi.run cfg0 before Multi.init) ≫=
     (fun st => Multi.is_sending st !! "pA"%string)) = Some true
  /\ (state_after (Multi.run cfg0 before Multi.init) ≫= Multi.active_queue)
     = Some "pA"%string
  /\ outputs (Multi.run cfg0 before Multi.init)
     = [Multi.mk_emission "text_segment_pA" (lit "First.") (Some "s1"%string)
          None "started"]
  /\ outputs (Multi.run cfg0 (before ++ [Multi.buffer_event 25%Q]) Multi.init)
     = [Multi.mk_emission "text_segment_pA" (lit "First.") (Some "s1"%string)
          None "started";
        Multi.mk_emission "text_segment_pA" (lit "Second.") (Some "s1"%string)
          None "started"].
Proof. vm_compute. repeat split; reflexivity. Qed.

(** C3 as stated fails on ties: pA and pB wait with the same oldest
    timestamp when pC completes; the election takes pB, the one
    discovered first, and not pA, the smaller name. *)
Lemma C3_counterexample :
  (state_after (Multi.run cfg0 tie_events Multi.init) ≫= Multi.active_queue)
    = Some "pB"%string
  /\ last (outputs (Multi.run cfg0 tie_events Multi.init))
    = Some (Multi.mk_emission "text_segment_pB" (lit "B.") (Some "sB"%string)
              None "started")
  /\ String.ltb "pA" "pB" = true.
Proof. vm_compute. repeat split; reflexivity. Qed.

(** The conference filter has no class of digits: a segment of digits
    and punctuation is queued and sent. *)
Lemma conference_digits_sent :
  List.map Multi.payload
    (outputs (Multi.run cfg0 [started_on "pA" 1%Q "s1" (lit "123.")] Multi.init))
  = [lit "123."].
Proof. vm_compute. reflexivity. Qed.

(** C4, at the failing inputs: a session that ends with an empty tail
    and an empty queue is never completed.  Its marker is not popped
    when its turn comes: it is still the head of pA's session list after
    the whole session of pB has been spoken and acknowledged.  The
    marker that stays then stands for the next session of pA: with
    arrivals 1 (empty), 5 (pB) and 10 (pA again), the election after pC
    takes pA and sends "A." of the session that arrived at 10, while
    "B." of the session that arrived at 5 waits.  And when the only
    segment of pA has been sent before its END arrives, no segment
    carries the end of the session, so the acknowledgement completes
    nothing: pA stays the active queue, its marker stays, and "Bye." of
    pB is never sent. *)
Theorem C4_empty_session_never_completed :
  ((state_after (Multi.run cfg0 empty_session_events Multi.init) ≫=
      (fun st => Multi.session_timestamps st !! "pA"%string))
     = Some [Multi.mk_marker "sA" 1%Q None "started"]
   /\ List.map Multi.payload
        (outputs (Multi.run cfg0 empty_session_events Multi.init))
      = [lit "Hi."; lit "Bye"])
  /\ (List.map (fun e => (Multi.port e, Multi.payload e,
                           Multi.out_session_id e))
        (outputs (Multi.run cfg0 stale_marker_events Multi.init))
      = [("text_segment_pC"%string, lit "X.", Some "sC"%string);
         ("text_segment_pC"%string, lit "Y", Some "sC"%string);
         ("text_segment_pA"%string, lit "A.", Some "sA2"%string)]
     /\ (state_after (Multi.run cfg0 stale_marker_events Multi.init) ≫=
          (fun st => Multi.session_timestamps st !! "pA"%string))
        = Some [Multi.mk_marker "sA1" 1%Q None "started";
                Multi.mk_marker "sA2" 10%Q None "started"]
     /\ (state_after (Multi.run cfg0 stale_marker_events Multi.init) ≫=
          (fun st => List.map Multi.text <$>
                       Multi.segment_queues st !! "pB"%string))
        = Some [lit "B."])
  /\ (List.map Multi.payload
        (outputs (Multi.run cfg0 floor_kept_events Multi.init))
      = [lit "Hello."]
     /\ (state_after (Multi.run cfg0 floor_kept_events Multi.init) ≫=
          Multi.active_queue) = Some "pA"%string
     /\ (state_after (Multi.run cfg0 floor_kept_events Multi.init) ≫=
          (fun st => Multi.session_timestamps st !! "pA"%string))
        = Some [Multi.mk_marker "sA" 1%Q None "started"]
     /\ (state_after (Multi.run cfg0 floor_kept_events Multi.init) ≫=
          (fun st => List.map Multi.text <$>
                       Multi.segment_queues st !! "pB"%string))
        = Some [lit "Bye."]).
Proof. vm_compute. repeat split; reflexivity. Qed.

(** ** Conference mode: reasoning about handlers *)

Module MultiFacts.
Import Multi MultiSpec.

Section Rules.

Context {A B : Type} (O : Emission -> Prop).

Lemma safe_ret (a : A) (Q : A -> State -> Prop) st :
  Q a st -> safe O (ret a) Q st.
Proof. intros H. unfold safe, ret. auto. Qed.

Lemma safe_bind (m : M A) (k : A -> M B) (Q : B -> State -> Prop) st :
  safe O m (fun a st' => safe O (k a) Q st') st -> safe O (bind m k) Q st.
Proof.
  unfold safe, bind. destruct (m st) as [a st1 out1|e out1]; [| auto].
  intros [Hk H1]. destruct (k a st1) as [b st2 out2|e out2].
  - destruct Hk as [HQ H2]. split; [assumption |]. now apply Forall_app.
  - now apply Forall_app.
Qed.

Lemma safe_mono (m : M A) (Q Q' : A -> State -> Prop) st :
  safe O m Q st -> (forall a st', Q a st' -> Q' a st') -> safe O m Q' st.
Proof.
  unfold safe. destruct (m st); [| auto]. intros [HQ HO] H. auto.
Qed.

Lemma safe_read {V : Type} (d : State -> gmap string V) (k : string)
    (Q : V -> State -> Prop) st :
  (forall v, d st !! k = Some v -> Q v st) -> safe O (read d k) Q st.
Proof.
  intros H. unfold safe, read. destruct (d st !! k); [| constructor].
  split; [auto | constructor].
Qed.

Lemma safe_lift (r : result A) (Q : A -> State -> Prop) st :
  (forall a, r = Ok a -> Q a st) -> safe O (lift r) Q st.
Proof.
  intros H. unfold safe, lift. destruct r; [| constructor].
  split; [auto | constructor].
Qed.

End Rules.

Section MoreRules.

Context (O : Emission -> Prop).

Lemma safe_get (Q : State -> State -> Prop) st :
  Q st st -> safe O get Q st.
Proof. intros H. unfold safe, get. auto. Qed.

Lemma safe_modify (f : State -> State) (Q : unit -> State -> Prop) st :
  Q tt (f st) -> safe O (modify f) Q st.
Proof. intros H. unfold safe, modify. auto. Qed.

Lemma safe_send_output (e : Emission) (Q : unit -> State -> Prop) st :
  O e -> Q tt st -> safe O (send_output e) Q st.
Proof. intros He H. unfold safe, send_output. auto. Qed.

Lemma safe_when (b : bool) (m : M unit) (Q : unit -> State -> Prop) st :
  (b = true -> safe O m Q st) -> (b = false -> Q tt st) ->
  safe O (when b m) Q st.
Proof.
  intros Ht Hf. destruct b; simpl; [auto |]. apply safe_ret. auto.
Qed.

Lemma safe_for_each {X : Type} (I : State -> Prop) (l : list X)
    (body : X -> M unit) (Q : unit -> State -> Prop) st :
  I st ->
  (forall x s, x ∈ l -> I s -> safe O (body x) (fun _ => I) s) ->
  (forall s, I s -> Q tt s) ->
  safe O (for_each l body) Q st.
Proof.
  revert st. induction l as [|x l IH]; intros st HI Hbody HQ; simpl.
  - apply safe_ret. auto.
  - apply safe_bind. eapply safe_mono.
    + apply Hbody; [left | exact HI].
    + intros [] s Hs. apply IH; [exact Hs | | exact HQ].
      intros y s' Hy. apply Hbody. now right.
Qed.

End MoreRules.

Section Setters.

Context (cfg : Config) (obs : string -> Prop) (base : list string).

Ltac inv_setter H :=
  destruct H as [H1 H2 H3 H4 H5 H6 H7]; constructor; simpl; auto.

Lemma Inv_init : Inv cfg obs [] init.
Proof.
  constructor; simpl.
  - constructor.
  - intros p Hp. inversion Hp.
  - intros p [x Hx]. rewrite lookup_empty in Hx. discriminate.
  - discriminate.
  - intros p q Hq. rewrite lookup_empty in Hq. discriminate.
  - intros p Hp. inversion Hp.
  - intros p Hp. inversion Hp.
Qed.

Lemma Inv_base_cons p st :
  Inv cfg obs base st -> p ∈ participant_names st ->
  Inv cfg obs (p :: base) st.
Proof.
  intros H Hp. inv_setter H. intros p0 Hp0.
  apply elem_of_cons in Hp0 as [->|Hp0]; auto.
Qed.

Lemma Inv_base_tail p st :
  Inv cfg obs (p :: base) st ->
  Inv cfg obs base st /\ p ∈ participant_names st.
Proof.
  intros H. split; [inv_setter H | apply (inv_base _ _ _ _ H); left].
  intros p0 Hp0. apply H7. now right.
Qed.

Lemma Inv_is_sending p b st :
  Inv cfg obs base st -> Inv cfg obs base (set_is_sending <[p := b]> st).
Proof. intros H. inv_setter H. Qed.

Lemma Inv_text_buffers p v st :
  Inv cfg obs base st -> Inv cfg obs base (set_text_buffers <[p := v]> st).
Proof.
  intros H. inv_setter H. intros p0 Hp0.
  destruct (H2 p0 Hp0) as (? & ? & ? & ? & ?).
  repeat split; auto. apply lookup_insert_is_Some'. auto.
Qed.

Lemma Inv_session_timestamps p v st :
  Inv cfg obs base st ->
  Inv cfg obs base (set_session_timestamps <[p := v]> st).
Proof.
  intros H. inv_setter H. intros p0 Hp0.
  destruct (H2 p0 Hp0) as (? & ? & ? & ? & ?).
  repeat split; auto. apply lookup_insert_is_Some'. auto.
Qed.

Lemma Inv_current_session p v st :
  Inv cfg obs base st -> Inv cfg obs base (set_current_session <[p := v]> st).
Proof.
  intros H. inv_setter H. intros p0 Hp0.
  destruct (H2 p0 Hp0) as (? & ? & ? & ? & ?).
  repeat split; auto. apply lookup_insert_is_Some'. auto.
Qed.

Lemma Inv_segment_queues p q st :
  Inv cfg obs base st -> Forall (fun s => kept cfg (text s)) q ->
  Inv cfg obs base (set_segment_queues <[p := q]> st).
Proof.
  intros H Hq. inv_setter H.
  - intros p0 Hp0. destruct (H2 p0 Hp0) as (? & ? & ? & ? & ?).
    repeat split; auto. apply lookup_insert_is_Some'. auto.
  - intros p0 q0 Hl. apply lookup_insert_Some in Hl as [[_ <-]|[_ Hl]]; eauto.
Qed.

Lemma Inv_last_session_end_sent p b st :
  Inv cfg obs base st -> p ∈ participant_names st ->
  Inv cfg obs base (set_last_session_end_sent <[p := b]> st).
Proof.
  intros H Hp. inv_setter H.
  - intros p0 Hp0. destruct (H2 p0 Hp0) as (? & ? & ? & ? & ?).
    repeat split; auto. apply lookup_insert_is_Some'. auto.
  - intros p0 Hs. apply lookup_insert_is_Some' in Hs as [Heq|Hs]; auto.
    now subst p0.
Qed.

Lemma Inv_active_queue a st :
  Inv cfg obs base st -> (forall p, a = Some p -> p ∈ participant_names st) ->
  Inv cfg obs base (set_active_queue a st).
Proof. intros H Ha. inv_setter H. Qed.

Lemma Inv_buffer_control_paused b st :
  Inv cfg obs base st -> Inv cfg obs base (set_buffer_control_paused b st).
Proof. intros H. inv_setter H. Qed.

Lemma Inv_audio_buffer_level q st :
  Inv cfg obs base st -> Inv cfg obs base (set_audio_buffer_level q st).
Proof. intros H. inv_setter H. Qed.

End Setters.

Create HintDb inv.

#[export] Hint Resolve Inv_is_sending Inv_text_buffers Inv_session_timestamps
  Inv_current_session Inv_segment_queues Inv_last_session_end_sent
  Inv_active_queue Inv_buffer_control_paused Inv_audio_buffer_level : inv.

(** *** Election: candidates and the stable sort *)

Lemma insert_by_ts_perm x l : Permutation (insert_by_ts x l) (x :: l).
Proof.
  induction l as [|y l IH]; simpl; [reflexivity |].
  destruct (Qltb (snd y) (snd x)); [| reflexivity].
  rewrite IH. apply perm_swap.
Qed.

Lemma sort_by_ts_perm l : Permutation (sort_by_ts l) l.
Proof.
  induction l as [|x l IH]; simpl; [reflexivity |].
  rewrite insert_by_ts_perm. now rewrite IH.
Qed.

Lemma candidates_names names ts qs cs :
  candidates names ts qs = Ok cs ->
  forall c, c ∈ cs -> fst c ∈ names.
Proof.
  revert cs. induction names as [|p names IH]; intros cs H c Hc; simpl in H.
  - injection H as <-. inversion Hc.
  - destruct (ts !! p) as [[|oldest sess]|]; [| | discriminate].
    + right. eauto.
    + destruct (qs !! p) as [q|]; [| discriminate].
      destruct (candidates names ts qs) as [cs'|]; [| discriminate].
      destruct (truthy_list q); injection H as <-.
      * apply elem_of_cons in Hc as [->|Hc]; [left | right; eauto].
      * right. eauto.
Qed.

Lemma select_in_names names ts qs p :
  select_oldest_session_queue names ts qs = Ok (Some p) -> p ∈ names.
Proof.
  unfold select_oldest_session_queue.
  destruct (candidates names ts qs) as [cs|] eqn:E; [| discriminate].
  destruct (sort_by_ts cs) as [|c l] eqn:Es; [discriminate |].
  intros H. injection H as <-.
  apply (candidates_names _ _ _ _ E).
  rewrite <- (sort_by_ts_perm cs), Es. left.
Qed.

(** *** The handlers keep the invariant and send only kept texts *)

Ltac step := cbv beta; lazymatch goal with
  | |- safe _ (bind _ _) _ _ => apply safe_bind
  | |- safe _ (ret _) _ _ => apply safe_ret
  | |- safe _ get _ _ => apply safe_get
  | |- safe _ (modify _) _ _ => apply safe_modify
  | |- safe _ (send_output _) _ _ => apply safe_send_output
  | |- safe _ (read _ _) _ _ => apply safe_read
  | |- safe _ (lift _) _ _ => apply safe_lift
  | |- safe _ (when _ _) _ _ => apply safe_when; intros ?
  end.

Ltac call L := cbv beta; first
  [ eapply safe_mono; [apply L | intros [] ? ?]
  | apply safe_bind; eapply safe_mono; [apply L | intros [] ? ?] ].

Section Handlers.

Context (cfg : Config) (obs : string -> Prop).

Let O : Emission -> Prop := fun e => kept cfg (payload e).
Let I : list string -> State -> Prop := Inv cfg obs.

Lemma kick_start_sending_safe base p st :
  I base st -> safe O (kick_start_sending p) (fun _ => I base) st.
Proof.
  intros HI. unfold kick_start_sending. step. step. intros q Hq.
  destruct q as [|segment q'].
  - step. exact HI.
  - pose proof (inv_queue _ _ _ _ HI _ _ Hq) as HF.
    apply Forall_cons in HF as [Hs Hq'].
    repeat step; [exact Hs |].
    unfold I. auto with inv.
Qed.

Lemma activate_safe base next st :
  I base st -> (forall p, next = Some p -> p ∈ participant_names st) ->
  safe O (activate next) (fun _ => I base) st.
Proof.
  intros HI Hn. unfold activate. destruct next as [p|]; [| step; exact HI].
  destruct (truthy_name p); [| step; exact HI].
  step. step. apply kick_start_sending_safe.
  apply Inv_active_queue; [exact HI |]. intros p0 [= <-]. auto.
Qed.

Lemma try_activate_queue_safe base st :
  I base st -> safe O try_activate_queue (fun _ => I base) st.
Proof.
  intros HI. unfold try_activate_queue. step. step.
  destruct (active_queue st); [step; exact HI |].
  step. step. intros next Hnext. apply activate_safe; [exact HI |].
  intros p ->. eapply select_in_names; eauto.
Qed.

Lemma send_next_segment_for_participant_safe base p st :
  I base st -> p ∈ participant_names st ->
  safe O (send_next_segment_for_participant p) (fun _ => I base) st.
Proof.
  intros HI Hp. unfold send_next_segment_for_participant. step. step.
  destruct (segment_queues st !! p) as [[|segment q']|] eqn:E;
    try (step; exact HI).
  pose proof (inv_queue _ _ _ _ HI _ _ E) as HF.
  apply Forall_cons in HF as [Hs Hq].
  repeat step; [exact Hs | |]; unfold I; auto with inv.
Qed.

Lemma handle_audio_buffer_control_safe base q low high st :
  I base st ->
  safe O (handle_audio_buffer_control q low high) (fun _ => I base) st.
Proof.
  intros HI. unfold handle_audio_buffer_control. step. step. step. step.
  assert (HI' : I base (set_audio_buffer_level q st))
    by (unfold I; auto with inv).
  simpl.
  destruct (_ && _); [step; unfold I; auto with inv |].
  destruct (_ && _); [| step; exact HI'].
  step. step.
  assert (HI'' : I base (set_buffer_control_paused false
                           (set_audio_buffer_level q st)))
    by (unfold I; auto with inv).
  destruct (active_queue st) as [a|] eqn:Ea; [| step; exact HI''].
  destruct (truthy_name a); [| step; exact HI''].
  destruct (segment_queues st !! a) as [[|? ?]|]; try (step; exact HI'').
  apply send_next_segment_for_participant_safe; [exact HI'' |].
  simpl. now apply (inv_active _ _ _ _ HI).
Qed.

Lemma log_participants_state_safe base st :
  I base st -> safe O log_participants_state (fun _ => I base) st.
Proof.
  intros HI. unfold log_participants_state. step. step.
  apply safe_for_each with (I := I base); auto.
  intros p s _ Hs. step. step. intros ? _. step. step. intros ? _.
  step. exact Hs.
Qed.

Lemma complete_session_and_activate_next_safe base p st :
  I base st ->
  safe O (complete_session_and_activate_next p) (fun _ => I base) st.
Proof.
  intros HI. unfold complete_session_and_activate_next. step. step.
  intros ts Hts. apply safe_bind.
  apply safe_mono with (Q := fun _ => I base).
  { step; [step |]; unfold I; auto with inv. }
  intros [] s1 Hs1. step. step.
  call log_participants_state_safe.
  { apply Inv_active_queue; [exact Hs1 | discriminate]. }
  step. step. step. step. intros next Hnext.
  apply activate_safe; [assumption |].
  intros p0 ->. eapply select_in_names; eauto.
Qed.

Lemma enqueue_segments_safe base p segs md st :
  I base st -> safe O (enqueue_segments cfg p segs md) (fun _ => I base) st.
Proof.
  intros HI. unfold enqueue_segments.
  apply safe_for_each with (I := I base); auto.
  intros t s _ Hs. apply safe_when; intros Hk; [| exact Hs].
  step. step. intros q Hq. step. step. intros sid _. step.
  apply Inv_segment_queues; [exact Hs |].
  apply Forall_app. split; [eapply inv_queue; eauto |].
  constructor; [| constructor]. simpl. unfold kept.
  now apply negb_true_iff.
Qed.

Lemma process_chunk_safe base p t st :
  I base st -> safe O (process_chunk cfg p t) (fun _ => I base) st.
Proof.
  intros HI. unfold process_chunk. step. step. intros buf _. step. step.
  intros [[complete_segments incomplete_text] keep_incomplete] _.
  step. step. step. step. intros ts _.
  call enqueue_segments_safe; [unfold I; eauto with inv |].
  now apply try_activate_queue_safe.
Qed.

Lemma on_session_start_safe base p ev t st :
  I base st -> safe O (on_session_start cfg p ev t) (fun _ => I base) st.
Proof.
  intros HI. unfold on_session_start. step. step. intros ts _.
  repeat step. apply process_chunk_safe. unfold I. auto with inv.
Qed.

Lemma on_session_chunk_safe base p t st :
  I base st -> safe O (on_session_chunk cfg p t) (fun _ => I base) st.
Proof.
  intros HI. unfold on_session_chunk. step. step. intros cs _.
  destruct cs; [now apply process_chunk_safe | step; exact HI].
Qed.

Lemma mark_last_session_end_kept q :
  Forall (fun s => kept cfg (text s)) q ->
  Forall (fun s => kept cfg (text s)) (mark_last_session_end q).
Proof.
  intros H. unfold mark_last_session_end.
  destruct (last q) as [s|] eqn:E; [| exact H].
  apply Forall_app. split; [now apply Forall_take |].
  constructor; [| constructor]. simpl.
  apply last_Some in E as [l' ->].
  apply Forall_app in H as [_ H]. now inversion H.
Qed.

Lemma on_session_end_safe base p st :
  I base st -> safe O (on_session_end cfg p) (fun _ => I base) st.
Proof.
  intros HI. unfold on_session_end. step. step. intros cs _.
  destruct cs; [| step; exact HI].
  step. step. intros ts _. step. step. intros buf _. apply safe_bind.
  apply safe_mono with (Q := fun _ => I base).
  - destruct (truthy (strip buf)).
    + step. apply safe_when; intros Hk.
      * step. step. intros q Hq. step. step. intros sid _. step. step.
        apply Inv_text_buffers.
        apply Inv_segment_queues; [exact HI |].
        apply Forall_app. split; [eapply inv_queue; eauto |].
        constructor; [| constructor]. simpl. unfold kept.
        now apply negb_true_iff.
      * step. unfold I in *. auto with inv.
    + step. step. intros q Hq. step; [| exact HI]. step.
      apply Inv_segment_queues; [exact HI |].
      apply mark_last_session_end_kept. eapply inv_queue; eauto.
  - intros [] s1 Hs1. step. step. apply try_activate_queue_safe.
    unfold I in *. auto with inv.
Qed.

Lemma ensure_participant_initialized_safe base p st :
  I base st -> obs p ->
  safe O (ensure_participant_initialized p) (fun _ => I (p :: base)) st.
Proof.
  intros HI Hp. unfold ensure_participant_initialized. step. step.
  case_bool_decide as Hin; step; [now apply Inv_base_cons |].
  destruct HI as [H1 H2 H3 H4 H5 H6 H7]. constructor; simpl.
  - apply NoDup_app. repeat split; auto.
    + intros x Hx Hx'. apply list_elem_of_singleton in Hx'. now subst.
    + apply NoDup_singleton.
  - intros p0 Hp0. rewrite !lookup_insert_is_Some'.
    apply elem_of_app in Hp0 as [Hp0|Hp0].
    + destruct (H2 p0 Hp0) as (? & ? & ? & ? & ?). auto 10.
    + apply list_elem_of_singleton in Hp0. auto 10.
  - intros p0 Hs. apply elem_of_app.
    apply lookup_insert_is_Some' in Hs as [Heq|Hs];
      [right; subst; left | left; auto].
  - intros a Ha. apply elem_of_app. left. auto.
  - intros p0 q Hl. apply lookup_insert_Some in Hl as [[_ <-]|[_ Hl]]; eauto.
  - intros p0 Hp0. apply elem_of_app in Hp0 as [Hp0|Hp0]; [auto |].
    apply list_elem_of_singleton in Hp0. now subst.
  - intros p0 Hp0. apply elem_of_app.
    apply elem_of_cons in Hp0 as [->|Hp0]; [right; left | left; auto].
Qed.

Lemma on_participant_text_safe base ev st :
  I base st -> obs (ev_id ev) ->
  safe O (on_participant_text cfg ev) (fun _ => I base) st.
Proof.
  intros HI Hp. unfold on_participant_text.
  call ensure_participant_initialized_safe; eauto.
  match goal with H : I (_ :: _) _ |- _ =>
    apply Inv_base_tail in H as [HI' _] end.
  destruct (String.eqb _ _); [now apply on_session_start_safe |].
  destruct (String.eqb _ _);
    [now apply on_session_chunk_safe | now apply on_session_end_safe].
Qed.

Lemma on_audio_complete_safe base ev st :
  I base st -> safe O (on_audio_complete ev) (fun _ => I base) st.
Proof.
  intros HI. unfold on_audio_complete.
  destruct (md_participant ev) as [p|]; [| step; exact HI].
  destruct (negb (truthy_name p)); [step; exact HI |].
  step. step. step. step. intros end_sent Hes. step. step.
  assert (HI' : I base (set_is_sending <[p := false]> st))
    by (unfold I; auto with inv).
  assert (Hp : p ∈ participant_names st).
  { apply (inv_end_sent _ _ _ _ HI). simpl in Hes. eauto. }
  simpl.
  destruct (_ && _).
  { call complete_session_and_activate_next_safe.
    { apply Inv_base_cons; [exact HI' | exact Hp]. }
    match goal with H : I (_ :: _) _ |- _ =>
      apply Inv_base_tail in H as [HI2 Hp2] end.
    step. unfold I. auto with inv. }
  destruct (negb _); [step; exact HI' |].
  destruct (buffer_control_paused st); [step; exact HI' |].
  step. step. intros q Hq. destruct q as [|segment q']; [step; exact HI' |].
  pose proof (inv_queue _ _ _ _ HI' _ _ Hq) as HF.
  apply Forall_cons in HF as [Hs Hq'].
  repeat step; [exact Hs | |]; unfold I; auto with inv.
Qed.

Lemma on_audio_buffer_control_safe base ev st :
  I base st -> safe O (on_audio_buffer_control cfg ev) (fun _ => I base) st.
Proof.
  intros HI. unfold on_audio_buffer_control.
  destruct (ev_number ev); [now apply handle_audio_buffer_control_safe |].
  destruct (metadata_truthy ev); [| step; exact HI].
  step. discriminate.
Qed.

Lemma global_reset_safe base st :
  I base st -> safe O global_reset (fun _ => I base) st.
Proof.
  intros HI. unfold global_reset. step. step. apply safe_bind.
  apply safe_for_each
    with (I := fun s => I base s /\ participant_names s = participant_names st);
    [auto | |].
  - intros p s Hp [Hs Hn]. step. step. intros ? _. step. step. step. step.
    step. step. intros ? _. repeat step. simpl. split; [| exact Hn].
    apply Inv_last_session_end_sent; [| simpl; now rewrite Hn].
    unfold I. auto 10 with inv.
  - intros s [Hs _]. repeat step. unfold I.
    apply Inv_audio_buffer_level, Inv_buffer_control_paused, Inv_active_queue;
      [exact Hs | discriminate].
Qed.

Lemma smart_reset_safe base qid st :
  I base st -> safe O (smart_reset qid) (fun _ => I base) st.
Proof.
  intros HI. unfold smart_reset. step. step. apply safe_bind.
  apply safe_for_each with (I := I base); [auto | |].
  - intros p s Hp Hs. step. step. intros q Hq. step. step.
    assert (Hs' : I base (set_segment_queues
                            <[p := List.filter (keeps qid) q]> s)).
    { apply Inv_segment_queues; [exact Hs |].
      pose proof (inv_queue _ _ _ _ Hs _ _ Hq) as HF.
      apply Forall_forall. intros x Hx. apply list_elem_of_In in Hx.
      apply filter_In in Hx as [Hx _].
      rewrite Forall_forall in HF. apply HF. now apply list_elem_of_In. }
    step; [| exact Hs']. repeat step. unfold I in *. auto with inv.
  - intros s Hs. repeat step. unfold I.
    apply Inv_audio_buffer_level, Inv_buffer_control_paused, Inv_active_queue;
      [exact Hs | discriminate].
Qed.

Lemma on_control_safe base ev st :
  I base st -> safe O (on_control ev) (fun _ => I base) st.
Proof.
  intros HI. unfold on_control. destruct (_ || _); [| step; exact HI].
  destruct (md_question_id ev);
    [now apply smart_reset_safe | now apply global_reset_safe].
Qed.

Lemma handle_safe base ev st :
  I base st -> (is_participant_port (ev_id ev) = true -> obs (ev_id ev)) ->
  safe O (handle cfg ev) (fun _ => I base) st.
Proof.
  intros HI Hobs. unfold handle.
  destruct (is_participant_port (ev_id ev));
    [apply on_participant_text_safe; auto |].
  destruct (String.eqb _ _); [now apply on_audio_complete_safe |].
  destruct (String.eqb _ _); [now apply on_audio_buffer_control_safe |].
  destruct (_ || _); [now apply on_control_safe | step; exact HI].
Qed.

Lemma run_safe base evs st :
  I base st ->
  (forall ev, ev ∈ evs -> is_participant_port (ev_id ev) = true ->
              obs (ev_id ev)) ->
  safe O (run cfg evs) (fun _ => I base) st.
Proof.
  intros HI Hobs. unfold run.
  apply safe_for_each with (I := I base); auto.
  intros ev s Hev Hs. apply handle_safe; auto.
Qed.

End Handlers.

(** What holds after any run from the initial state. *)
Lemma run_init_safe cfg (obs : string -> Prop) evs :
  (forall ev, ev ∈ evs -> is_participant_port (ev_id ev) = true ->
              obs (ev_id ev)) ->
  safe (fun e => kept cfg (payload e)) (run cfg evs)
       (fun _ => Inv cfg obs []) init.
Proof. intros H. apply run_safe; [apply Inv_init | exact H]. Qed.

Lemma reachable_inv cfg evs st out :
  run cfg evs init = Done tt st out ->
  Inv cfg (fun p => exists ev, ev ∈ evs /\ is_participant_port (ev_id ev) = true
                               /\ ev_id ev = p) [] st.
Proof.
  intros Hrun.
  pose proof (run_init_safe cfg
    (fun p => exists ev, ev ∈ evs /\ is_participant_port (ev_id ev) = true
                         /\ ev_id ev = p) evs) as H.
  unfold safe in H. rewrite Hrun in H. apply H. eauto.
Qed.

End MultiFacts.

(** ** Conference mode: acknowledgments of unknown participants *)

(** C10 (as the code has it): after any run, an [audio_complete] event
    that names a non-empty participant never seen on a participant text
    port makes the handler raise [KeyError] when it reads
    [last_session_end_sent]; an [audio_complete] without participant,
    or with the empty string as participant, is dropped and leaves the
    state as it is. *)
Theorem C10_audio_complete_unknown_participant
    (cfg : Multi.Config) (evs : list Multi.Event) (st : Multi.State)
    (out : list Multi.Emission) (ev : Multi.Event) (p : string) :
  Multi.run cfg evs Multi.init = Done tt st out ->
  (forall e, e ∈ evs -> Multi.is_participant_port (Multi.ev_id e) = true ->
             Multi.ev_id e <> p) ->
  Multi.ev_id ev = "audio_complete"%string ->
  p <> ""%string ->
  (Multi.md_participant ev = Some p ->
     Multi.handle cfg ev st = Crash (KeyError p) [])
  /\ (Multi.md_participant ev = None ->
     Multi.handle cfg ev st = Done tt st [])
  /\ (Multi.md_participant ev = Some ""%string ->
     Multi.handle cfg ev st = Done tt st []).
Proof.
  intros Hrun Hseen Hid Hne.
  unfold Multi.handle, Multi.on_audio_complete. rewrite Hid.
  change (Multi.is_participant_port "audio_complete") with false.
  change (String.eqb "audio_complete" "audio_complete") with true. cbv iota.
  split; [| split; intros ->; reflexivity]. intros ->.
  assert (Ht : Multi.truthy_name p = true).
  { unfold Multi.truthy_name. apply negb_true_iff.
    now apply String.eqb_neq. }
  rewrite Ht. simpl.
  assert (Hnone : Multi.last_session_end_sent st !! p = None).
  { apply MultiFacts.reachable_inv in Hrun.
    destruct (Multi.last_session_end_sent st !! p) eqn:E; [| reflexivity].
    exfalso.
    assert (Hin : p ∈ Multi.participant_names st)
      by (apply (MultiSpec.inv_end_sent _ _ _ _ Hrun); eauto).
    apply (MultiSpec.inv_obs _ _ _ _ Hrun) in Hin
      as (e & He & Hport & Heq).
    exact (Hseen e He Hport Heq). }
  unfold Multi.bind, Multi.modify, Multi.read. simpl. now rewrite Hnone.
Qed.

Lemma hello_state_reached :
  Multi.run cfg0 hello_events Multi.init
  = Done tt hello_state
      [Multi.mk_emission "text_segment_pA" (lit "Hello.") (Some "s1"%string)
         None "started"].
Proof. vm_compute. reflexivity. Qed.

Lemma C10_audio_complete_unknown_participant_witness :
  Multi.handle cfg0 (Multi.audio_complete_event (Some "ghost"%string))
    hello_state = Crash (KeyError "ghost") []
  /\ Multi.handle cfg0 (Multi.audio_complete_event None) hello_state
     = Done tt hello_state []
  /\ Multi.handle cfg0 (Multi.audio_complete_event (Some ""%string))
       hello_state
     = Done tt hello_state [].
Proof.
  assert (Hseen : forall e, e ∈ hello_events ->
            Multi.is_participant_port (Multi.ev_id e) = true ->
            Multi.ev_id e <> "ghost"%string).
  { intros e He _ Heq. apply list_elem_of_singleton in He. subst e.
    vm_compute in Heq. discriminate. }
  assert (Hne : "ghost"%string <> ""%string) by discriminate.
  split; [| split].
  - exact (proj1 (C10_audio_complete_unknown_participant cfg0 hello_events
                    hello_state _
                    (Multi.audio_complete_event (Some "ghost"%string))
                    "ghost" hello_state_reached Hseen eq_refl Hne) eq_refl).
  - exact (proj1 (proj2 (C10_audio_complete_unknown_participant cfg0
                           hello_events hello_state _
                           (Multi.audio_complete_event None)
                           "ghost" hello_state_reached Hseen eq_refl Hne))
             eq_refl).
  - exact (proj2 (proj2 (C10_audio_complete_unknown_participant cfg0
                           hello_events hello_state _
                           (Multi.audio_complete_event (Some ""%string))
                           "ghost" hello_state_reached Hseen eq_refl Hne))
             eq_refl).
Defined.

(** C10 as stated fails for the empty name: no participant port of this
    run is named by the empty string, yet the acknowledgement that
    carries it as participant raises nothing; it is dropped like one
    without participant. *)
Lemma C10_counterexample :
  Multi.run cfg0 hello_events Multi.init
  = Done tt hello_state
      [Multi.mk_emission "text_segment_pA" (lit "Hello.") (Some "s1"%string)
         None "started"]
  /\ Forall (fun e => Multi.ev_id e <> ""%string) hello_events
  /\ Multi.handle cfg0 (Multi.audio_complete_event (Some ""%string))
       hello_state
     = Done tt hello_state [].
Proof.
  split; [vm_compute; reflexivity |].
  split; [repeat constructor; discriminate | vm_compute; reflexivity].
Qed.

(** ** Well-formed segments *)

Section Strip.

Lemma lstrip_app_nonspace (l : str) (c : char) :
  isspace c = false -> lstrip (l ++ [c]) = lstrip l ++ [c].
Proof.
  intros Hc. induction l as [|x l IH]; simpl.
  - now rewrite Hc.
  - destruct (isspace x); [exact IH | reflexivity].
Qed.

Lemma rstrip_cons_nonspace (c : char) (r : str) :
  isspace c = false -> rstrip (c :: r) = c :: rstrip r.
Proof.
  intros Hc. unfold rstrip. simpl.
  rewrite (lstrip_app_nonspace _ _ Hc), rev_app_distr. reflexivity.
Qed.

Lemma lstrip_head (s : str) :
  lstrip s = [] \/ exists c r, lstrip s = c :: r /\ isspace c = false.
Proof.
  induction s as [|x s IH]; simpl; [now left |].
  destruct (isspace x) eqn:E; [exact IH |]. right. eauto.
Qed.

Lemma lstrip_idem (s : str) : lstrip (lstrip s) = lstrip s.
Proof.
  destruct (lstrip_head s) as [->|(c & r & -> & Hc)]; [reflexivity |].
  simpl. now rewrite Hc.
Qed.

Lemma rstrip_idem (s : str) : rstrip (rstrip s) = rstrip s.
Proof. unfold rstrip. now rewrite rev_involutive, lstrip_idem. Qed.

Lemma strip_idem (s : str) : strip (strip s) = strip s.
Proof.
  unfold strip.
  destruct (lstrip_head s) as [->|(c & r & -> & Hc)]; [reflexivity |].
  rewrite (rstrip_cons_nonspace _ _ Hc). simpl. rewrite Hc.
  now rewrite (rstrip_cons_nonspace _ _ Hc), rstrip_idem.
Qed.

End Strip.

Module SingleFacts.
Import Single SingleSpec.

Section Invariant.

Context {U : UnicodeTables} (cfg : Single.Config).

#[local] Abbreviation kept := (SingleSpec.kept cfg).
#[local] Abbreviation well_formed := (SingleSpec.well_formed cfg).
#[local] Abbreviation Inv := (SingleSpec.Inv cfg).

Lemma kept_strip (t : str) : kept t -> kept (strip t).
Proof.
  unfold SingleSpec.kept, should_skip_segment. now rewrite strip_idem.
Qed.

Lemma segment_by_punctuation_keep t marks mx mn fb segs inc keep :
  segment_by_punctuation t marks mx mn fb = Ok (segs, inc, keep) ->
  keep = false.
Proof.
  unfold segment_by_punctuation. destruct (negb (truthy t)); [congruence |].
  destruct (segment_loop t mx marks). congruence.
Qed.

Lemma on_session_ended_inv st mref :
  Inv st ->
  Inv (fst (on_session_ended st mref))
  /\ Forall well_formed (snd (on_session_ended st mref)).
Proof.
  intros [Hq Hb]. unfold on_session_ended.
  set (q1 := if truthy (strip (text_buffer st))
             then segment_queue st ++ [(strip (text_buffer st), length (heap st))]
             else segment_queue st).
  set (buf1 := if truthy (strip (text_buffer st)) then [] else text_buffer st).
  assert (Hq1 : Forall (fun seg => kept (fst seg)) q1).
  { unfold q1. destruct (truthy (strip (text_buffer st))) eqn:E; [| exact Hq].
    apply Forall_app. split; [exact Hq |]. constructor; [| constructor].
    simpl. destruct Hb as [Hb|Hb]; [rewrite Hb in E; discriminate |].
    now apply kept_strip. }
  assert (Hb1 : buf1 = [] \/ kept buf1).
  { unfold buf1. destruct (truthy (strip (text_buffer st))); auto. }
  replace (if truthy (strip (text_buffer st))
           then (segment_queue st ++ [(strip (text_buffer st), length (heap st))],
                 heap st ++ [mark_ended (deref (heap st) mref)], [])
           else (segment_queue st, heap st, text_buffer st))
    with (q1, (if truthy (strip (text_buffer st))
               then heap st ++ [mark_ended (deref (heap st) mref)]
               else heap st), buf1)
    by (unfold q1, buf1; now destruct (truthy (strip (text_buffer st)))).
  cbv beta iota.
  destruct (is_sending st), q1 as [|seg q2]; simpl.
  - split; [constructor; simpl; [constructor | exact Hb1] | constructor].
  - split; [constructor; simpl; [exact Hq1 | exact Hb1] | constructor].
  - split; [constructor; simpl; [constructor | exact Hb1] | constructor].
  - apply Forall_cons in Hq1 as [Hs Hq2].
    split; [constructor; simpl; [exact Hq2 | exact Hb1] |].
    constructor; [| constructor]. left. exact Hs.
Qed.

Lemma on_text_inv st t mref :
  Inv st ->
  match on_text cfg st t mref with
  | Done _ st' out => Inv st' /\ Forall well_formed out
  | Crash _ out => Forall well_formed out
  end.
Proof.
  intros [Hq Hb]. unfold on_text.
  destruct (segment_by_punctuation _ _ _ _ _) as [[[segs inc] keep]|e] eqn:E;
    [| constructor].
  apply segment_by_punctuation_keep in E. subst keep.
  set (buf := if truthy inc then
                if negb false && should_skip_segment inc (punctuation_marks cfg)
                then [] else inc
              else []).
  assert (Hbuf : buf = [] \/ kept buf).
  { unfold buf. destruct (truthy inc); [| now left]. simpl.
    destruct (should_skip_segment inc _) eqn:Es; [now left | now right]. }
  set (q := segment_queue st ++ _).
  assert (Hq' : Forall (fun seg => kept (fst seg)) q).
  { unfold q. apply Forall_app. split; [exact Hq |].
    apply Forall_forall. intros seg Hseg.
    apply list_elem_of_In, in_map_iff in Hseg as (s & <- & Hs).
    apply filter_In in Hs as [_ Hs]. simpl. now apply negb_true_iff. }
  destruct (is_sending st), q as [|seg q']; simpl.
  - split; [constructor; simpl; [constructor | exact Hbuf] | constructor].
  - split; [constructor; simpl; [exact Hq' | exact Hbuf] | constructor].
  - split; [constructor; simpl; [constructor | exact Hbuf] | constructor].
  - apply Forall_cons in Hq' as [Hs Hq2].
    split; [constructor; simpl; [exact Hq2 | exact Hbuf] |].
    constructor; [| constructor]. left. exact Hs.
Qed.

Lemma handle_inv st id value metadata :
  Inv st ->
  match handle cfg st id value metadata with
  | Done _ st' out => Inv st' /\ Forall well_formed out
  | Crash _ out => Forall well_formed out
  end.
Proof.
  intros HI. unfold handle.
  destruct (String.eqb id "text").
  { destruct value as [t|]; [| constructor].
    set (st0 := mk_state _ (heap st ++ [metadata]) _ _ _ _ _).
    assert (HI0 : Inv st0) by (destruct HI; constructor; auto).
    destruct (option_eqb String.eqb _ _); [| now apply on_text_inv].
    pose proof (on_session_ended_inv st0 (length (heap st)) HI0) as [H1 H2].
    destruct (on_session_ended st0 (length (heap st))) as [st1 out1].
    simpl in H1, H2.
    destruct (negb (truthy (strip t))); [auto |].
    pose proof (on_text_inv st1 t (length (heap st)) H1) as H3.
    destruct (on_text cfg st1 t (length (heap st))) as [[] st2 out2|e out2].
    - destruct H3. split; [assumption | now apply Forall_app].
    - now apply Forall_app. }
  destruct (String.eqb id "tts_complete").
  { destruct HI as [Hq Hb].
    destruct (segment_queue st) as [|seg q] eqn:E.
    - destruct (pending_session_end st); (split; [constructor; simpl; auto |]).
      + constructor; [| constructor]. right. simpl. auto.
      + constructor.
    - apply Forall_cons in Hq as [Hs Hq].
      split; [constructor; simpl; auto |].
      constructor; [| constructor]. left. exact Hs. }
  assert (Hclear : Inv (clear_all st)) by (constructor; simpl; auto).
  assert (Hsmart : forall q, Inv (smart_reset st q)).
  { intros q. destruct HI as [Hq Hb]. constructor; simpl.
    - apply Forall_forall. intros x Hx.
      apply list_elem_of_In, filter_In in Hx as [Hx _].
      rewrite Forall_forall in Hq. apply Hq. now apply list_elem_of_In.
    - destruct (negb _); auto. }
  destruct (String.eqb id "control").
  { destruct value as [command|]; [| constructor].
    destruct (str_eqb command (lit "reset")); split; auto; constructor. }
  destruct (String.eqb id "reset"); [| split; [auto | constructor]].
  destruct (option_eqb str_eqb value _); [split; [auto | constructor] |].
  destruct (question_id metadata); split; auto; constructor.
Qed.

Lemma run_inv evs st :
  Inv st -> Forall well_formed (outputs (run cfg st evs)).
Proof.
  revert st. induction evs as [|[id value metadata|] evs IH]; intros st HI;
    simpl; try constructor.
  pose proof (handle_inv st id value metadata HI) as H.
  destruct (handle cfg st id value metadata) as [[] st1 out1|e out1];
    [| exact H].
  destruct H as [HI1 H1]. specialize (IH st1 HI1).
  destruct (run cfg st1 evs) as [[] st2 out2|e out2]; simpl in *;
    now apply Forall_app.
Qed.

Lemma single_Inv_init : Inv init.
Proof. constructor; simpl; auto. Qed.

End Invariant.

End SingleFacts.

(** C7 (as the code has it): in conference mode every text sent on a
    [text_segment_<participant>] port passes the conference filter: its
    stripped form is non-empty and it does not consist of configured
    punctuation marks and white space only (digits are not filtered).  In
    single mode every text sent on [text_segment] passes the single-mode
    filter (stripped form non-empty, not only white space, digits and
    configured punctuation marks) or is the empty text with
    session_status "ended" that stands for a pending end of session.
    This holds for the values sent before an exception too.  Passthrough
    mode sends every text it receives, as it is. *)
Theorem C7_emitted_segments_well_formed :
  (forall (cfg : Multi.Config) (evs : list Multi.Event),
     Forall (fun e => Multi.should_skip_segment (Multi.payload e)
                        (Multi.punctuation_marks cfg) = false)
            (outputs (Multi.run cfg evs Multi.init)))
  /\ (forall (U : UnicodeTables) (cfg : Single.Config) (evs : list Single.Event),
     Forall (fun e =>
               Single.should_skip_segment (Single.payload e)
                 (Single.punctuation_marks cfg) = false
               \/ (Single.payload e = []
                   /\ Single.session_status (Single.out_metadata e)
                      = Some "ended"%string))
            (outputs (Single.run cfg Single.init evs)))
  /\ (forall (i : Z) (t : str),
     Passthrough.handle i "text" t
     = ((i + 1)%Z,
        [Passthrough.mk_emission "text_segment" t i;
         Passthrough.mk_emission "status" (lit "segment_sent") i])).
Proof.
  split; [| split; [| reflexivity]].
  - intros cfg evs.
    pose proof (MultiFacts.run_init_safe cfg (fun _ => True) evs) as H.
    unfold MultiSpec.safe in H.
    destruct (Multi.run cfg evs Multi.init); simpl; apply H; auto.
  - intros U cfg evs.
    apply (SingleFacts.run_inv cfg evs Single.init), SingleFacts.single_Inv_init.
Qed.

(** ** Conference mode: election *)

Section Election.
Import Multi.

Lemma Qltb_true a b : Qltb a b = true -> (a < b)%Q.
Proof.
  unfold Qltb. intros H. apply negb_true_iff in H.
  apply Qnot_le_lt. intros Hle. apply Qle_bool_iff in Hle. congruence.
Qed.

Lemma Qltb_false a b : Qltb a b = false -> (b <= a)%Q.
Proof.
  unfold Qltb. intros H. apply negb_false_iff in H. now apply Qle_bool_iff.
Qed.

Lemma insert_by_ts_head x l :
  head (insert_by_ts x l)
  = match head l with
    | None => Some x
    | Some h => if Qltb (snd h) (snd x) then Some h else Some x
    end.
Proof. destruct l as [|y l]; simpl; [| destruct (Qltb _ _)]; reflexivity. Qed.

Lemma sort_by_ts_head l : head (sort_by_ts l) = first_min l.
Proof.
  induction l as [|x l IH]; simpl; [reflexivity |].
  now rewrite insert_by_ts_head, IH.
Qed.

Lemma select_first_min names ts qs cs :
  candidates names ts qs = Ok cs ->
  select_oldest_session_queue names ts qs = Ok (fst <$> first_min cs).
Proof.
  intros H. unfold select_oldest_session_queue. rewrite H.
  rewrite <- sort_by_ts_head. now destruct (sort_by_ts cs).
Qed.

(** With every participant present in both dictionaries the loop
    does not raise, and it lists the candidates in the order of
    [participant_names]. *)
Lemma candidates_total names ts qs :
  (forall p, p ∈ names -> is_Some (ts !! p) /\ is_Some (qs !! p)) ->
  candidates names ts qs
  = Ok (flat_map (fun p => match candidate_ts ts qs p with
                           | Some t => [(p, t)]
                           | None => []
                           end) names).
Proof.
  induction names as [|p names IH]; intros Hwf; simpl; [reflexivity |].
  destruct (Hwf p) as [[sess Hs] [q Hq]]; [left |].
  rewrite IH by (intros p0 Hp0; apply Hwf; now right).
  unfold candidate_ts. rewrite Hs, Hq.
  destruct sess as [|oldest sess]; [reflexivity |].
  destruct q; reflexivity.
Qed.

Lemma first_min_spec ts qs names :
  match first_min (flat_map (fun p => match candidate_ts ts qs p with
                                      | Some t => [(p, t)]
                                      | None => []
                                      end) names) with
  | None => forall q, q ∈ names -> candidate_ts ts qs q = None
  | Some (p, t) =>
      exists before after,
        names = before ++ p :: after
        /\ candidate_ts ts qs p = Some t
        /\ (forall q tq, q ∈ before -> candidate_ts ts qs q = Some tq ->
                         (t < tq)%Q)
        /\ (forall q tq, q ∈ after -> candidate_ts ts qs q = Some tq ->
                         (t <= tq)%Q)
  end.
Proof.
  induction names as [|x names IH]; simpl.
  - intros q Hq. inversion Hq.
  - destruct (candidate_ts ts qs x) as [tx|] eqn:Ex; simpl.
    + destruct (first_min _) as [[p t]|].
      * destruct IH as (before & after & -> & Hp & Hb & Ha). simpl.
        destruct (Qltb t tx) eqn:E.
        -- apply Qltb_true in E. exists (x :: before), after.
           repeat split; auto.
           intros q tq Hq Hc. apply elem_of_cons in Hq as [->|Hq]; [| eauto].
           rewrite Ex in Hc. now injection Hc as <-.
        -- apply Qltb_false in E. exists [], (before ++ p :: after).
           repeat split; auto.
           ++ intros q tq Hq. inversion Hq.
           ++ intros q tq Hq Hc. apply Qle_trans with t; [exact E |].
              apply elem_of_app in Hq as [Hq|Hq];
                [apply Qlt_le_weak; eauto |].
              apply elem_of_cons in Hq as [->|Hq]; [| eauto].
              rewrite Hp in Hc. injection Hc as <-. apply Qle_refl.
      * exists [], names. repeat split; auto.
        -- intros q tq Hq. inversion Hq.
        -- intros q tq Hq Hc. rewrite (IH q Hq) in Hc. discriminate.
    + destruct (first_min _) as [[p t]|].
      * destruct IH as (before & after & -> & Hp & Hb & Ha).
        exists (x :: before), after. repeat split; auto.
        intros q tq Hq Hc. apply elem_of_cons in Hq as [->|Hq]; [| eauto].
        rewrite Ex in Hc. discriminate.
      * intros q Hq. apply elem_of_cons in Hq as [->|Hq]; auto.
Qed.

End Election.

(** C3 (as the code has it): when every participant is present in the
    dictionaries, the election returns a participant or nothing.  It
    returns nothing exactly when no participant has both a session marker
    and a queued segment.  Otherwise the chosen participant is such a
    candidate, its oldest timestamp is at most that of every other
    candidate, and every candidate that comes before it in
    [participant_names] (was discovered earlier) has a strictly greater
    oldest timestamp: ties go to the participant discovered first, not
    to the smaller name. *)
Theorem C3_election_oldest_first_discovered
    (names : list string) (ts : gmap string (list Multi.Marker))
    (qs : gmap string (list Multi.Segment)) :
  (forall p, p ∈ names -> is_Some (ts !! p) /\ is_Some (qs !! p)) ->
  match Multi.select_oldest_session_queue names ts qs with
  | Ok None => forall q, q ∈ names -> candidate_ts ts qs q = None
  | Ok (Some p) =>
      exists before after t,
        names = before ++ p :: after
        /\ candidate_ts ts qs p = Some t
        /\ (forall q tq, q ∈ before -> candidate_ts ts qs q = Some tq ->
                         (t < tq)%Q)
        /\ (forall q tq, q ∈ after -> candidate_ts ts qs q = Some tq ->
                         (t <= tq)%Q)
  | Raise _ => False
  end.
Proof.
  intros Hwf.
  rewrite (select_first_min _ _ _ _ (candidates_total names ts qs Hwf)).
  pose proof (first_min_spec ts qs names) as H.
  destruct (first_min _) as [[p t]|]; simpl; [| exact H].
  destruct H as (before & after & H). exists before, after, t. exact H.
Qed.

Lemma C3_election_oldest_first_discovered_witness :
  match Multi.select_oldest_session_queue ["pB"; "pA"]%string
          tie_timestamps tie_queues with
  | Ok None => forall q, q ∈ ["pB"; "pA"]%string ->
                         candidate_ts tie_timestamps tie_queues q = None
  | Ok (Some p) =>
      exists before after t,
        ["pB"; "pA"]%string = before ++ p :: after
        /\ candidate_ts tie_timestamps tie_queues p = Some t
        /\ (forall q tq, q ∈ before ->
              candidate_ts tie_timestamps tie_queues q = Some tq -> (t < tq)%Q)
        /\ (forall q tq, q ∈ after ->
              candidate_ts tie_timestamps tie_queues q = Some tq -> (t <= tq)%Q)
  | Raise _ => False
  end.
Proof.
  apply (C3_election_oldest_first_discovered ["pB"; "pA"]%string
           tie_timestamps tie_queues).
  intros p Hp.
  apply elem_of_cons in Hp as [->|Hp];
    [| apply list_elem_of_singleton in Hp as ->];
    split; vm_compute; eauto.
Defined.

(** ** Conference mode: sessions without segments *)

Section EmptySessions.
Import Multi.

Lemma append_inj_l (s a b : string) :
  String.append s a = String.append s b -> a = b.
Proof.
  induction s as [|c s IH]; simpl; [auto |]. intros H. injection H. auto.
Qed.

Lemma output_port_inj (a b : string) : output_port a = output_port b -> a = b.
Proof. apply append_inj_l. Qed.

Lemma kick_start_sending_nonempty p segment q' st :
  segment_queues st !! p = Some (segment :: q') ->
  kick_start_sending p st
  = Done tt (set_is_sending <[p := true]>
               (set_segment_queues <[p := q']>
                  (set_is_sending <[p := false]> st)))
         [emission_of p segment].
Proof.
  intros H. unfold kick_start_sending, bind, read. rewrite H. reflexivity.
Qed.

(** Activation on a state in which every participant is present in the
    dictionaries: it returns, pops no session marker, and leaves an
    empty queue empty without sending anything on its port. *)
Lemma try_activate_queue_spec st :
  (forall p, p ∈ participant_names st ->
     is_Some (session_timestamps st !! p) /\ is_Some (segment_queues st !! p)) ->
  exists st' out,
    try_activate_queue st = Done tt st' out
    /\ session_timestamps st' = session_timestamps st
    /\ forall p, segment_queues st !! p = Some [] ->
         segment_queues st' !! p = Some []
         /\ Forall (fun e => port e <> output_port p) out.
Proof.
  intros Hwf. unfold try_activate_queue, bind, get.
  destruct (active_queue st) as [a|]; [exists st, []; simpl; auto |].
  rewrite (select_first_min _ _ _ _ (candidates_total _ _ _ Hwf)).
  pose proof (first_min_spec (session_timestamps st) (segment_queues st)
                (participant_names st)) as H.
  destruct (first_min _) as [[next t]|]; simpl;
    [| exists st, []; simpl; auto].
  destruct H as (_ & _ & _ & Hc & _).
  destruct (truthy_name next); [| exists st, []; simpl; auto].
  unfold candidate_ts in Hc.
  destruct (session_timestamps st !! next) as [[|oldest sess]|];
    try discriminate.
  destruct (segment_queues st !! next) as [[|segment q']|] eqn:Eq;
    try discriminate.
  unfold bind, modify.
  rewrite (kick_start_sending_nonempty next segment q') by exact Eq.
  eexists _, _. split; [reflexivity |]. split; [reflexivity |].
  intros p Hp. simpl.
  assert (Hne : next <> p) by (intros ->; congruence).
  split.
  - now rewrite lookup_insert_ne.
  - constructor; [| constructor]. simpl. intros Heq.
    apply output_port_inj in Heq. congruence.
Qed.

End EmptySessions.

(** The step behind the runs above, in general: in a state where every
    participant is present in the dictionaries, the SESSION_END of a
    participant with a current session, a blank tail buffer and an empty
    queue is handled without error, pops no session marker of any
    participant, leaves the queue of the participant empty and sends
    nothing on its port. *)
Lemma empty_session_end_step
    (cfg : Multi.Config) (st : Multi.State) (ev : Multi.Event)
    (sid : string) (buf : str) :
  (forall p, p ∈ Multi.participant_names st ->
     is_Some (Multi.session_timestamps st !! p)
     /\ is_Some (Multi.segment_queues st !! p)) ->
  Multi.is_participant_port (Multi.ev_id ev) = true ->
  Multi.md_session_status ev = Some "ended"%string ->
  Multi.ev_id ev ∈ Multi.participant_names st ->
  Multi.current_session st !! Multi.ev_id ev = Some (Some sid) ->
  Multi.text_buffers st !! Multi.ev_id ev = Some buf ->
  strip buf = [] ->
  Multi.segment_queues st !! Multi.ev_id ev = Some [] ->
  exists st' out,
    Multi.handle cfg ev st = Done tt st' out
    /\ Multi.session_timestamps st' = Multi.session_timestamps st
    /\ Multi.segment_queues st' !! Multi.ev_id ev = Some []
    /\ Forall (fun e => Multi.port e <> Multi.output_port (Multi.ev_id ev)) out.
Proof.
  intros Hwf Hport Hstatus Hin Hcs Hbuf Hstrip Hq.
  destruct (Hwf _ Hin) as [[sess Hsess] _].
  unfold Multi.handle. rewrite Hport.
  unfold Multi.on_participant_text, Multi.ensure_participant_initialized.
  rewrite Hstatus.
  unfold Multi.bind at 1. unfold Multi.bind at 1. unfold Multi.get at 1.
  rewrite bool_decide_eq_true_2 by exact Hin. unfold Multi.ret at 1.
  change (String.eqb (Multi.detect_session_event (Some "ended"%string))
            "SESSION_START") with false.
  change (String.eqb (Multi.detect_session_event (Some "ended"%string))
            "SESSION_CHUNK") with false.
  cbv iota. unfold Multi.on_session_end, Multi.bind, Multi.read.
  rewrite Hcs, Hsess, Hbuf, Hstrip. simpl. rewrite Hq. simpl.
  set (st1 := Multi.set_current_session _ st).
  destruct (try_activate_queue_spec st1) as (st' & out & Hrun & Hts & Hp).
  { intros p Hp. apply (Hwf p Hp). }
  rewrite Hrun. exists st', out.
  destruct (Hp _ Hq) as [Hq' Hout]. auto.
Qed.

(** ** Conference mode: resets *)

Section Resets.
Import Multi MultiSpec MultiFacts.

Lemma lookup_reset_keys {V : Type} (v : V) names (d : gmap string V) k :
  reset_keys v names d !! k
  = if bool_decide (k ∈ names) then Some v else d !! k.
Proof.
  unfold reset_keys. revert d. induction names as [|p names IH]; intros d;
    simpl; [reflexivity |].
  rewrite IH. destruct (decide (k = p)) as [->|Hne].
  - rewrite (bool_decide_eq_true_2 (p ∈ p :: names)) by left.
    case_bool_decide; [reflexivity | apply lookup_insert_eq].
  - rewrite lookup_insert_ne by congruence.
    case_bool_decide as H1; case_bool_decide as H2; try reflexivity.
    + exfalso. apply H2. now right.
    + exfalso. apply elem_of_cons in H2 as [?|?]; auto.
Qed.

Lemma reset_keys_agree {V : Type} (v : V) names (d d' : gmap string V) :
  (forall k, k ∉ names -> d !! k = d' !! k) ->
  reset_keys v names d = reset_keys v names d'.
Proof.
  intros H. apply map_eq. intros k. rewrite !lookup_reset_keys.
  case_bool_decide; auto.
Qed.

Lemma reset_keys_idem {V : Type} (v : V) names (d : gmap string V) :
  reset_keys v names (reset_keys v names d) = reset_keys v names d.
Proof.
  apply map_eq. intros k. rewrite !lookup_reset_keys.
  case_bool_decide; reflexivity.
Qed.

Lemma global_reset_loop names st :
  (forall p, p ∈ names ->
     is_Some (segment_queues st !! p) /\ is_Some (session_timestamps st !! p)) ->
  for_each names (fun participant =>
    let* _ := read segment_queues participant in
    modify (set_segment_queues <[participant := []]>) ;;;
    modify (set_text_buffers <[participant := []]>) ;;;
    let* _ := read session_timestamps participant in
    modify (set_session_timestamps <[participant := []]>) ;;;
    modify (set_current_session <[participant := None]>) ;;;
    modify (set_is_sending <[participant := false]>) ;;;
    modify (set_last_session_end_sent <[participant := false]>)) st
  = Done tt (foldl clear_participant st names) [].
Proof.
  revert st. induction names as [|p names IH]; intros st Hwf; [reflexivity |].
  destruct (Hwf p) as [[q Hq] [ts Hts]]; [left |].
  cbn [for_each foldl]. unfold bind at 1.
  assert (Hbody :
    (let* _ := read segment_queues p in
     modify (set_segment_queues <[p := []]>) ;;;
     modify (set_text_buffers <[p := []]>) ;;;
     let* _ := read session_timestamps p in
     modify (set_session_timestamps <[p := []]>) ;;;
     modify (set_current_session <[p := None]>) ;;;
     modify (set_is_sending <[p := false]>) ;;;
     modify (set_last_session_end_sent <[p := false]>)) st
    = Done tt (clear_participant st p) []).
  { unfold bind, read, modify. rewrite Hq. simpl. rewrite Hts. reflexivity. }
  rewrite Hbody, IH; [reflexivity |].
  intros p0 Hp0. destruct (Hwf p0) as [H1 H2]; [now right |].
  simpl. rewrite !lookup_insert_is_Some'. auto.
Qed.

Lemma foldl_clear_participant names st :
  foldl clear_participant st names
  = mk_state (participant_names st)
      (reset_keys [] names (segment_queues st))
      (reset_keys [] names (text_buffers st))
      (reset_keys [] names (session_timestamps st))
      (reset_keys None names (current_session st))
      (reset_keys false names (is_sending st))
      (reset_keys false names (last_session_end_sent st))
      (active_queue st) (buffer_control_paused st) (audio_buffer_level st).
Proof.
  revert st. induction names as [|p names IH]; intros st; simpl.
  - now destruct st.
  - rewrite IH. reflexivity.
Qed.

Lemma global_reset_cleared st :
  (forall p, p ∈ participant_names st ->
     is_Some (segment_queues st !! p) /\ is_Some (session_timestamps st !! p)) ->
  global_reset st = Done tt (cleared st) [].
Proof.
  intros Hwf. unfold global_reset. unfold bind at 1. unfold get at 1.
  unfold bind at 1. rewrite (global_reset_loop _ _ Hwf).
  rewrite foldl_clear_participant. reflexivity.
Qed.

Lemma filter_idem {A : Type} (f : A -> bool) (l : list A) :
  List.filter f (List.filter f l) = List.filter f l.
Proof.
  induction l as [|x l IH]; simpl; [reflexivity |].
  destruct (f x) eqn:E; simpl; [rewrite E, IH |]; auto.
Qed.

Lemma smart_reset_loop c names st :
  (forall p, p ∈ names -> is_Some (segment_queues st !! p)) ->
  for_each names (smart_body c) st
  = Done tt (foldl (smart_step c) st names) [].
Proof.
  revert st. induction names as [|p names IH]; intros st Hwf; [reflexivity |].
  destruct (Hwf p) as [q Hq]; [left |].
  cbn [for_each foldl]. unfold bind at 1.
  assert (Hbody : smart_body c p st = Done tt (smart_step c st p) []).
  { unfold smart_body, bind, read, modify, smart_step. rewrite Hq. simpl.
    destruct (0 <? _)%nat; reflexivity. }
  rewrite Hbody, IH; [reflexivity |].
  intros p0 Hp0. unfold smart_step. rewrite Hq.
  destruct (0 <? _)%nat; simpl; rewrite lookup_insert_is_Some';
    right; apply Hwf; now right.
Qed.

Lemma smart_rel_start c st : smart_rel c st st [].
Proof.
  constructor; auto. intros k q Hk. inversion Hk.
Qed.

Lemma smart_rel_step c st s done p :
  smart_rel c st s done -> is_Some (segment_queues st !! p) ->
  smart_rel c st (smart_step c s p) (p :: done).
Proof.
  intros [H1 H2 H3 H4 H5 H6 H7 H8 H9] [q Hq].
  assert (Hs : segment_queues s !! p = Some q
               \/ (p ∈ done
                   /\ segment_queues s !! p = Some (List.filter (keeps c) q))).
  { destruct (decide (p ∈ done)) as [Hin|Hnin].
    - right. split; [exact Hin |]. now apply H9.
    - left. destruct (H8 p Hnin) as [-> _]. exact Hq. }
  unfold smart_step.
  destruct Hs as [Hs|[Hin Hs]]; rewrite Hs.
  - (* first visit of p, or nothing was filtered before *)
    destruct (0 <? _)%nat eqn:E; constructor; simpl; auto.
    + intros k Hk. apply not_elem_of_cons in Hk as [Hne Hk].
      rewrite !lookup_insert_ne by congruence. auto.
    + intros k q0 Hk Hq0. destruct (decide (k = p)) as [->|Hne].
      * rewrite Hq in Hq0. injection Hq0 as <-.
        rewrite !lookup_insert_eq. auto.
      * rewrite !lookup_insert_ne by congruence.
        apply elem_of_cons in Hk as [?|Hk]; [congruence | auto].
    + intros k Hk. apply not_elem_of_cons in Hk as [Hne Hk].
      rewrite !lookup_insert_ne by congruence. auto.
    + intros k q0 Hk Hq0. destruct (decide (k = p)) as [->|Hne].
      * rewrite Hq in Hq0. injection Hq0 as <-.
        rewrite lookup_insert_eq. split; [reflexivity |].
        intros Hlt. apply Nat.ltb_ge in E. lia.
      * rewrite !lookup_insert_ne by congruence.
        apply elem_of_cons in Hk as [?|Hk]; [congruence | auto].
  - (* p was handled before: filtering again changes nothing *)
    rewrite filter_idem, Nat.sub_diag. simpl.
    constructor; simpl; auto.
    + intros k Hk. apply not_elem_of_cons in Hk as [Hne Hk].
      rewrite !lookup_insert_ne by congruence. auto.
    + intros k q0 Hk Hq0. destruct (decide (k = p)) as [->|Hne].
      * rewrite Hq in Hq0. injection Hq0 as <-.
        rewrite lookup_insert_eq. split; [reflexivity |].
        apply (H9 p q Hin Hq).
      * rewrite !lookup_insert_ne by congruence.
        apply elem_of_cons in Hk as [?|Hk]; [congruence | auto].
Qed.

Lemma smart_rel_foldl c st names s done :
  smart_rel c st s done ->
  (forall p, p ∈ names -> is_Some (segment_queues st !! p)) ->
  exists done', smart_rel c st (foldl (smart_step c) s names) done'
                /\ forall k, k ∈ done' <-> k ∈ names \/ k ∈ done.
Proof.
  revert s done. induction names as [|p names IH]; intros s done Hrel Hwf.
  - exists done. split; [exact Hrel |]. intros k. split; [auto |].
    intros [H|H]; [inversion H | exact H].
  - simpl. destruct (IH (smart_step c s p) (p :: done)) as (done' & Hr & Hd).
    + apply smart_rel_step; [exact Hrel | apply Hwf; left].
    + intros p0 Hp0. apply Hwf. now right.
    + exists done'. split; [exact Hr |]. intros k. rewrite Hd.
      rewrite !elem_of_cons. tauto.
Qed.

(** The smart reset on a state where every participant has a queue. *)
Lemma smart_reset_spec c st :
  (forall p, p ∈ participant_names st -> is_Some (segment_queues st !! p)) ->
  exists s done,
    smart_reset c st
    = Done tt (set_audio_buffer_level 0%Q
                 (set_buffer_control_paused false (set_active_queue None s))) []
    /\ smart_rel c st s done
    /\ forall k, k ∈ done <-> k ∈ participant_names st.
Proof.
  intros Hwf. unfold smart_reset. unfold bind at 1. unfold get at 1.
  unfold bind at 1.
  change (for_each (participant_names st) _ st)
    with (for_each (participant_names st) (smart_body c) st).
  rewrite (smart_reset_loop _ _ _ Hwf).
  destruct (smart_rel_foldl c st (participant_names st) st []
              (smart_rel_start c st) Hwf) as (done & Hrel & Hd).
  eexists _, done. split; [reflexivity |]. split; [exact Hrel |].
  intros k. rewrite Hd. split; [intros [H|H]; [exact H | inversion H] | auto].
Qed.

End Resets.

Section ResetEvents.
Import Multi MultiSpec MultiFacts.

Lemma handle_reset_command cfg ev st :
  is_reset_command ev = true ->
  handle cfg ev st
  = match md_question_id ev with
    | None => global_reset st
    | Some q => smart_reset q st
    end.
Proof.
  unfold is_reset_command. intros H. apply andb_prop in H as [Hid Hcmd].
  assert (Hports :
    is_participant_port (ev_id ev) = false
    /\ String.eqb (ev_id ev) "audio_complete" = false
    /\ String.eqb (ev_id ev) "audio_buffer_control" = false
    /\ String.eqb (ev_id ev) "control" || String.eqb (ev_id ev) "reset" = true).
  { apply orb_prop in Hid as [Hid|Hid]; apply String.eqb_eq in Hid;
      rewrite Hid; vm_compute; auto. }
  destruct Hports as (H1 & H2 & H3 & H4).
  unfold handle, on_control. rewrite H1, H2, H3, H4, Hcmd.
  destruct (md_question_id ev); reflexivity.
Qed.

Lemma run_one cfg ev st :
  run cfg [ev] st = bind (handle cfg ev) (fun _ => ret tt) st.
Proof. reflexivity. Qed.

Lemma run_two cfg ev1 ev2 st st1 :
  handle cfg ev1 st = Done tt st1 [] ->
  run cfg [ev1; ev2] st = run cfg [ev2] st1.
Proof.
  intros H. unfold run. cbn [for_each]. unfold bind at 1. rewrite H.
  destruct (bind _ _ st1); reflexivity.
Qed.

Lemma run_global_reset cfg ev st :
  is_global_reset ev = true ->
  (forall p, p ∈ participant_names st ->
     is_Some (segment_queues st !! p) /\ is_Some (session_timestamps st !! p)) ->
  handle cfg ev st = Done tt (cleared st) []
  /\ run cfg [ev] st = Done tt (cleared st) [].
Proof.
  unfold is_global_reset. intros H Hwf. apply andb_prop in H as [Hc Hq].
  assert (Hh : handle cfg ev st = Done tt (cleared st) []).
  { rewrite (handle_reset_command _ _ _ Hc).
    destruct (md_question_id ev); [discriminate |].
    now apply global_reset_cleared. }
  split; [exact Hh |]. rewrite run_one. unfold bind. now rewrite Hh.
Qed.

Lemma cleared_wf st p :
  p ∈ participant_names (cleared st) ->
  is_Some (segment_queues (cleared st) !! p)
  /\ is_Some (session_timestamps (cleared st) !! p).
Proof.
  simpl. intros Hp. rewrite !lookup_reset_keys.
  rewrite !bool_decide_eq_true_2 by exact Hp. eauto.
Qed.

Lemma cleared_idem st : cleared (cleared st) = cleared st.
Proof. unfold cleared. simpl. now rewrite !reset_keys_idem. Qed.

Lemma cleared_after_smart c st s done :
  smart_rel c st s done ->
  (forall k, k ∈ done <-> k ∈ participant_names st) ->
  cleared (set_audio_buffer_level 0%Q
             (set_buffer_control_paused false (set_active_queue None s)))
  = cleared st.
Proof.
  intros [H1 H2 H3 H4 H5 H6 H7 H8 H9] Hd. unfold cleared. simpl.
  rewrite H1, H2, H3, H4.
  assert (Ho : forall k, k ∉ participant_names st ->
            segment_queues s !! k = segment_queues st !! k
            /\ text_buffers s !! k = text_buffers st !! k
            /\ is_sending s !! k = is_sending st !! k).
  { intros k Hk. apply H8. intros Hin. apply Hk. now apply Hd. }
  f_equal; apply reset_keys_agree; intros k Hk; now apply Ho.
Qed.

End ResetEvents.




(** C9: in every state reached by a run of the conference segmenter, a
    global reset (a reset or cancel command without question id) leads
    to the cleared state; a second global reset right after it leads to
    the same state; and a selective reset with any question id followed
    by a global reset leads to that state too. *)
Theorem C9_reset_idempotence
    (cfg : Multi.Config) (evs : list Multi.Event) (st : Multi.State)
    (out : list Multi.Emission) (g1 g2 s : Multi.Event) (c : Z) :
  Multi.run cfg evs Multi.init = Done tt st out ->
  is_global_reset g1 = true ->
  is_global_reset g2 = true ->
  is_selective_reset s c = true ->
  Multi.run cfg [g1] st = Done tt (cleared st) []
  /\ Multi.run cfg [g1; g2] st = Done tt (cleared st) []
  /\ Multi.run cfg [g2] st = Done tt (cleared st) []
  /\ Multi.run cfg [s; g2] st = Done tt (cleared st) [].
Proof.
  intros Hrun Hg1 Hg2 Hs.
  apply MultiFacts.reachable_inv in Hrun.
  assert (Hwf : forall p, p ∈ Multi.participant_names st ->
            is_Some (Multi.segment_queues st !! p)
            /\ is_Some (Multi.session_timestamps st !! p)).
  { intros p Hp.
    destruct (MultiSpec.inv_keys _ _ _ _ Hrun p Hp) as (? & ? & ? & ? & ?).
    auto. }
  destruct (run_global_reset cfg g1 st Hg1 Hwf) as [Hh1 Hr1].
  destruct (run_global_reset cfg g2 st Hg2 Hwf) as [Hh2 Hr2].
  split; [exact Hr1 |]. split; [| split; [exact Hr2 |]].
  - rewrite (run_two _ _ _ _ _ Hh1).
    destruct (run_global_reset cfg g2 (cleared st) Hg2 (cleared_wf st))
      as [_ ->].
    now rewrite cleared_idem.
  - unfold is_selective_reset in Hs. apply andb_prop in Hs as [Hc Hq].
    destruct (Multi.md_question_id s) as [q0|] eqn:Eq; [| discriminate].
    destruct (smart_reset_spec q0 st) as (s' & done & Hsm & Hrel & Hd).
    { intros p Hp. now apply Hwf. }
    assert (Hhs : Multi.handle cfg s st
                  = Done tt (Multi.set_audio_buffer_level 0%Q
                               (Multi.set_buffer_control_paused false
                                  (Multi.set_active_queue None s'))) []).
    { rewrite (handle_reset_command _ _ _ Hc), Eq. exact Hsm. }
    rewrite (run_two _ _ _ _ _ Hhs).
    destruct (run_global_reset cfg g2
                (Multi.set_audio_buffer_level 0%Q
                   (Multi.set_buffer_control_paused false
                      (Multi.set_active_queue None s'))) Hg2) as [_ ->].
    + intros p Hp. simpl in *.
      rewrite (sr_names _ _ _ _ Hrel) in Hp.
      rewrite (sr_timestamps _ _ _ _ Hrel).
      destruct (Hwf p Hp) as [[q Hq'] Hts]. split; [| exact Hts].
      destruct (sr_done _ _ _ _ Hrel p q) as [-> _]; eauto.
      now apply Hd.
    + now rewrite (cleared_after_smart _ _ _ _ Hrel Hd).
Qed.

Lemma C9_reset_idempotence_witness :
  let g := Multi.control_event "control" (lit "reset") None in
  let s := Multi.control_event "reset" (lit "cancel") (Some 7) in
  Multi.run cfg0 [g] hello_state = Done tt (cleared hello_state) []
  /\ Multi.run cfg0 [g; g] hello_state = Done tt (cleared hello_state) []
  /\ Multi.run cfg0 [g] hello_state = Done tt (cleared hello_state) []
  /\ Multi.run cfg0 [s; g] hello_state = Done tt (cleared hello_state) [].
Proof.
  exact (C9_reset_idempotence cfg0 hello_events hello_state _
           (Multi.control_event "control" (lit "reset") None)
           (Multi.control_event "control" (lit "reset") None)
           (Multi.control_event "reset" (lit "cancel") (Some 7)) 7
           hello_state_reached eq_refl eq_refl eq_refl).
Defined.

(** * Further properties *)

(** ** The pattern and the segmentation loop *)

Section Matches.

Lemma finditer_from_shape (marks : str) (s cur : str) (m : str * str) :
  forallb (fun x => negb (mem x marks)) cur = true ->
  In m (finditer_from marks cur s) ->
  exists before run c,
    rev cur ++ s = before ++ run ++ c :: snd m
    /\ fst m = run ++ [c]
    /\ run <> []
    /\ forallb (fun x => negb (mem x marks)) run = true
    /\ mem c marks = true
    /\ (before = [] \/ exists b d, before = b ++ [d] /\ mem d marks = true).
Proof.
  revert cur. induction s as [|x s IH]; intros cur Hcur Hin; [destruct Hin |].
  simpl in Hin. destruct (mem x marks) eqn:Ex.
  - assert (Hrest : In m (finditer_from marks [] s) ->
              exists before run c,
                rev cur ++ x :: s = before ++ run ++ c :: snd m
                /\ fst m = run ++ [c] /\ run <> []
                /\ forallb (fun y => negb (mem y marks)) run = true
                /\ mem c marks = true
                /\ (before = [] \/ exists b d, before = b ++ [d]
                                               /\ mem d marks = true)).
    { intros H. destruct (IH [] eq_refl H)
        as (before & run & c & Heq & Hg & Hne & Hrun & Hc & Hb).
      simpl in Heq. exists (rev cur ++ x :: before), run, c.
      repeat split; auto.
      - rewrite Heq. now rewrite <- !app_assoc.
      - right. destruct Hb as [->|(b & d & -> & Hd)].
        + exists (rev cur), x. auto.
        + exists (rev cur ++ x :: b), d. split; [| exact Hd].
          now rewrite <- !app_assoc. }
    destruct cur as [|y cur]; [auto |].
    destruct Hin as [<-|Hin]; [| auto].
    exists [], (rev (y :: cur)), x. simpl. repeat split; auto.
    + intros H. apply (f_equal (@length _)) in H.
      rewrite length_app in H. simpl in H. lia.
    + rewrite forallb_forall in *. intros z Hz. apply Hcur.
      apply in_rev. exact Hz.
  - destruct (IH (x :: cur)) as (before & run & c & Heq & H); auto.
    + simpl. now rewrite Ex.
    + exists before, run, c. split; [| exact H].
      rewrite <- Heq. simpl. now rewrite <- app_assoc.
Qed.

Lemma finditer_single_shape (excluded s : str) (m : str * str) :
  In m (finditer_single excluded s) ->
  exists before c,
    s = before ++ c :: snd m /\ fst m = [c] /\ mem c excluded = false.
Proof.
  induction s as [|x s IH]; intros Hin; [destruct Hin |].
  simpl in Hin. destruct (mem x excluded) eqn:Ex.
  - destruct (IH Hin) as (before & c & Heq & Hg & Hc).
    exists (x :: before), c. simpl. now rewrite <- Heq.
  - destruct Hin as [<-|Hin]; [exists [], x; auto |].
    destruct (IH Hin) as (before & c & Heq & Hg & Hc).
    exists (x :: before), c. simpl. now rewrite <- Heq.
Qed.

End Matches.

(** X1: the matches that [re.finditer] yields for the pattern built
    from a punctuation string [P].  With a non-empty [P], every match is
    a non-empty run of characters outside [P] followed by one character
    of [P]; it occurs in the text right before the remainder recorded
    with it, and it starts at the beginning of the text or right after a
    punctuation character.  With the empty [P], every match is one
    single character other than a closing bracket, a plus sign and an
    opening bracket, right before the remainder recorded with it. *)
Theorem finditer_matches (marks text g after : str) :
  In (g, after) (finditer marks text) ->
  (marks <> []
   /\ exists before run c,
        text = before ++ run ++ c :: after
        /\ g = run ++ [c]
        /\ run <> []
        /\ forallb (fun x => negb (mem x marks)) run = true
        /\ mem c marks = true
        /\ (before = [] \/ exists b d, before = b ++ [d] /\ mem d marks = true))
  \/ (marks = []
      /\ exists before c,
           text = before ++ c :: after
           /\ g = [c]
           /\ mem c (lit "]+[") = false).
Proof.
  intros H. destruct marks as [|k marks].
  - right. split; [reflexivity |].
    exact (finditer_single_shape (lit "]+[") text (g, after) H).
  - left. split; [discriminate |].
    exact (finditer_from_shape (k :: marks) text [] (g, after) eq_refl H).
Qed.

Lemma finditer_matches_witness :
  (lit ".!" <> []
   /\ exists before run c,
        lit "Hi. Yo!" = before ++ run ++ c :: []
        /\ lit " Yo!" = run ++ [c]
        /\ run <> []
        /\ forallb (fun x => negb (mem x (lit ".!"))) run = true
        /\ mem c (lit ".!") = true
        /\ (before = [] \/ exists b d, before = b ++ [d]
                                       /\ mem d (lit ".!") = true))
  \/ (lit ".!" = []
      /\ exists before c,
           lit "Hi. Yo!" = before ++ c :: []
           /\ lit " Yo!" = [c]
           /\ mem c (lit "]+[") = false).
Proof.
  apply (finditer_matches (lit ".!") (lit "Hi. Yo!") (lit " Yo!") []).
  vm_compute. auto.
Defined.

Section Loop.

Lemma truthy_nonempty (s : str) : truthy s = true <-> s <> [].
Proof. destruct s; simpl; split; congruence. Qed.

Lemma fits_mono mx done done' s :
  fits mx done s -> (forall x, In x done -> In x done') -> fits mx done' s.
Proof. unfold fits. intros [H|[H|H]] Hsub; auto. Qed.

Lemma loop_inv_step mx l done (m : str * str) :
  loop_inv mx l done ->
  loop_inv mx (seg_step mx l m)
    (done ++ List.filter truthy [strip (fst m)]).
Proof.
  intros [Hc Hn Hs Ha]. unfold seg_step. simpl.
  destruct (truthy (strip (fst m))) eqn:Et; simpl.
  2:{ rewrite app_nil_r. constructor; auto. }
  set (r := strip (fst m)) in *.
  assert (Hr : r <> []) by now apply truthy_nonempty.
  assert (Hcomb : (if truthy (accumulator l) then accumulator l ++ r else r)
                  = accumulator l ++ r)
    by (destruct (accumulator l); reflexivity).
  rewrite Hcomb.
  assert (Hmono : forall s, fits mx done s -> fits mx (done ++ [r]) s).
  { intros s H. apply (fits_mono _ _ _ _ H). intros x Hx.
    apply in_or_app. now left. }
  assert (Hfr : fits mx (done ++ [r]) r).
  { right. right. apply in_or_app. right. now left. }
  destruct ((0 <? mx) && (mx <? len (accumulator l ++ r))) eqn:Elong.
  - destruct (truthy (accumulator l)) eqn:Eacc; constructor; simpl.
    + rewrite !concat_app. simpl. rewrite !app_nil_r.
      now rewrite Hc.
    + apply Forall_app. split; [exact Hn |].
      constructor; [now apply truthy_nonempty | constructor].
    + apply Forall_app. split.
      * eapply Forall_impl; [exact Hs | exact Hmono].
      * constructor; [| constructor].
        destruct Ha as [Ha|Ha]; [rewrite Ha in Eacc; discriminate | auto].
    + now right.
    + assert (Hnil : accumulator l = [])
        by (destruct (accumulator l); [reflexivity | discriminate]).
      rewrite Hnil, app_nil_r in Hc.
      rewrite !concat_app. simpl. rewrite !app_nil_r.
      now rewrite Hc.
    + apply Forall_app. split; [exact Hn |]. constructor; [exact Hr | constructor].
    + apply Forall_app. split.
      * eapply Forall_impl; [exact Hs | exact Hmono].
      * constructor; [exact Hfr | constructor].
    + now left.
  - constructor; simpl.
    + rewrite concat_app. simpl. rewrite app_nil_r.
      now rewrite app_assoc, Hc.
    + exact Hn.
    + eapply Forall_impl; [exact Hs | exact Hmono].
    + right. apply andb_false_iff in Elong as [E|E].
      * left. apply Z.ltb_ge in E. exact E.
      * right. left. apply Z.ltb_ge in E. exact E.
Qed.

Lemma loop_inv_fold mx ms l done :
  loop_inv mx l done ->
  loop_inv mx (fold_left (seg_step mx) ms l)
    (done ++ List.filter truthy (List.map (fun m => strip (fst m)) ms)).
Proof.
  revert l done. induction ms as [|m ms IH]; intros l done H; simpl.
  - now rewrite app_nil_r.
  - apply loop_inv_step with (m := m) in H. apply IH in H.
    simpl in H. destruct (truthy (strip (fst m))); simpl in *.
    + now rewrite <- app_assoc in H.
    + now rewrite app_nil_r in H.
Qed.

Lemma segment_loop_inv text mx marks :
  loop_inv mx (fold_left (seg_step mx) (finditer marks text)
                 (mk_seg_loop [] [] text))
    (stripped_runs marks text).
Proof.
  apply (loop_inv_fold mx (finditer marks text) (mk_seg_loop [] [] text) []).
  constructor; simpl; auto.
Qed.

(** Whatever either [segment_by_punctuation] returns is what the loop
    computes (for the empty text, the loop gives the same empty result). *)
Lemma segment_by_punctuation_loop text mn mx marks fb segs tail keep :
  Multi.segment_by_punctuation text mn mx marks = Ok (segs, tail, keep)
  \/ Single.segment_by_punctuation text marks mx mn fb = Ok (segs, tail, keep) ->
  segment_loop text mx marks = (segs, tail).
Proof.
  unfold Multi.segment_by_punctuation, Single.segment_by_punctuation.
  destruct text as [|c text].
  - intros [H|H]; cbn in H; injection H as <- <- _; now destruct marks.
  - cbn [truthy negb].
    destruct (segment_loop (c :: text) mx marks) as [s t].
    intros [H|H]; injection H as <- <- _; reflexivity.
Qed.

End Loop.

(** X2: the segments that [segment_by_punctuation] returns (in either
    segmenter) are non-empty, and put end to end they are exactly the
    stripped non-empty matches of the text put end to end: the
    accumulation loses, repeats and reorders nothing. *)
Theorem segments_conserve_runs
    (text marks fb : str) (mn mx : Z) (segs : list str) (tail : str)
    (keep : bool) :
  Multi.segment_by_punctuation text mn mx marks = Ok (segs, tail, keep)
  \/ Single.segment_by_punctuation text marks mx mn fb = Ok (segs, tail, keep) ->
  concat segs = concat (stripped_runs marks text)
  /\ Forall (fun s => s <> []) segs.
Proof.
  intros H. apply segment_by_punctuation_loop in H.
  unfold segment_loop in H. injection H as <- _.
  destruct (segment_loop_inv text mx marks) as [Hc Hn _ _].
  destruct (truthy (accumulator _)) eqn:E.
  - split.
    + rewrite concat_app. simpl. now rewrite app_nil_r.
    + apply Forall_app. split; [exact Hn |].
      constructor; [now apply truthy_nonempty | constructor].
  - split; [| exact Hn].
    destruct (accumulator _); [| discriminate].
    now rewrite app_nil_r in Hc.
Qed.

Lemma segments_conserve_runs_witness :
  concat S2_computed = concat (stripped_runs (lit ".,") S2_text)
  /\ Forall (fun s => s <> []) S2_computed.
Proof.
  apply (segments_conserve_runs S2_text (lit ".,") [] 5 15 S2_computed [] false).
  left. vm_compute. reflexivity.
Defined.

(** X3: with a positive maximum length, every segment that
    [segment_by_punctuation] returns has at most that many characters
    or is one single stripped match: a segment is longer than the
    maximum only when one sentence alone is, and sentences are never cut. *)
Theorem segments_within_max_length
    (text marks fb : str) (mn mx : Z) (segs : list str) (tail : str)
    (keep : bool) :
  0 < mx ->
  Multi.segment_by_punctuation text mn mx marks = Ok (segs, tail, keep)
  \/ Single.segment_by_punctuation text marks mx mn fb = Ok (segs, tail, keep) ->
  Forall (fun s => len s <= mx \/ In s (stripped_runs marks text)) segs.
Proof.
  intros Hmx H. apply segment_by_punctuation_loop in H.
  unfold segment_loop in H. injection H as <- _.
  destruct (segment_loop_inv text mx marks) as [_ _ Hs Ha].
  assert (Hfit : forall s, fits mx (stripped_runs marks text) s ->
                           len s <= mx \/ In s (stripped_runs marks text)).
  { intros s [H|[H|H]]; [lia | auto | auto]. }
  destruct (truthy (accumulator _)) eqn:E.
  - apply Forall_app. split; [eapply Forall_impl; [exact Hs | exact Hfit] |].
    constructor; [| constructor].
    destruct Ha as [Ha|Ha]; [rewrite Ha in E; discriminate | auto].
  - eapply Forall_impl; [exact Hs | exact Hfit].
Qed.

Lemma segments_within_max_length_witness :
  Forall (fun s => len s <= 15 \/ In s (stripped_runs (lit ".,") S2_text))
         S2_computed.
Proof.
  apply (segments_within_max_length S2_text (lit ".,") [] 5 15 S2_computed []
           false); [lia |].
  left. vm_compute. reflexivity.
Defined.

(** ** Segments and tail of [segment_by_punctuation] *)

Section Trimming.

Lemma rstrip_app_nonspace (x : str) (d : char) :
  isspace d = false -> rstrip (x ++ [d]) = x ++ [d].
Proof.
  intros Hd. unfold rstrip. rewrite rev_app_distr. simpl. rewrite Hd.
  simpl. now rewrite rev_involutive.
Qed.

Lemma strip_nonspace_ends (c d : char) (x : str) :
  isspace c = false -> isspace d = false ->
  strip (c :: x ++ [d]) = c :: x ++ [d].
Proof.
  intros Hc Hd. unfold strip. simpl. rewrite Hc.
  exact (rstrip_app_nonspace (c :: x) d Hd).
Qed.

Lemma strip_fixed_ends (s : str) :
  s <> [] -> strip s = s ->
  (exists c r, s = c :: r /\ isspace c = false)
  /\ (exists r d, s = r ++ [d] /\ isspace d = false).
Proof.
  intros Hne Hs. unfold strip in Hs. split.
  - destruct (lstrip_head s) as [E|(c & r & E & Hc)]; rewrite E in Hs.
    + now subst s.
    + rewrite (rstrip_cons_nonspace _ _ Hc) in Hs. eauto.
  - unfold rstrip in Hs.
    destruct (lstrip_head (rev (lstrip s))) as [E|(d & r & E & Hd)];
      rewrite E in Hs; simpl in Hs.
    + now subst s.
    + exists (rev r), d. split; [now symmetry | exact Hd].
Qed.

Lemma trimmed_app (a b : str) :
  a <> [] /\ strip a = a -> b <> [] /\ strip b = b ->
  a ++ b <> [] /\ strip (a ++ b) = a ++ b.
Proof.
  intros [Ha Sa] [Hb Sb]. split; [now destruct a |].
  destruct (strip_fixed_ends a Ha Sa) as [(c & r & -> & Hc) _].
  destruct (strip_fixed_ends b Hb Sb) as [_ (r' & d & -> & Hd)].
  replace ((c :: r) ++ r' ++ [d]) with (c :: (r ++ r') ++ [d])
    by (simpl; now rewrite <- app_assoc).
  now apply strip_nonspace_ends.
Qed.

(** What holds of every stripped match and is kept by concatenation
    holds of all segments and of the accumulator of the loop. *)
Lemma loop_closed (P : str -> Prop) (mx : Z) (ms : list (str * str))
    (l : seg_loop) :
  (forall a b, P a -> P b -> P (a ++ b)) ->
  (forall m, In m ms -> truthy (strip (fst m)) = true -> P (strip (fst m))) ->
  Forall P (segments l) -> accumulator l = [] \/ P (accumulator l) ->
  Forall P (segments (fold_left (seg_step mx) ms l))
  /\ (accumulator (fold_left (seg_step mx) ms l) = []
      \/ P (accumulator (fold_left (seg_step mx) ms l))).
Proof.
  intros Happ. revert l. induction ms as [|m ms IH]; intros l Hm Hs Ha;
    simpl; [auto |].
  apply IH; [intros m' Hin; apply Hm; now right | |];
    unfold seg_step;
    destruct (truthy (strip (fst m))) eqn:Et; simpl; auto;
    specialize (Hm m (or_introl eq_refl) Et);
    assert (Hcomb : P (if truthy (accumulator l)
                       then accumulator l ++ strip (fst m) else strip (fst m)))
      by (destruct Ha as [Ha|Ha];
          [rewrite Ha; exact Hm
          | destruct (truthy (accumulator l)); auto]);
    destruct ((0 <? mx) && _); simpl; auto;
    destruct (truthy (accumulator l)) eqn:Eacc; simpl; auto.
  - apply Forall_app. split; [exact Hs |]. constructor; [| constructor].
    destruct Ha as [Ha|Ha]; [rewrite Ha in Eacc; discriminate | exact Ha].
  - apply Forall_app. split; [exact Hs |]. constructor; [exact Hm | constructor].
Qed.

Lemma segment_loop_closed (P : str -> Prop) (text marks : str) (mx : Z) :
  (forall a b, P a -> P b -> P (a ++ b)) ->
  (forall m, In m (finditer marks text) -> truthy (strip (fst m)) = true ->
             P (strip (fst m))) ->
  Forall P (fst (segment_loop text mx marks)).
Proof.
  intros Happ Hm. unfold segment_loop. simpl.
  destruct (loop_closed P mx (finditer marks text) (mk_seg_loop [] [] text)
              Happ Hm) as [Hs Ha]; simpl; auto.
  destruct (truthy (accumulator _)) eqn:E; [| exact Hs].
  apply Forall_app. split; [exact Hs |]. constructor; [| constructor].
  destruct Ha as [Ha|Ha]; [rewrite Ha in E; discriminate | exact Ha].
Qed.

Lemma segment_by_punctuation_tail text mn mx marks fb segs tail keep :
  Multi.segment_by_punctuation text mn mx marks = Ok (segs, tail, keep)
  \/ Single.segment_by_punctuation text marks mx mn fb = Ok (segs, tail, keep) ->
  strip tail = tail.
Proof.
  intros H. apply segment_by_punctuation_loop in H.
  unfold segment_loop in H. injection H as _ <-. apply strip_idem.
Qed.

End Trimming.

(** X4: the segments that [segment_by_punctuation] returns (in either
    segmenter) and the incomplete tail carry no white space at either
    end: stripping them changes nothing. *)
Theorem segments_trimmed
    (text marks fb : str) (mn mx : Z) (segs : list str) (tail : str)
    (keep : bool) :
  Multi.segment_by_punctuation text mn mx marks = Ok (segs, tail, keep)
  \/ Single.segment_by_punctuation text marks mx mn fb = Ok (segs, tail, keep) ->
  Forall (fun s => strip s = s) segs /\ strip tail = tail.
Proof.
  intros H. split; [| exact (segment_by_punctuation_tail _ _ _ _ _ _ _ _ H)].
  apply segment_by_punctuation_loop in H.
  assert (Hs := segment_loop_closed (fun s => s <> [] /\ strip s = s)
                  text marks mx trimmed_app).
  rewrite H in Hs. simpl in Hs.
  eapply Forall_impl; [apply Hs | intros s Hx; exact (proj2 Hx)].
  intros m _ Hm. split; [now apply truthy_nonempty | apply strip_idem].
Qed.

Lemma segments_trimmed_witness :
  Forall (fun s => strip s = s) S2_computed /\ strip [] = @nil char.
Proof.
  apply (segments_trimmed S2_text (lit ".,") [] 5 15 S2_computed [] false).
  left. vm_compute. reflexivity.
Defined.

(** X5: with a non-empty punctuation string of which no character is
    white space, every segment that [segment_by_punctuation] returns
    ends with a punctuation character: text is only cut right after a
    terminator.  (With the empty punctuation string the segments are
    made of single characters and end with none.) *)
Theorem segments_end_with_mark
    (text marks fb : str) (mn mx : Z) (segs : list str) (tail : str)
    (keep : bool) :
  marks <> [] ->
  (forall c, mem c marks = true -> isspace c = false) ->
  Multi.segment_by_punctuation text mn mx marks = Ok (segs, tail, keep)
  \/ Single.segment_by_punctuation text marks mx mn fb = Ok (segs, tail, keep) ->
  Forall (fun s => exists r c, s = r ++ [c] /\ mem c marks = true) segs.
Proof.
  intros Hne Hmarks H. apply segment_by_punctuation_loop in H.
  assert (Hs := segment_loop_closed
                  (fun s => exists r c, s = r ++ [c] /\ mem c marks = true)
                  text marks mx).
  rewrite H in Hs. apply Hs.
  - intros a b _ (r & c & -> & Hc). exists (a ++ r), c.
    split; [now rewrite app_assoc | exact Hc].
  - intros [g after] Hin _. simpl.
    rewrite (finditer_nonempty marks text Hne) in Hin.
    destruct (finditer_from_shape marks text [] (g, after) eq_refl Hin)
      as (_ & run & c & _ & Hg & _ & _ & Hc & _).
    simpl in Hg. subst g. exists (lstrip run), c. split; [| exact Hc].
    unfold strip. rewrite (lstrip_app_nonspace _ _ (Hmarks c Hc)).
    exact (rstrip_app_nonspace _ _ (Hmarks c Hc)).
Qed.

Lemma segments_end_with_mark_witness :
  Forall (fun s => exists r c, s = r ++ [c] /\ mem c (lit ".,") = true)
         S2_computed.
Proof.
  apply (segments_end_with_mark S2_text (lit ".,") [] 5 15 S2_computed []
           false).
  - discriminate.
  - intros c Hc. change (((c =? 46) || ((c =? 44) || false))%N = true) in Hc.
    apply orb_prop in Hc as [H|H];
      [| apply orb_prop in H as [H|H]; [| discriminate]];
      apply N.eqb_eq in H; subst c; reflexivity.
  - left. vm_compute. reflexivity.
Defined.

Section Unterminated.

Lemma finditer_from_no_mark (marks cur s : str) :
  forallb (fun c => negb (mem c marks)) s = true ->
  finditer_from marks cur s = [].
Proof.
  revert cur. induction s as [|x s IH]; intros cur H; [reflexivity |].
  simpl in *. apply andb_prop in H as [Hx H].
  apply negb_true_iff in Hx. rewrite Hx. now apply IH.
Qed.

Lemma unlimited_loop (mx : Z) (ms : list (str * str)) (l : seg_loop) :
  mx <= 0 -> segments l = [] ->
  segments (fold_left (seg_step mx) ms l) = [].
Proof.
  intros Hmx. revert l. induction ms as [|m ms IH]; intros l Hl;
    [exact Hl |].
  simpl. apply IH. unfold seg_step.
  destruct (negb (truthy (strip (fst m)))); [exact Hl |].
  replace (0 <? mx) with false by (symmetry; apply Z.ltb_ge; lia).
  exact Hl.
Qed.

End Unterminated.

(** X6: a text without any punctuation character yields no segment;
    the whole text, stripped, is the incomplete tail (and conference
    mode keeps it exactly when it is not empty). *)
Theorem unterminated_text_is_buffered (text marks fb : str) (mn mx : Z) :
  marks <> [] ->
  forallb (fun c => negb (mem c marks)) text = true ->
  Multi.segment_by_punctuation text mn mx marks
  = Ok ([], strip text, truthy (strip text))
  /\ Single.segment_by_punctuation text marks mx mn fb
     = Ok ([], strip text, false).
Proof.
  intros Hm Ht.
  unfold Multi.segment_by_punctuation, Single.segment_by_punctuation.
  destruct text as [|c text]; [split; reflexivity |].
  cbn [truthy negb]. unfold segment_loop.
  rewrite (finditer_nonempty marks (c :: text) Hm).
  rewrite (finditer_from_no_mark _ _ _ Ht). split; reflexivity.
Qed.

Lemma unterminated_text_is_buffered_witness :
  Multi.segment_by_punctuation (lit " no end ") 5 15 (lit ".,")
  = Ok ([], strip (lit " no end "), truthy (strip (lit " no end ")))
  /\ Single.segment_by_punctuation (lit " no end ") (lit ".,") 15 5 []
     = Ok ([], strip (lit " no end "), false).
Proof.
  apply unterminated_text_is_buffered; [discriminate | reflexivity].
Defined.

(** X7: with a maximum length of zero or less the length cap is off:
    [segment_by_punctuation] returns at most one segment, made of all
    the stripped non-empty matches of the text put end to end. *)
Theorem unlimited_length_one_segment
    (text marks fb : str) (mn mx : Z) (segs : list str) (tail : str)
    (keep : bool) :
  mx <= 0 ->
  Multi.segment_by_punctuation text mn mx marks = Ok (segs, tail, keep)
  \/ Single.segment_by_punctuation text marks mx mn fb = Ok (segs, tail, keep) ->
  segs = match concat (stripped_runs marks text) with
         | [] => []
         | s => [s]
         end.
Proof.
  intros Hmx H. apply segment_by_punctuation_loop in H.
  unfold segment_loop in H. injection H as <- _.
  destruct (segment_loop_inv text mx marks) as [Hc _ _ _].
  rewrite (unlimited_loop mx (finditer marks text) (mk_seg_loop [] [] text)
             Hmx eq_refl) in *.
  simpl in Hc. rewrite <- Hc.
  now destruct (accumulator _).
Qed.

Lemma unlimited_length_one_segment_witness :
  [lit "abcdefg,hij,klmnop,qrs."]
  = match concat (stripped_runs (lit ".,") S2_text) with
    | [] => []
    | s => [s]
    end.
Proof.
  apply (unlimited_length_one_segment S2_text (lit ".,") [] 5 0
           [lit "abcdefg,hij,klmnop,qrs."] [] false); [lia |].
  left. vm_compute. reflexivity.
Defined.

(** ** The punctuation string *)

Section Membership.

Lemma mem_In (c : char) (s : str) : mem c s = true <-> In c s.
Proof.
  unfold mem. rewrite existsb_exists. split.
  - intros (x & Hx & E). apply N.eqb_eq in E. now subst.
  - intros H. exists c. split; [exact H | apply N.eqb_refl].
Qed.

Lemma mem_agree (s1 s2 : str) :
  (forall c, In c s1 <-> In c s2) -> forall c, mem c s1 = mem c s2.
Proof.
  intros H c. apply eq_true_iff_eq. rewrite !mem_In. apply H.
Qed.

Variables m1 m2 : str.
Hypothesis Hmem : forall c, mem c m1 = mem c m2.

Lemma finditer_from_agree (cur s : str) :
  finditer_from m1 cur s = finditer_from m2 cur s.
Proof.
  revert cur. induction s as [|x s IH]; intros cur; [reflexivity |].
  simpl. rewrite Hmem, !IH. reflexivity.
Qed.

Lemma finditer_agree (text : str) : finditer m1 text = finditer m2 text.
Proof.
  assert (Hfrom := finditer_from_agree [] text). revert Hmem Hfrom.
  destruct m1 as [|a r1], m2 as [|b r2]; intros Hmem' Hfrom;
    [reflexivity | | | exact Hfrom].
  - specialize (Hmem' b). simpl in Hmem'. now rewrite N.eqb_refl in Hmem'.
  - specialize (Hmem' a). simpl in Hmem'. now rewrite N.eqb_refl in Hmem'.
Qed.

Lemma segment_loop_agree (text : str) (mx : Z) :
  segment_loop text mx m1 = segment_loop text mx m2.
Proof. unfold segment_loop. now rewrite finditer_agree. Qed.

Lemma single_segment_agree (text fb : str) (mx mn : Z) :
  Single.segment_by_punctuation text m1 mx mn fb
  = Single.segment_by_punctuation text m2 mx mn fb.
Proof.
  unfold Single.segment_by_punctuation. now rewrite segment_loop_agree.
Qed.

Lemma single_skip_agree {U : UnicodeTables} (t : str) :
  Single.should_skip_segment t m1 = Single.should_skip_segment t m2.
Proof.
  unfold Single.should_skip_segment. destruct (negb _); [reflexivity |].
  apply forallb_pointwise. intros c. now rewrite Hmem.
Qed.

End Membership.

(** X8: segmentation and filtering depend on the punctuation string only
    through the set of its characters: two strings with the same
    characters, in any order and with any repetitions, give the same
    segments, tail and filter decisions in both segmenters. *)
Theorem marks_matter_by_membership {U : UnicodeTables} (m1 m2 : str) :
  (forall c, mem c m1 = mem c m2) ->
  (forall text mn mx,
     Multi.segment_by_punctuation text mn mx m1
     = Multi.segment_by_punctuation text mn mx m2)
  /\ (forall text mx mn fb,
        Single.segment_by_punctuation text m1 mx mn fb
        = Single.segment_by_punctuation text m2 mx mn fb)
  /\ (forall t, Multi.should_skip_segment t m1 = Multi.should_skip_segment t m2)
  /\ (forall t, Single.should_skip_segment t m1
                = Single.should_skip_segment t m2).
Proof.
  intros H. repeat split.
  - intros text mn mx. unfold Multi.segment_by_punctuation.
    now rewrite (segment_loop_agree m1 m2 H).
  - intros. now apply single_segment_agree.
  - intros t. unfold Multi.should_skip_segment.
    destruct (negb _); [reflexivity |].
    apply forallb_pointwise. intros c. now rewrite H.
  - intros. now apply single_skip_agree.
Qed.

Lemma marks_matter_by_membership_witness :
  (forall text mn mx,
     Multi.segment_by_punctuation text mn mx (lit ".,")
     = Multi.segment_by_punctuation text mn mx (lit ",.,"))
  /\ (forall text mx mn fb,
        Single.segment_by_punctuation text (lit ".,") mx mn fb
        = Single.segment_by_punctuation text (lit ",.,") mx mn fb)
  /\ (forall t, Multi.should_skip_segment t (lit ".,")
                = Multi.should_skip_segment t (lit ",.,"))
  /\ (forall t, Single.should_skip_segment t (lit ".,")
                = Single.should_skip_segment t (lit ",.,")).
Proof.
  apply (marks_matter_by_membership (lit ".,") (lit ",.,")).
  apply mem_agree. intros c. vm_compute. tauto.
Defined.

Section Deduplication.
Import Single.

Lemma mem_dedup_chars (c : char) (s seen : str) :
  mem c (dedup_chars seen s) = mem c s && negb (mem c seen).
Proof.
  revert seen. induction s as [|x s IH]; intros seen; [reflexivity |].
  simpl. destruct (mem x seen) eqn:Ex.
  - rewrite IH. destruct (N.eqb_spec c x) as [->|]; [| reflexivity].
    rewrite Ex. simpl. now rewrite andb_false_r.
  - simpl. rewrite IH. simpl.
    destruct (N.eqb_spec c x) as [->|]; [| reflexivity].
    now rewrite Ex.
Qed.

Lemma NoDup_dedup_chars (s seen : str) : NoDup (dedup_chars seen s).
Proof.
  revert seen. induction s as [|x s IH]; intros seen; simpl; [constructor |].
  destruct (mem x seen); [apply IH |].
  constructor; [| apply IH].
  rewrite list_elem_of_In, <- mem_In, mem_dedup_chars. simpl.
  rewrite N.eqb_refl. simpl. rewrite andb_false_r. discriminate.
Qed.

Lemma effective_punctuation_mem (env fb : str) (c : char) :
  mem c (effective_punctuation env "punctuation" fb)
  = mem c (effective_punctuation env "sentence" fb) || mem c fb.
Proof.
  unfold effective_punctuation. simpl.
  rewrite mem_dedup_chars. simpl. rewrite andb_true_r.
  unfold mem. now rewrite existsb_app.
Qed.

End Deduplication.

(** X9: the punctuation string that single mode works with is never
    empty and contains the configured marks (the default terminators
    when none are configured); in punctuation mode it has no repeated
    character and its characters are exactly the configured marks and
    the fallback marks; in any other mode it is the configured marks. *)
Theorem effective_punctuation_marks (env fb : str) (mode : string) (c : char) :
  let configured :=
    if truthy env then env else [12290; 65281; 65311; 46; 33; 63]%N in
  let marks := Single.effective_punctuation env mode fb in
  marks <> []
  /\ (mem c configured = true -> mem c marks = true)
  /\ (mode = "punctuation"%string ->
      NoDup marks /\ mem c marks = mem c configured || mem c fb)
  /\ (mode <> "punctuation"%string -> marks = configured).
Proof.
  cbv zeta.
  assert (Hsentence : Single.effective_punctuation env "sentence" fb
                      = if truthy env then env
                        else [12290; 65281; 65311; 46; 33; 63]%N)
    by reflexivity.
  rewrite <- Hsentence.
  assert (Hne : Single.effective_punctuation env "sentence" fb <> [])
    by (rewrite Hsentence; now destruct env).
  assert (Hother : mode <> "punctuation"%string ->
            Single.effective_punctuation env mode fb
            = Single.effective_punctuation env "sentence" fb).
  { intros H. unfold Single.effective_punctuation.
    now destruct (String.eqb_spec mode "punctuation"). }
  destruct (String.eqb_spec mode "punctuation") as [-> | Hmode].
  - split; [| split; [| split; [| congruence]]].
    + destruct (Single.effective_punctuation env "sentence" fb) as [|k r] eqn:E;
        [congruence |].
      intros H. assert (Hk := effective_punctuation_mem env fb k).
      rewrite H, E in Hk. simpl in Hk. now rewrite N.eqb_refl in Hk.
    + rewrite effective_punctuation_mem. intros ->. reflexivity.
    + intros _. split;
        [apply NoDup_dedup_chars | apply effective_punctuation_mem].
  - rewrite (Hother Hmode).
    split; [exact Hne |]. split; [auto |]. split; [congruence | reflexivity].
Qed.

(** X10: the fallback marks are kept in a set, whose iteration order is
    not fixed; whatever the order in which they are joined to the
    configured marks, single mode segments and filters every text in
    the same way. *)
Theorem fallback_order_irrelevant {U : UnicodeTables}
    (env fb1 fb2 : str) (mode : string) :
  Permutation fb1 fb2 ->
  (forall text mx mn fsm,
     Single.segment_by_punctuation text
       (Single.effective_punctuation env mode fb1) mx mn fsm
     = Single.segment_by_punctuation text
         (Single.effective_punctuation env mode fb2) mx mn fsm)
  /\ (forall t,
        Single.should_skip_segment t (Single.effective_punctuation env mode fb1)
        = Single.should_skip_segment t
            (Single.effective_punctuation env mode fb2)).
Proof.
  intros Hp.
  assert (H : forall c,
            mem c (Single.effective_punctuation env mode fb1)
            = mem c (Single.effective_punctuation env mode fb2)).
  { intros c. unfold Single.effective_punctuation.
    destruct (String.eqb mode "punctuation"); [| reflexivity].
    rewrite !mem_dedup_chars. f_equal. unfold mem. rewrite !existsb_app.
    f_equal. apply (mem_agree fb1 fb2). intros x.
    split; apply Permutation_in; [exact Hp | now symmetry]. }
  split; intros.
  - now apply single_segment_agree.
  - now apply single_skip_agree.
Qed.

Lemma fallback_order_irrelevant_witness :
  (forall text mx mn fsm,
     Single.segment_by_punctuation text
       (Single.effective_punctuation [] "punctuation"
          Single.default_fallback_split_marks) mx mn fsm
     = Single.segment_by_punctuation text
         (Single.effective_punctuation [] "punctuation"
            (rev Single.default_fallback_split_marks)) mx mn fsm)
  /\ (forall t,
        Single.should_skip_segment t
          (Single.effective_punctuation [] "punctuation"
             Single.default_fallback_split_marks)
        = Single.should_skip_segment t
            (Single.effective_punctuation [] "punctuation"
               (rev Single.default_fallback_split_marks))).
Proof.
  apply (fallback_order_irrelevant [] Single.default_fallback_split_marks
           (rev Single.default_fallback_split_marks) "punctuation").
  apply Permutation_rev.
Defined.

(** ** Speaker labels and the two filters *)

Section SpeakerId.

Lemma span_not_spec (stop : char) (s : str) :
  s = fst (span_not stop s) ++ snd (span_not stop s)
  /\ forallb (fun c => negb (c =? stop)%N) (fst (span_not stop s)) = true
  /\ (snd (span_not stop s) = []
      \/ exists r, snd (span_not stop s) = stop :: r).
Proof.
  induction s as [|c s IH]; simpl; [auto |].
  destruct (N.eqb_spec c stop) as [->|Hne]; simpl.
  - split; [reflexivity |]. split; [reflexivity |]. right. eauto.
  - destruct (span_not stop s) as [a b]. simpl in *.
    destruct IH as (E & Ha & Hb). split; [now rewrite <- E |].
    split; [| exact Hb]. rewrite Ha.
    apply N.eqb_neq in Hne. now rewrite Hne.
Qed.

Lemma span_not_app (stop : char) (name r : str) :
  forallb (fun c => negb (c =? stop)%N) name = true ->
  span_not stop (name ++ stop :: r) = (name, stop :: r).
Proof.
  induction name as [|c name IH]; simpl; intros H.
  - now rewrite N.eqb_refl.
  - apply andb_prop in H as [Hc H]. apply negb_true_iff in Hc.
    rewrite Hc, (IH H). reflexivity.
Qed.

Lemma lstrip_split (s : str) :
  exists ws, s = ws ++ lstrip s /\ forallb isspace ws = true.
Proof.
  induction s as [|c s (ws & E & Hws)]; simpl; [now exists [] |].
  destruct (isspace c) eqn:Ec.
  - exists (c :: ws). simpl. rewrite Ec, Hws. split; [now rewrite <- E | reflexivity].
  - now exists [].
Qed.

End SpeakerId.

(** X11: [remove_speaker_id] removes exactly one leading speaker label:
    either the text is an opening bracket, a non-empty name without
    closing bracket, a closing bracket and white space, followed by the
    result, which begins with no white space; or the text does not begin
    with such a label and is returned unchanged. *)
Theorem remove_speaker_id_spec (text : str) :
  (exists name ws,
     text = 91%N :: name ++ 93%N :: ws ++ remove_speaker_id text
     /\ name <> []
     /\ forallb (fun c => negb (c =? 93)%N) name = true
     /\ forallb isspace ws = true
     /\ lstrip (remove_speaker_id text) = remove_speaker_id text)
  \/ (remove_speaker_id text = text
      /\ forall name r,
           name <> [] ->
           forallb (fun c => negb (c =? 93)%N) name = true ->
           text <> 91%N :: name ++ 93%N :: r).
Proof.
  assert (Hno : forall name r,
            name <> [] ->
            forallb (fun c => negb (c =? 93)%N) name = true ->
            remove_speaker_id (91%N :: name ++ 93%N :: r) = lstrip r).
  { intros name r Hne Hn. unfold remove_speaker_id.
    rewrite (span_not_app _ _ _ Hn). now destruct name. }
  destruct text as [|c text]; [right; split; [reflexivity | discriminate] |].
  destruct (N.eqb_spec c 91) as [->|Hc].
  2:{ right. split.
      - unfold remove_speaker_id.
        destruct c as [|p]; [reflexivity |].
        do 7 (destruct p as [p|p|]; try reflexivity). congruence.
      - intros name r _ _ E. injection E as E _. contradiction. }
  destruct (span_not_spec 93%N text) as (E & Ha & Hb).
  destruct (span_not 93%N text) as [a b] eqn:Es. simpl in E, Ha, Hb.
  destruct a as [|x a].
  { right. split; [unfold remove_speaker_id; now rewrite Es |].
    intros name r Hne Hn Eq. injection Eq as Eq. rewrite Eq in Es.
    rewrite (span_not_app _ _ _ Hn) in Es. injection Es as Es _.
    now subst name. }
  destruct Hb as [->|(after & ->)].
  { right. split; [unfold remove_speaker_id; now rewrite Es |].
    intros name r Hne Hn Eq. injection Eq as Eq. rewrite Eq in Es.
    rewrite (span_not_app _ _ _ Hn) in Es. discriminate. }
  left. destruct (lstrip_split after) as (ws & Eafter & Hws).
  exists (x :: a), ws.
  replace (remove_speaker_id _) with (lstrip after)
    by (unfold remove_speaker_id; now rewrite Es).
  split; [rewrite E at 1; now rewrite <- Eafter |].
  split; [discriminate |]. split; [exact Ha |].
  split; [exact Hws | apply lstrip_idem].
Qed.

Section Filters.

Lemma lstrip_incl (s : str) (c : char) : In c (lstrip s) -> In c s.
Proof.
  induction s as [|x s IH]; simpl; [auto |].
  destruct (isspace x); [right; auto | auto].
Qed.

Lemma strip_incl (s : str) (c : char) : In c (strip s) -> In c s.
Proof.
  unfold strip, rstrip. intros H. apply in_rev, lstrip_incl, in_rev in H.
  now apply lstrip_incl.
Qed.

End Filters.

(** X12: the filter of single mode is at least as strict as the one of
    conference mode: a segment that the conference filter skips is
    skipped by the single-mode filter too. *)
Theorem conference_filter_weaker {U : UnicodeTables} (t marks : str) :
  Multi.should_skip_segment t marks = true ->
  Single.should_skip_segment t marks = true.
Proof.
  unfold Multi.should_skip_segment, Single.should_skip_segment.
  destruct (negb (truthy (strip t))); [reflexivity |]. intros H.
  apply forallb_forall. intros c Hc. apply strip_incl in Hc.
  eapply forallb_forall in H; [| exact Hc].
  apply orb_prop in H as [-> | ->]; [now rewrite orb_true_r | reflexivity].
Qed.

Lemma conference_filter_weaker_witness :
  Single.should_skip_segment (lit " ., ") (lit ".,") = true.
Proof.
  apply conference_filter_weaker. vm_compute. reflexivity.
Defined.

(** ** Passthrough mode *)

Section PassthroughRun.

Lemma passthrough_run_cons i ev evs :
  passthrough_run i (ev :: evs)
  = (fst (passthrough_run (fst (Passthrough.handle i (fst ev) (snd ev))) evs),
     snd (Passthrough.handle i (fst ev) (snd ev))
     ++ snd (passthrough_run (fst (Passthrough.handle i (fst ev) (snd ev))) evs)).
Proof.
  simpl. destruct (Passthrough.handle i (fst ev) (snd ev)) as [i1 out1].
  simpl. now destruct (passthrough_run i1 evs).
Qed.

End PassthroughRun.

(** X13: passthrough mode forwards the texts of the [text] events on
    [text_segment] unchanged and in the order received, numbers them
    consecutively from the current segment index, and ends with the
    index advanced by their number; other events send nothing. *)
Theorem passthrough_forwards_in_order (i : Z) (evs : list (string * str)) :
  let texts :=
    List.map snd (List.filter (fun ev => String.eqb (fst ev) "text") evs) in
  let sent := List.filter on_text_segment (snd (passthrough_run i evs)) in
  List.map Passthrough.payload sent = texts
  /\ List.map Passthrough.segment_index sent
     = List.map (fun k => i + Z.of_nat k) (seq 0 (length texts))
  /\ fst (passthrough_run i evs) = i + Z.of_nat (length texts).
Proof.
  revert i. induction evs as [|[id v] evs IH]; intros i.
  - simpl. repeat split. lia.
  - cbv zeta in *. rewrite passthrough_run_cons. cbn [fst snd List.filter].
    destruct (String.eqb id "text") eqn:Eid.
    + assert (Eh : Passthrough.handle i id v
                   = (i + 1,
                      [Passthrough.mk_emission "text_segment" v i;
                       Passthrough.mk_emission "status" (lit "segment_sent") i]))
        by (unfold Passthrough.handle; now rewrite Eid).
      rewrite Eh. destruct (IH (i + 1)) as (Hp & Hi & Hf).
      simpl. rewrite Hp, Hi, Hf. repeat split.
      * f_equal; [lia |]. rewrite <- seq_shift, List.map_map.
        apply List.map_ext. intros k. lia.
      * lia.
    + assert (Eh : Passthrough.handle i id v = (i, []))
        by (unfold Passthrough.handle; now rewrite Eid).
      rewrite Eh. exact (IH i).
Qed.

(** ** Single mode *)

Module SingleRun.
Import Single.

Section Sending.

Context {U : UnicodeTables} (cfg : Config).

Lemma on_text_out st t mref :
  (length (outputs (on_text cfg st t mref)) <= 1)%nat
  /\ (is_sending st = true -> outputs (on_text cfg st t mref) = [])
  /\ forall st' out, on_text cfg st t mref = Done tt st' out ->
       nothing_waits st' /\ (is_sending st = true -> is_sending st' = true).
Proof.
  unfold on_text, nothing_waits.
  destruct (segment_by_punctuation _ _ _ _ _) as [[[cs inc] keep]|e];
    [| simpl; repeat split; auto; discriminate].
  destruct (is_sending st) eqn:Es;
    destruct (segment_queue st ++ _) as [|seg q'] eqn:Eq; simpl;
    (split; [lia |]); (split; [auto; discriminate |]);
    intros st' out H; injection H as <- <-; simpl; rewrite ?Es;
    split; auto; discriminate.
Qed.

Lemma on_session_ended_out st mref :
  nothing_waits (fst (on_session_ended st mref))
  /\ (is_sending st = true ->
      is_sending (fst (on_session_ended st mref)) = true
      /\ snd (on_session_ended st mref) = [])
  /\ (snd (on_session_ended st mref) = []
      \/ is_sending (fst (on_session_ended st mref)) = true
         /\ length (snd (on_session_ended st mref)) = 1%nat).
Proof.
  unfold on_session_ended, nothing_waits.
  destruct (truthy (strip (text_buffer st)));
    destruct (is_sending st) eqn:Es;
    [destruct (segment_queue st ++ _) as [|seg q] eqn:Eq
    |destruct (segment_queue st ++ _) as [|seg q] eqn:Eq
    |destruct (segment_queue st) as [|seg q] eqn:Eq
    |destruct (segment_queue st) as [|seg q] eqn:Eq];
    simpl; rewrite ?Es; repeat split; auto; try discriminate.
Qed.

Lemma handle_out st id value metadata :
  (length (outputs (handle cfg st id value metadata)) <= 1)%nat
  /\ (id = "text"%string -> is_sending st = true ->
      outputs (handle cfg st id value metadata) = []
      /\ forall st' out, handle cfg st id value metadata = Done tt st' out ->
           is_sending st' = true)
  /\ (nothing_waits st ->
      forall st' out, handle cfg st id value metadata = Done tt st' out ->
        nothing_waits st').
Proof.
  unfold handle.
  destruct (String.eqb_spec id "text") as [->|Hid].
  { destruct value as [t|];
      [| simpl; repeat split; auto; intros; discriminate].
    set (st0 := mk_state _ _ _ _ _ _ _).
    assert (Es0 : is_sending st0 = is_sending st) by reflexivity.
    destruct (option_eqb _ _ _).
    - destruct (on_session_ended st0 (length (heap st))) as [st1 out1] eqn:E.
      destruct (on_session_ended_out st0 (length (heap st)))
        as (Hw & Hbusy & Hout).
      rewrite E in Hw, Hbusy, Hout. simpl in Hw, Hbusy, Hout.
      destruct (negb (truthy (strip t))).
      + simpl. split; [destruct Hout as [->|[_ ->]]; simpl; lia |].
        split.
        * intros _ Hs. change (is_sending st0 = true) in Hs. destruct (Hbusy Hs) as [H1 H2].
          split; [exact H2 |]. intros st' out H. now injection H as <- _.
        * intros _ st' out H. now injection H as <- _.
      + destruct (on_text_out st1 t (length (heap st))) as (Hl & Hb & Hd).
        destruct (on_text cfg st1 t (length (heap st))) as [[] st2 out2|e out2];
          simpl in Hl, Hb, Hd |- *.
        * split.
          { destruct Hout as [->|[Hs1 Hl1]]; [simpl; lia |].
            rewrite (Hb Hs1), app_nil_r. lia. }
          split.
          { intros _ Hs. change (is_sending st0 = true) in Hs. destruct (Hbusy Hs) as [H1 H2].
            rewrite H2, (Hb H1). split; [reflexivity |].
            intros st' out H. injection H as <- _.
            now apply (Hd st2 out2 eq_refl). }
          { intros _ st' out H. injection H as <- _.
            now apply (Hd st2 out2 eq_refl). }
        * split.
          { destruct Hout as [->|[Hs1 Hl1]]; [simpl; lia |].
            rewrite (Hb Hs1), app_nil_r. lia. }
          split; [| intros; discriminate].
          intros _ Hs. change (is_sending st0 = true) in Hs. destruct (Hbusy Hs) as [H1 H2].
          rewrite H2, (Hb H1). split; [reflexivity | intros; discriminate].
    - destruct (on_text_out st0 t (length (heap st))) as (Hl & Hb & Hd).
      split; [exact Hl |]. split.
      + intros _ Hs. change (is_sending st0 = true) in Hs. split; [exact (Hb Hs) |].
        intros st' out H. now apply (Hd st' out H).
      + intros _ st' out H. now apply (Hd st' out H). }
  split; [| split; [intros ->; congruence |]].
  - destruct (String.eqb id "tts_complete").
    { destruct (segment_queue st); [destruct (pending_session_end st) |];
        simpl; lia. }
    destruct (String.eqb id "control").
    { destruct value as [c|]; [destruct (str_eqb c _) |]; simpl; lia. }
    destruct (String.eqb id "reset"); [| simpl; lia].
    destruct (option_eqb _ _ _); [simpl; lia |].
    destruct (question_id metadata); simpl; lia.
  - unfold nothing_waits. intros Hw st' out.
    destruct (String.eqb id "tts_complete").
    { destruct (segment_queue st) as [|seg q] eqn:Eq.
      - destruct (pending_session_end st); intros H; injection H as <- _;
          reflexivity.
      - intros H. injection H as <- _. simpl. intros Hs.
        specialize (Hw Hs). discriminate. }
    destruct (String.eqb id "control").
    { destruct value as [c|]; [| discriminate].
      destruct (str_eqb c _); intros H; injection H as <- _; auto. }
    destruct (String.eqb id "reset"); [| intros H; injection H as <- _; auto].
    destruct (option_eqb _ _ _); [intros H; injection H as <- _; auto |].
    destruct (question_id metadata) as [q|]; intros H; injection H as <- _;
      [| auto].
    unfold smart_reset. simpl.
    destruct (List.filter _ (segment_queue st)) as [|seg r] eqn:Ef;
      [reflexivity |].
    simpl. intros Hs. rewrite (Hw Hs) in Ef. discriminate.
Qed.

Lemma run_nothing_waits evs st st' out :
  nothing_waits st -> run cfg st evs = Done tt st' out -> nothing_waits st'.
Proof.
  revert st out. induction evs as [|[id value md|] evs IH]; intros st out Hw H;
    simpl in H; try (injection H as <- _; exact Hw).
  destruct (handle cfg st id value md) as [[] st1 out1|] eqn:E1;
    [| discriminate].
  destruct (run cfg st1 evs) as [[] st2 out2|] eqn:E2; [| discriminate].
  injection H as <- _.
  destruct (handle_out st id value md) as (_ & _ & Hstep).
  rewrite E1 in Hstep. exact (IH st1 out2 (Hstep Hw st1 out1 eq_refl) E2).
Qed.

Lemma handle_done st id value metadata :
  punctuation_marks cfg <> [] ->
  has_value (Input id value metadata) = true ->
  exists st' out, handle cfg st id value metadata = Done tt st' out.
Proof.
  intros Hm Hv.
  assert (Htext : forall s t mref, exists st' out,
            on_text cfg s t mref = Done tt st' out).
  { intros s t mref. unfold on_text, segment_by_punctuation.
    destruct (negb (truthy _)).
    - destruct (is_sending s), (segment_queue s ++ _); eauto.
    - destruct (segment_loop _ _ _) as [segs inc].
      destruct (is_sending s), (segment_queue s ++ _); eauto. }
  unfold handle. simpl in Hv.
  destruct (String.eqb id "text").
  { destruct value as [t|]; [| discriminate].
    destruct (option_eqb _ _ _); [| apply Htext].
    destruct (on_session_ended _ _) as [st1 out1].
    destruct (negb (truthy (strip t))); [eauto |].
    destruct (Htext st1 t (length (heap st))) as (st2 & out2 & ->). eauto. }
  destruct (String.eqb id "tts_complete").
  { destruct (segment_queue st); [destruct (pending_session_end st) |]; eauto. }
  destruct (String.eqb id "control").
  { destruct value as [c|]; [| discriminate]. destruct (str_eqb c _); eauto. }
  destruct (String.eqb id "reset"); [| eauto].
  destruct (option_eqb _ _ _); [eauto |].
  destruct (question_id metadata); eauto.
Qed.

End Sending.

End SingleRun.

(** X14: single mode sends at most one value per event, whatever the
    state and the event, also when the handler raises. *)
Theorem single_one_send_per_event {U : UnicodeTables} (cfg : Single.Config)
    (st : Single.State) (id : string) (value : option str)
    (metadata : Single.Meta) :
  (length (outputs (Single.handle cfg st id value metadata)) <= 1)%nat.
Proof. exact (proj1 (SingleRun.handle_out cfg st id value metadata)). Qed.

(** X15: backpressure in single mode: while a segment is in flight
    ([is_sending]), a text event sends nothing, whatever it queues, and
    leaves the flag set; only [tts_complete] moves the queue on. *)
Theorem single_text_waits_for_completion {U : UnicodeTables}
    (cfg : Single.Config) (st : Single.State) (value : option str)
    (metadata : Single.Meta) :
  Single.is_sending st = true ->
  outputs (Single.handle cfg st "text" value metadata) = []
  /\ forall st' out,
       Single.handle cfg st "text" value metadata = Done tt st' out ->
       Single.is_sending st' = true.
Proof.
  intros Hs.
  exact (proj1 (proj2 (SingleRun.handle_out cfg st "text" value metadata))
           eq_refl Hs).
Qed.

Lemma single_text_waits_for_completion_witness :
  outputs (Single.handle S1_cfg
             (Single.mk_state [] [] true None [] false Single.empty_meta)
             "text" (Some (lit "One. Two.")) S1_chunk) = []
  /\ forall st' out,
       Single.handle S1_cfg
         (Single.mk_state [] [] true None [] false Single.empty_meta)
         "text" (Some (lit "One. Two.")) S1_chunk = Done tt st' out ->
       Single.is_sending st' = true.
Proof.
  apply (single_text_waits_for_completion S1_cfg
           (Single.mk_state [] [] true None [] false Single.empty_meta)).
  reflexivity.
Defined.

(** X16: no deadlock in single mode: after any run from the initial
    state, whenever no segment is in flight the queue is empty, so a
    queued segment always has an acknowledgement to wait for. *)
Theorem single_nothing_waits {U : UnicodeTables} (cfg : Single.Config)
    (evs : list Single.Event) (st : Single.State)
    (out : list Single.Emission) :
  Single.run cfg Single.init evs = Done tt st out ->
  Single.is_sending st = false -> Single.segment_queue st = [].
Proof.
  intros H. apply (SingleRun.run_nothing_waits cfg evs Single.init st out);
    [intros _; reflexivity | exact H].
Qed.

Lemma single_nothing_waits_witness :
  Single.segment_queue two_sentences_state = [].
Proof.
  apply (single_nothing_waits (U := ascii_tables) S1_cfg two_sentences_events
           two_sentences_state
           [Single.mk_emission "text_segment" (lit "One.Two.") S1_chunk]).
  - vm_compute. reflexivity.
  - reflexivity.
Defined.

(** X17: single mode does not raise as long as the punctuation string is
    not empty and every [text] and [control] event carries a value: from
    any state, the run over such events ends normally. *)
Theorem single_run_completes {U : UnicodeTables} (cfg : Single.Config)
    (evs : list Single.Event) (st : Single.State) :
  Single.punctuation_marks cfg <> [] ->
  forallb has_value evs = true ->
  exists st' out, Single.run cfg st evs = Done tt st' out.
Proof.
  intros Hm. revert st.
  induction evs as [|[id value md|] evs IH]; intros st Hv; simpl; eauto.
  simpl in Hv. apply andb_prop in Hv as [Hv Hvs].
  destruct (SingleRun.handle_done cfg st id value md Hm Hv)
    as (st1 & out1 & ->).
  destruct (IH st1 Hvs) as (st2 & out2 & ->). eauto.
Qed.

Lemma single_run_completes_witness :
  exists st' out,
    Single.run S1_cfg Single.init S1_events = Done tt st' out.
Proof.
  apply (single_run_completes (U := ascii_tables) S1_cfg S1_events Single.init);
    [discriminate | reflexivity].
Defined.

(** ** Conference mode: who sends, and when *)

Module MultiFloor.
Import Multi MultiWp.

Section WpRules.

Context {A B : Type} (E : Prop).

Lemma wp_ret (a : A) (Q : A -> State -> list Emission -> Prop) st :
  Q a st [] -> wp E (ret a) Q st.
Proof. intros H. exact H. Qed.

Lemma wp_bind (m : M A) (k : A -> M B)
    (Q : B -> State -> list Emission -> Prop) st :
  wp E m (fun a st1 out1 =>
            wp E (k a) (fun b st2 out2 => Q b st2 (out1 ++ out2)) st1) st ->
  wp E (bind m k) Q st.
Proof.
  unfold wp, bind. destruct (m st) as [a st1 out1|e out1]; [| auto].
  destruct (k a st1); auto.
Qed.

Lemma wp_mono (m : M A) (Q Q' : A -> State -> list Emission -> Prop) st :
  wp E m Q st -> (forall a st' out, Q a st' out -> Q' a st' out) ->
  wp E m Q' st.
Proof. unfold wp. destruct (m st); auto. Qed.

Lemma wp_weaken (m : M A) (Q : A -> State -> list Emission -> Prop) st :
  wp False m Q st -> wp E m Q st.
Proof. unfold wp. destruct (m st); [auto | contradiction]. Qed.

Lemma wp_read {V : Type} (d : State -> gmap string V) (k : string)
    (Q : V -> State -> list Emission -> Prop) st :
  (forall v, d st !! k = Some v -> Q v st []) -> (d st !! k = None -> E) ->
  wp E (read d k) Q st.
Proof. unfold wp, read. destruct (d st !! k); auto. Qed.

Lemma wp_lift (r : result A) (Q : A -> State -> list Emission -> Prop) st :
  (forall a, r = Ok a -> Q a st []) -> (forall e, r = Raise e -> E) ->
  wp E (lift r) Q st.
Proof. unfold wp, lift. destruct r; eauto. Qed.

End WpRules.

Section MoreWpRules.

Context (E : Prop).

Lemma wp_get (Q : State -> State -> list Emission -> Prop) st :
  Q st st [] -> wp E get Q st.
Proof. intros H. exact H. Qed.

Lemma wp_modify (f : State -> State)
    (Q : unit -> State -> list Emission -> Prop) st :
  Q tt (f st) [] -> wp E (modify f) Q st.
Proof. intros H. exact H. Qed.

Lemma wp_send_output (e : Emission)
    (Q : unit -> State -> list Emission -> Prop) st :
  Q tt st [e] -> wp E (send_output e) Q st.
Proof. intros H. exact H. Qed.

Lemma wp_when (b : bool) (m : M unit)
    (Q : unit -> State -> list Emission -> Prop) st :
  (b = true -> wp E m Q st) -> (b = false -> Q tt st []) ->
  wp E (when b m) Q st.
Proof.
  intros Ht Hf. destruct b; [apply Ht; reflexivity |].
  apply wp_ret, Hf. reflexivity.
Qed.

(** A loop whose body sends nothing and keeps [I]. *)
Lemma wp_for_each {X : Type} (I : State -> Prop) (l : list X)
    (body : X -> M unit) st :
  I st ->
  (forall x s, x ∈ l -> I s ->
               wp E (body x) (fun _ s' out => I s' /\ out = []) s) ->
  wp E (for_each l body) (fun _ s' out => I s' /\ out = []) st.
Proof.
  revert st. induction l as [|x l IH]; intros st HI Hbody; simpl.
  - apply wp_ret. auto.
  - apply wp_bind. eapply wp_mono.
    + apply Hbody; [left | exact HI].
    + intros [] s out [Hs ->]. simpl. apply IH; [exact Hs |].
      intros y s' Hy. apply Hbody. now right.
Qed.

End MoreWpRules.

Ltac wstep := cbv beta; lazymatch goal with
  | |- wp _ (bind _ _) _ _ => apply wp_bind
  | |- wp _ (ret _) _ _ => apply wp_ret
  | |- wp _ get _ _ => apply wp_get
  | |- wp _ (modify _) _ _ => apply wp_modify
  | |- wp _ (send_output _) _ _ => apply wp_send_output
  | |- wp _ (read _ _) _ _ => apply wp_read; [| try (intros _; exact I)]
  | |- wp _ (lift _) _ _ => apply wp_lift; [| try (intros ? _; exact I)]
  | |- wp _ (when _ _) _ _ => apply wp_when; intros ?
  end.

Ltac wcall L := cbv beta; first
  [ eapply wp_mono; [apply L | intros [] ? ?]
  | apply wp_bind; eapply wp_mono; [apply L | intros [] ? ?] ].

Section Floor.

Context (cfg : Config).

Lemma quiet_refl st : quiet st st [].
Proof. repeat split. Qed.

Lemma keeps_floor_refl st : keeps_floor st st [].
Proof.
  split; [reflexivity |]. split; [now left |].
  intros a Ha. split; [exact Ha | reflexivity].
Qed.

Lemma kick_start_sending_floor p st :
  wp True (kick_start_sending p)
    (fun _ st' out =>
       participant_names st' = participant_names st
       /\ active_queue st' = active_queue st
       /\ (out = [] \/ exists segment, out = [emission_of p segment])) st.
Proof.
  unfold kick_start_sending. wstep. wstep. intros q _.
  destruct q as [|segment q']; repeat wstep; simpl; eauto 6.
Qed.

Lemma activate_floor next st :
  wp True (activate next)
    (fun _ st' out =>
       participant_names st' = participant_names st
       /\ (active_queue st' = active_queue st /\ out = []
           \/ exists p, active_queue st' = Some p
                /\ (out = [] \/ exists segment, out = [emission_of p segment])))
    st.
Proof.
  unfold activate. destruct next as [p|]; [| wstep; auto].
  destruct (truthy_name p); [| wstep; auto].
  wstep. wstep. wcall kick_start_sending_floor.
  intros (Hn & Ha & Ho). simpl in *. split; [exact Hn |]. right. eauto.
Qed.

Lemma try_activate_queue_floor st :
  wp True try_activate_queue (fun _ => keeps_floor st) st.
Proof.
  unfold try_activate_queue. wstep. wstep.
  destruct (active_queue st) as [a|] eqn:Ea.
  - wstep. apply keeps_floor_refl.
  - wstep. wstep. intros next _. wcall activate_floor.
    intros (Hn & H). simpl. split; [exact Hn |].
    split; [| intros a Ha; congruence].
    destruct H as [[_ ->]|(p & Hp & [->|(segment & ->)])];
      [now left | now left | right; eauto].
Qed.

Lemma send_next_segment_for_participant_floor p st :
  wp False (send_next_segment_for_participant p)
    (fun _ st' out =>
       participant_names st' = participant_names st
       /\ active_queue st' = active_queue st
       /\ buffer_control_paused st' = buffer_control_paused st
       /\ audio_buffer_level st' = audio_buffer_level st
       /\ (out = [] \/ exists segment, out = [emission_of p segment])) st.
Proof.
  unfold send_next_segment_for_participant. wstep. wstep.
  destruct (segment_queues st !! p) as [[|segment q']|];
    repeat wstep; simpl; eauto 10.
Qed.

Lemma log_participants_state_quiet st :
  wp True log_participants_state (fun _ => quiet st) st.
Proof.
  unfold log_participants_state. wstep. wstep.
  eapply wp_mono.
  - apply wp_for_each
      with (I := fun s => participant_names s = participant_names st
                          /\ active_queue s = active_queue st); [auto |].
    intros p s _ Hs. wstep. wstep. intros ? _. wstep. wstep. intros ? _.
    wstep. auto.
  - intros [] s out [[Hn Ha] ->]. repeat split; assumption.
Qed.

Lemma complete_session_and_activate_next_floor p st :
  wp True (complete_session_and_activate_next p)
    (fun _ st' out =>
       participant_names st' = participant_names st
       /\ sends_on_active st' out) st.
Proof.
  unfold complete_session_and_activate_next. wstep. wstep. intros ts _.
  apply wp_bind.
  apply wp_mono
    with (Q := fun _ s out => participant_names s = participant_names st
                              /\ out = []).
  { wstep; [wstep |]; auto. }
  intros [] s1 out1 [Hn1 ->]. wstep. wstep.
  wcall log_participants_state_quiet. intros (Hn2 & _ & ->).
  wstep. wstep. wstep. wstep. intros next _. wcall activate_floor.
  intros (Hn3 & H). simpl in *. split; [congruence |].
  destruct H as [[_ ->]|(q & Hq & [->|(segment & ->)])];
    [now left | now left | right; eauto].
Qed.

Lemma enqueue_segments_quiet p segs md st :
  wp True (enqueue_segments cfg p segs md) (fun _ => quiet st) st.
Proof.
  unfold enqueue_segments. eapply wp_mono.
  - apply wp_for_each
      with (I := fun s => participant_names s = participant_names st
                          /\ active_queue s = active_queue st); [auto |].
    intros t s _ Hs. wstep; [| auto]. wstep. wstep. intros q _.
    wstep. wstep. intros sid _. wstep. auto.
  - intros [] s out [[Hn Ha] ->]. repeat split; assumption.
Qed.

Lemma keeps_floor_after st s st' out :
  participant_names s = participant_names st ->
  active_queue s = active_queue st ->
  keeps_floor s st' out -> keeps_floor st st' out.
Proof.
  intros Hn Ha (H1 & H2 & H3). split; [congruence |]. split; [exact H2 |].
  intros a Hact. apply H3. congruence.
Qed.

Lemma process_chunk_floor p t st :
  wp True (process_chunk cfg p t) (fun _ => keeps_floor st) st.
Proof.
  unfold process_chunk. wstep. wstep. intros buf _. wstep. wstep.
  intros [[complete_segments incomplete_text] keep_incomplete] _.
  wstep. wstep. wstep. wstep. intros ts _.
  wcall enqueue_segments_quiet. intros (Hn & Ha & ->).
  wcall try_activate_queue_floor. simpl. intros H.
  exact (keeps_floor_after st _ _ _ Hn Ha H).
Qed.

Lemma on_session_start_floor p ev t st :
  wp True (on_session_start cfg p ev t) (fun _ => keeps_floor st) st.
Proof.
  unfold on_session_start. wstep. wstep. intros ts _. repeat wstep.
  wcall process_chunk_floor. simpl. intros H.
  exact (keeps_floor_after st _ _ _ eq_refl eq_refl H).
Qed.

Lemma on_session_chunk_floor p t st :
  wp True (on_session_chunk cfg p t) (fun _ => keeps_floor st) st.
Proof.
  unfold on_session_chunk. wstep. wstep. intros cs _.
  destruct cs; [wcall process_chunk_floor; simpl; auto |].
  wstep. apply keeps_floor_refl.
Qed.

Lemma on_session_end_floor p st :
  wp True (on_session_end cfg p) (fun _ => keeps_floor st) st.
Proof.
  unfold on_session_end. wstep. wstep. intros cs _.
  destruct cs; [| wstep; apply keeps_floor_refl].
  wstep. wstep. intros ts _. wstep. wstep. intros buf _. apply wp_bind.
  apply wp_mono with (Q := fun _ => quiet st).
  - destruct (truthy (strip buf)).
    + wstep. apply wp_when; intros Hk.
      * wstep. wstep. intros q _. wstep. wstep. intros sid _. wstep. wstep.
        repeat split.
      * wstep. repeat split.
    + wstep. wstep. intros q _. wstep; [wstep |]; repeat split.
  - intros [] s1 out1 (Hn & Ha & ->). wstep. wstep.
    wcall try_activate_queue_floor. simpl. intros H.
    exact (keeps_floor_after st _ _ _ Hn Ha H).
Qed.

Lemma ensure_participant_initialized_floor p st :
  wp False (ensure_participant_initialized p)
    (fun _ st' out =>
       participant_names st' = discover (participant_names st) p
       /\ active_queue st' = active_queue st /\ out = []) st.
Proof.
  unfold ensure_participant_initialized, discover. wstep. wstep.
  destruct (bool_decide _); wstep; auto.
Qed.

Lemma on_participant_text_floor ev st :
  wp True (on_participant_text cfg ev)
    (fun _ st' out =>
       participant_names st' = discover (participant_names st) (ev_id ev)
       /\ sends_on_active st' out
       /\ forall a, active_queue st = Some a ->
                    active_queue st' = Some a /\ out = []) st.
Proof.
  unfold on_participant_text. apply wp_bind. eapply wp_mono.
  { apply wp_weaken, ensure_participant_initialized_floor. }
  intros [] s1 out1 (Hn & Ha & ->).
  assert (H : forall st' out, keeps_floor s1 st' out ->
            participant_names st' = discover (participant_names st) (ev_id ev)
            /\ sends_on_active st' out
            /\ forall a, active_queue st = Some a ->
                         active_queue st' = Some a /\ out = []).
  { intros st' out (H1 & H2 & H3). rewrite <- Ha, <- Hn. auto. }
  destruct (String.eqb _ _);
    [wcall on_session_start_floor; simpl; apply H |].
  destruct (String.eqb _ _);
    [wcall on_session_chunk_floor | wcall on_session_end_floor];
    simpl; apply H.
Qed.

Lemma on_audio_complete_floor ev st :
  wp True (on_audio_complete ev)
    (fun _ st' out =>
       participant_names st' = participant_names st
       /\ sends_on_active st' out) st.
Proof.
  unfold on_audio_complete.
  destruct (md_participant ev) as [p|]; [| wstep; split; [auto | now left]].
  destruct (negb (truthy_name p)); [wstep; split; [auto | now left] |].
  wstep. wstep. wstep. wstep. intros end_sent _. wstep. wstep. simpl.
  destruct (end_sent && _).
  { wcall complete_session_and_activate_next_floor. intros [Hn Hs].
    wstep. simpl. split; [exact Hn |]. rewrite app_nil_r.
    destruct Hs as [->|(a & segment & Ha & ->)]; [now left | right; eauto]. }
  case_bool_decide as Hact; simpl; [| wstep; split; [auto | now left]].
  destruct (buffer_control_paused st); [wstep; split; [auto | now left] |].
  wstep. wstep. intros q _.
  destruct q as [|segment q']; [wstep; split; [auto | now left] |].
  repeat wstep; simpl; (split; [reflexivity |]); right; eauto.
Qed.

Lemma for_each_reset_quiet (body : string -> M unit) names st :
  (forall p s, wp True (body p)
                 (fun _ s' out => participant_names s' = participant_names s
                                  /\ out = []) s) ->
  wp True (for_each names body)
    (fun _ s' out => participant_names s' = participant_names st /\ out = [])
    st.
Proof.
  intros Hbody.
  apply wp_for_each
    with (I := fun s => participant_names s = participant_names st);
    [reflexivity |].
  intros p s _ Hs. eapply wp_mono; [apply Hbody |].
  intros [] s' out [Hn ->]. split; [congruence | reflexivity].
Qed.

Lemma on_control_floor ev st :
  wp True (on_control ev)
    (fun _ st' out => participant_names st' = participant_names st
                      /\ out = []) st.
Proof.
  unfold on_control. destruct (_ || _); [| wstep; auto].
  destruct (md_question_id ev) as [c|].
  - unfold smart_reset. wstep. wstep. apply wp_bind. eapply wp_mono.
    + apply for_each_reset_quiet. intros p s. wstep. wstep. intros q _.
      wstep. wstep. wstep; [repeat wstep |]; auto.
    + intros [] s out [Hn ->]. repeat wstep. auto.
  - unfold global_reset. wstep. wstep. apply wp_bind. eapply wp_mono.
    + apply for_each_reset_quiet. intros p s. wstep. wstep. intros q _.
      wstep. wstep. wstep. wstep. wstep. wstep. intros ts _.
      repeat wstep. auto.
    + intros [] s out [Hn ->]. repeat wstep. auto.
Qed.

Lemma handle_audio_buffer_control_floor q low high st :
  wp False (handle_audio_buffer_control q low high)
    (fun _ st' out =>
       participant_names st' = participant_names st
       /\ active_queue st' = active_queue st
       /\ audio_buffer_level st' = q
       /\ buffer_control_paused st'
          = (if Qltb (inject_Z high) q && negb (buffer_control_paused st)
             then true
             else if Qltb q (inject_Z low) && buffer_control_paused st
                  then false
                  else buffer_control_paused st)
       /\ (out = []
           \/ exists a segment,
                active_queue st = Some a /\ out = [emission_of a segment]
                /\ buffer_control_paused st = true
                /\ buffer_control_paused st' = false)) st.
Proof.
  unfold handle_audio_buffer_control. wstep. wstep. wstep. wstep. simpl.
  destruct (Qltb (inject_Z high) q && negb (buffer_control_paused st)) eqn:E1.
  { wstep. simpl. auto 10. }
  destruct (Qltb q (inject_Z low) && buffer_control_paused st) eqn:E2;
    [| wstep; simpl; auto 10].
  wstep. wstep. apply andb_prop in E2 as [_ Hp].
  destruct (active_queue st) as [a|] eqn:Ea; [| wstep; simpl; auto 10].
  destruct (truthy_name a); [| wstep; simpl; auto 10].
  destruct (segment_queues st !! a) as [[|s q']|] eqn:Eq;
    try (wstep; simpl; auto 10).
  eapply wp_mono; [apply send_next_segment_for_participant_floor |].
  intros [] st' out (Hn & Ha & Hpa & Hl & Ho). simpl in *.
  repeat split; try assumption; [congruence |].
  destruct Ho as [->|(segment & ->)]; [now left |].
  right. exists a, segment. auto.
Qed.

Lemma on_audio_buffer_control_floor ev st :
  wp True (on_audio_buffer_control cfg ev)
    (fun _ st' out =>
       participant_names st' = participant_names st
       /\ active_queue st' = active_queue st
       /\ sends_on_active st' out) st.
Proof.
  unfold on_audio_buffer_control.
  destruct (ev_number ev) as [q|];
    [| destruct (metadata_truthy ev);
       [exact I | wstep; repeat split; now left]].
  eapply wp_mono; [apply wp_weaken, handle_audio_buffer_control_floor |].
  intros [] st' out (Hn & Ha & _ & _ & Ho). repeat split; try assumption.
  destruct Ho as [->|(a & segment & Hact & -> & _)]; [now left |].
  right. exists a, segment. split; [congruence | reflexivity].
Qed.

Lemma handle_floor ev st :
  wp True (handle cfg ev)
    (fun _ st' out =>
       participant_names st' = discovered (participant_names st) [ev]
       /\ sends_on_active st' out
       /\ (is_participant_port (ev_id ev) = true ->
           forall a, active_queue st = Some a ->
                     active_queue st' = Some a /\ out = [])) st.
Proof.
  unfold handle, discovered. simpl.
  destruct (is_participant_port (ev_id ev)) eqn:Eport.
  { eapply wp_mono; [apply on_participant_text_floor |].
    intros [] st' out (Hn & Hs & Ha). auto. }
  destruct (String.eqb _ _).
  { eapply wp_mono; [apply on_audio_complete_floor |].
    intros [] st' out (Hn & Hs).
    split; [exact Hn |]. split; [exact Hs | discriminate]. }
  destruct (String.eqb _ _).
  { eapply wp_mono; [apply on_audio_buffer_control_floor |].
    intros [] st' out (Hn & _ & Hs).
    split; [exact Hn |]. split; [exact Hs | discriminate]. }
  destruct (_ || _).
  { eapply wp_mono; [apply on_control_floor |].
    intros [] st' out (Hn & ->).
    split; [exact Hn |]. split; [now left | discriminate]. }
  wstep. split; [reflexivity |]. split; [now left | discriminate].
Qed.

Lemma run_cons ev evs st :
  run cfg (ev :: evs) st
  = match handle cfg ev st with
    | Crash e out1 => Crash e out1
    | Done _ st1 out1 =>
        match run cfg evs st1 with
        | Crash e out2 => Crash e (out1 ++ out2)
        | Done b st2 out2 => Done b st2 (out1 ++ out2)
        end
    end.
Proof. reflexivity. Qed.

Lemma run_discovered evs st st' out :
  run cfg evs st = Done tt st' out ->
  participant_names st' = discovered (participant_names st) evs.
Proof.
  revert st out. induction evs as [|ev evs IH]; intros st out H.
  - injection H as <- _. reflexivity.
  - rewrite run_cons in H. pose proof (handle_floor ev st) as Hh.
    unfold wp in Hh. destruct (handle cfg ev st) as [[] st1 out1|];
      [| discriminate].
    destruct (run cfg evs st1) as [[] st2 out2|] eqn:E; [| discriminate].
    injection H as <- _. destruct Hh as [Hn _].
    rewrite (IH st1 out2 E), Hn. reflexivity.
Qed.

End Floor.

End MultiFloor.

(** X18: in conference mode an event whose handler returns has sent at
    most one segment, and it went to the port of the participant that
    is the active queue when the handler returns: nobody but the active
    participant is sent to. *)
Theorem conference_one_send_on_active_port
    (cfg : Multi.Config) (ev : Multi.Event) (st st' : Multi.State)
    (out : list Multi.Emission) :
  Multi.handle cfg ev st = Done tt st' out ->
  out = []
  \/ exists a segment,
       Multi.active_queue st' = Some a
       /\ out = [Multi.emission_of a segment].
Proof.
  intros H. pose proof (MultiFloor.handle_floor cfg ev st) as Hh.
  unfold MultiWp.wp in Hh. rewrite H in Hh. exact (proj1 (proj2 Hh)).
Qed.

Lemma conference_one_send_on_active_port_witness :
  [Multi.mk_emission "text_segment_pA" (lit "Hello.") (Some "s1"%string)
     None "started"] = []
  \/ exists a segment,
       Multi.active_queue hello_state = Some a
       /\ [Multi.mk_emission "text_segment_pA" (lit "Hello.")
             (Some "s1"%string) None "started"]
          = [Multi.emission_of a segment].
Proof.
  apply (conference_one_send_on_active_port cfg0
           (started_on "pA" 1%Q "s1" (lit "Hello.")) Multi.init).
  vm_compute. reflexivity.
Defined.

(** X19: while a participant holds the floor, a text event of any
    participant, that one included, is only buffered and queued: when
    its handler returns, nothing has been sent and the active queue is
    the same. *)
Theorem conference_text_waits_for_the_floor
    (cfg : Multi.Config) (ev : Multi.Event) (st st' : Multi.State)
    (out : list Multi.Emission) (a : string) :
  Multi.is_participant_port (Multi.ev_id ev) = true ->
  Multi.active_queue st = Some a ->
  Multi.handle cfg ev st = Done tt st' out ->
  out = [] /\ Multi.active_queue st' = Some a.
Proof.
  intros Hport Ha H. pose proof (MultiFloor.handle_floor cfg ev st) as Hh.
  unfold MultiWp.wp in Hh. rewrite H in Hh.
  destruct (proj2 (proj2 Hh) Hport a Ha). auto.
Qed.

Lemma conference_text_waits_for_the_floor_witness :
  @nil Multi.Emission = [] /\ Multi.active_queue hello_with_pB = Some "pA"%string.
Proof.
  apply (conference_text_waits_for_the_floor cfg0 (chunk_on "pB" (lit "Hi."))
           hello_state hello_with_pB [] "pA");
    [reflexivity | reflexivity | vm_compute; reflexivity].
Defined.

(** X20: after a run that ends normally, the participants are kept in
    the order in which their ports first delivered an event; nothing
    has removed one: not a reset, not the end of its sessions. *)
Theorem participants_in_order_of_discovery
    (cfg : Multi.Config) (evs : list Multi.Event) (st : Multi.State)
    (out : list Multi.Emission) :
  Multi.run cfg evs Multi.init = Done tt st out ->
  Multi.participant_names st = MultiWp.discovered [] evs.
Proof. exact (MultiFloor.run_discovered cfg evs Multi.init st out). Qed.

Lemma participants_in_order_of_discovery_witness :
  Multi.participant_names hello_state = MultiWp.discovered [] hello_events.
Proof.
  apply (participants_in_order_of_discovery cfg0 hello_events hello_state
           [Multi.mk_emission "text_segment_pA" (lit "Hello.")
              (Some "s1"%string) None "started"]).
  vm_compute. reflexivity.
Defined.

(** X21: the gate of the audio buffer is a hysteresis.  With the low
    mark not above the high mark, a fill above the high mark closes the
    gate, a fill below the low mark opens it, any other fill leaves it
    as it is.  A telemetry event that carries a number does not raise,
    records the fill, leaves the active queue alone, and sends a segment
    only when it reopens the gate, to the active participant.  A
    telemetry event without a number is dropped when its metadata is
    empty, and raises [AttributeError] otherwise. *)
Theorem buffer_gate_hysteresis
    (cfg : Multi.Config) (ev : Multi.Event) (st : Multi.State) :
  Multi.AUDIO_BUFFER_LOW_WATER_MARK cfg <= Multi.AUDIO_BUFFER_HIGH_WATER_MARK cfg ->
  Multi.ev_id ev = "audio_buffer_control"%string ->
  match Multi.ev_number ev with
  | Some q =>
      exists st' out,
        Multi.handle cfg ev st = Done tt st' out
        /\ Multi.audio_buffer_level st' = q
        /\ Multi.active_queue st' = Multi.active_queue st
        /\ Multi.buffer_control_paused st'
           = (if Multi.Qltb (inject_Z (Multi.AUDIO_BUFFER_HIGH_WATER_MARK cfg)) q
              then true
              else if Multi.Qltb q
                        (inject_Z (Multi.AUDIO_BUFFER_LOW_WATER_MARK cfg))
                   then false
                   else Multi.buffer_control_paused st)
        /\ (out = []
            \/ exists a segment,
                 Multi.active_queue st = Some a
                 /\ out = [Multi.emission_of a segment]
                 /\ Multi.buffer_control_paused st = true
                 /\ Multi.buffer_control_paused st' = false)
  | None =>
      Multi.handle cfg ev st
      = if Multi.metadata_truthy ev then Crash AttributeError []
        else Done tt st []
  end.
Proof.
  intros Hmarks Hid.
  assert (Eh : Multi.handle cfg ev st = Multi.on_audio_buffer_control cfg ev st)
    by (unfold Multi.handle; rewrite Hid; reflexivity).
  rewrite Eh. unfold Multi.on_audio_buffer_control.
  destruct (Multi.ev_number ev) as [q|];
    [| now destruct (Multi.metadata_truthy ev)].
  pose proof (MultiFloor.handle_audio_buffer_control_floor q
                (Multi.AUDIO_BUFFER_LOW_WATER_MARK cfg)
                (Multi.AUDIO_BUFFER_HIGH_WATER_MARK cfg) st) as H.
  unfold MultiWp.wp in H.
  destruct (Multi.handle_audio_buffer_control _ _ _ st) as [[] st' out|];
    [| contradiction].
  destruct H as (_ & Ha & Hl & Hp & Ho). exists st', out.
  repeat split; try assumption. rewrite Hp.
  destruct (Multi.Qltb (inject_Z _) q) eqn:Ehi;
    destruct (Multi.Qltb q (inject_Z _)) eqn:Elo;
    destruct (Multi.buffer_control_paused st); try reflexivity.
  exfalso. apply Qltb_true in Ehi, Elo.
  assert (Hlt := Qlt_trans _ _ _ Ehi Elo).
  rewrite <- Zlt_Qlt in Hlt. lia.
Qed.

Lemma buffer_gate_hysteresis_witness :
  exists st' out,
    Multi.handle cfg0 (Multi.buffer_event 70%Q) hello_state = Done tt st' out
    /\ Multi.audio_buffer_level st' = 70%Q
    /\ Multi.active_queue st' = Multi.active_queue hello_state
    /\ Multi.buffer_control_paused st'
       = (if Multi.Qltb (inject_Z (Multi.AUDIO_BUFFER_HIGH_WATER_MARK cfg0))
                        70%Q
          then true
          else if Multi.Qltb 70%Q
                    (inject_Z (Multi.AUDIO_BUFFER_LOW_WATER_MARK cfg0))
               then false
               else Multi.buffer_control_paused hello_state)
    /\ (out = []
        \/ exists a segment,
             Multi.active_queue hello_state = Some a
             /\ out = [Multi.emission_of a segment]
             /\ Multi.buffer_control_paused hello_state = true
             /\ Multi.buffer_control_paused st' = false).
Proof.
  apply (buffer_gate_hysteresis cfg0 (Multi.buffer_event 70%Q) hello_state);
    [simpl; lia | reflexivity].
Defined.

(** ** Conference mode: runs that do not raise *)

Module MultiCompletes.
Import Multi MultiWp MultiRun MultiFloor.






Section Completes.

Context (cfg : Config).





















End Completes.

End MultiCompletes.



(** ** Conference mode: events that are dropped *)

Section Dropped.
Import Multi.

Lemma truthy_name_true (p : string) : p <> ""%string -> truthy_name p = true.
Proof.
  intros H. unfold truthy_name. now destruct (String.eqb_spec p "").
Qed.

Lemma detect_session_event_chunk_or_end (status : option string) :
  status <> Some "started"%string ->
  detect_session_event status = "SESSION_CHUNK"%string
  \/ detect_session_event status = "SESSION_END"%string.
Proof.
  intros H. unfold detect_session_event. destruct status as [s|]; [| now left].
  destruct (String.eqb_spec s "started"); [congruence |].
  destruct (String.eqb s "ended"); auto.
Qed.

End Dropped.

(** X23: an acknowledgement of a known participant that does not hold
    the floor, or that arrives for the active participant while the gate
    of the audio buffer is closed (and not for a last chunk), sends
    nothing: it clears the busy flag of the participant and changes
    nothing else. *)
Theorem acknowledgement_ignored
    (cfg : Multi.Config) (ev : Multi.Event) (p : string) (end_sent : bool)
    (st : Multi.State) :
  Multi.ev_id ev = "audio_complete"%string ->
  Multi.md_participant ev = Some p ->
  p <> ""%string ->
  Multi.last_session_end_sent st !! p = Some end_sent ->
  Multi.active_queue st <> Some p
  \/ (end_sent = false /\ Multi.buffer_control_paused st = true) ->
  Multi.handle cfg ev st
  = Done tt (Multi.set_is_sending <[p := false]> st) [].
Proof.
  intros Hid Hp Hne Hes Hcase.
  unfold Multi.handle. rewrite Hid.
  change (Multi.is_participant_port "audio_complete") with false.
  cbn [String.eqb Ascii.eqb Bool.eqb andb].
  unfold Multi.on_audio_complete. rewrite Hp, (truthy_name_true p Hne).
  unfold Multi.bind, Multi.modify, Multi.read, Multi.get. simpl.
  rewrite Hes. simpl.
  destruct Hcase as [Hact|[-> Hpaused]].
  - case_bool_decide; [contradiction |]. rewrite andb_false_r. reflexivity.
  - simpl. case_bool_decide; [| reflexivity]. simpl. rewrite Hpaused.
    reflexivity.
Qed.

Lemma acknowledgement_ignored_witness :
  Multi.handle cfg0 (Multi.audio_complete_event (Some "pB"%string)) S5_state
  = Done tt (Multi.set_is_sending <["pB"%string := false]> S5_state) [].
Proof.
  apply (acknowledgement_ignored cfg0
           (Multi.audio_complete_event (Some "pB"%string)) "pB" false S5_state);
    [reflexivity | reflexivity | discriminate | reflexivity |].
  left. discriminate.
Defined.

(** X24: text without an open session is dropped.  A participant event
    that is not a session start, for a participant that is new or whose
    current session is closed, does nothing but register the
    participant: no text is buffered or queued and nothing is sent. *)
Theorem text_without_session_dropped
    (cfg : Multi.Config) (ev : Multi.Event) (st : Multi.State) :
  Multi.is_participant_port (Multi.ev_id ev) = true ->
  Multi.md_session_status ev <> Some "started"%string ->
  Multi.ev_id ev ∉ Multi.participant_names st
  \/ Multi.current_session st !! Multi.ev_id ev = Some None ->
  Multi.handle cfg ev st
  = Multi.ensure_participant_initialized (Multi.ev_id ev) st
  /\ outputs (Multi.handle cfg ev st) = [].
Proof.
  intros Hport Hstatus Hclosed.
  assert (H : Multi.handle cfg ev st
              = Multi.ensure_participant_initialized (Multi.ev_id ev) st).
  { unfold Multi.handle. rewrite Hport. unfold Multi.on_participant_text.
    unfold Multi.bind at 1.
    unfold Multi.ensure_participant_initialized, Multi.bind, Multi.get,
      Multi.modify, Multi.ret.
    case_bool_decide as Hin; cbv beta iota zeta;
      (destruct (detect_session_event_chunk_or_end _ Hstatus) as [-> | ->];
       cbn [String.eqb Ascii.eqb Bool.eqb andb];
       unfold Multi.on_session_chunk, Multi.on_session_end, Multi.bind,
         Multi.read).
    - destruct Hclosed as [Hc|Hc]; [contradiction |]. now rewrite Hc.
    - destruct Hclosed as [Hc|Hc]; [contradiction |]. now rewrite Hc.
    - simpl. now rewrite lookup_insert_eq.
    - simpl. now rewrite lookup_insert_eq. }
  split; [exact H |]. rewrite H.
  unfold Multi.ensure_participant_initialized, Multi.bind, Multi.get,
    Multi.modify, Multi.ret.
  now destruct (bool_decide _).
Qed.

Lemma text_without_session_dropped_witness :
  Multi.handle cfg0 (chunk_on "pA" (lit "Lost.")) Multi.init
  = Multi.ensure_participant_initialized "pA" Multi.init
  /\ outputs (Multi.handle cfg0 (chunk_on "pA" (lit "Lost.")) Multi.init) = [].
Proof.
  apply (text_without_session_dropped cfg0 (chunk_on "pA" (lit "Lost."))
           Multi.init); [reflexivity | discriminate |].
  left. intros H. inversion H.
Defined.

(** ** Splitting by length *)

Module SplitFacts.
Import Split.

Lemma scan_down_Some P text idx j :
  scan_down P text idx = Some j ->
  (1 <= j <= idx)%nat
  /\ (exists c, text !! (j - 1)%nat = Some c /\ P c = true)
  /\ forall k c, (j <= k < idx)%nat -> text !! k = Some c -> P c = false.
Proof.
  induction idx as [|i IH]; simpl; [discriminate |].
  destruct (text !! i) as [c|] eqn:Ec.
  - destruct (P c) eqn:Pc.
    + intros [= <-]. split; [lia |]. split.
      * exists c. now replace (S i - 1)%nat with i by lia.
      * intros k d Hk. lia.
    + intros H. destruct (IH H) as (Hj & Hc & Hrest).
      split; [lia |]. split; [exact Hc |]. intros k d Hk Hd.
      destruct (Nat.eq_dec k i) as [->|Hne]; [congruence |].
      apply (Hrest k d); [lia | exact Hd].
  - intros H. destruct (IH H) as (Hj & Hc & Hrest).
    split; [lia |]. split; [exact Hc |]. intros k d Hk Hd.
    destruct (Nat.eq_dec k i) as [->|Hne]; [congruence |].
    apply (Hrest k d); [lia | exact Hd].
Qed.

Lemma scan_down_None P text idx :
  scan_down P text idx = None ->
  forall k c, (k < idx)%nat -> text !! k = Some c -> P c = false.
Proof.
  induction idx as [|i IH]; simpl; intros H k c Hk Hc; [lia |].
  destruct (text !! i) as [d|] eqn:Ed.
  - destruct (P d) eqn:Pd; [discriminate |].
    destruct (Nat.eq_dec k i) as [->|Hne]; [congruence |].
    apply (IH H k c); [lia | exact Hc].
  - destruct (Nat.eq_dec k i) as [->|Hne]; [congruence |].
    apply (IH H k c); [lia | exact Hc].
Qed.

Lemma find_split_index_range text max_length split_marks :
  find_split_index text max_length split_marks = -1
  \/ 1 <= find_split_index text max_length split_marks
       <= Z.min (len text) max_length.
Proof.
  unfold find_split_index. destruct (max_length <=? 0); [now left |].
  destruct (if truthy split_marks then _ else None) as [j|] eqn:E1.
  - right. destruct (truthy split_marks); [| discriminate].
    apply scan_down_Some in E1 as (Hj & _). unfold len in *. lia.
  - destruct (scan_down isspace text _) as [j|] eqn:E2; [| now left].
    right. apply scan_down_Some in E2 as (Hj & _). unfold len in *. lia.
Qed.

Lemma ink_app a b : ink (a ++ b) = ink a ++ ink b.
Proof. unfold ink. apply List.filter_app. Qed.

Lemma ink_lstrip s : ink (lstrip s) = ink s.
Proof.
  induction s as [|c s IH]; [reflexivity |]. simpl.
  destruct (isspace c) eqn:E; simpl; [exact IH |]. now rewrite E.
Qed.

Lemma ink_rev s : ink (rev s) = rev (ink s).
Proof.
  unfold ink. induction s as [|c s IH]; [reflexivity |]. simpl.
  rewrite List.filter_app, IH. simpl.
  destruct (negb (isspace c)); simpl; [reflexivity | now rewrite app_nil_r].
Qed.

Lemma ink_strip s : ink (strip s) = ink s.
Proof.
  unfold strip, rstrip.
  now rewrite ink_rev, ink_lstrip, ink_rev, rev_involutive, ink_lstrip.
Qed.

Lemma ink_blank s : truthy (strip s) = false -> ink s = [].
Proof.
  intros H. rewrite <- ink_strip. now destruct (strip s).
Qed.

Lemma length_lstrip s : (length (lstrip s) <= length s)%nat.
Proof.
  induction s as [|c s IH]; simpl; [lia |].
  destruct (isspace c); simpl; lia.
Qed.

Lemma split_loop_spec fuel remainder max_length split_marks :
  0 < max_length -> (length remainder < fuel)%nat ->
  exists chunks,
    split_loop fuel remainder max_length split_marks = Some chunks
    /\ Forall (fun c => len c <= max_length) chunks
    /\ ink (concat chunks) = ink remainder.
Proof.
  intros Hmax. revert remainder.
  induction fuel as [|fuel IH]; intros remainder Hfuel; [lia |].
  cbn [split_loop]. destruct (truthy remainder) eqn:Et; cbn [negb];
    [| exists []; destruct remainder; [auto | discriminate]].
  destruct (len remainder <=? max_length) eqn:Elen.
  { exists [remainder]. apply Z.leb_le in Elen. split; [reflexivity |].
    split; [repeat constructor; exact Elen |]. simpl. now rewrite app_nil_r. }
  apply Z.leb_gt in Elen.
  set (found := find_split_index remainder max_length split_marks).
  set (split_idx := if found =? -1 then max_length else found).
  assert (Hidx : 1 <= split_idx <= max_length).
  { unfold split_idx.
    destruct (find_split_index_range remainder max_length split_marks)
      as [E|E]; fold found in E.
    - rewrite E. simpl. lia.
    - destruct (found =? -1) eqn:E1; [lia |]. lia. }
  set (n := Z.to_nat split_idx).
  assert (Hn : (1 <= n <= length remainder)%nat)
    by (unfold n, len in *; lia).
  destruct (IH (lstrip (drop n remainder))) as (chunks & -> & Hall & Hink).
  { pose proof (length_lstrip (drop n remainder)) as Hl.
    rewrite length_drop in Hl. lia. }
  rewrite ink_lstrip in Hink.
  assert (Hsplit : ink remainder = ink (take n remainder) ++ ink (drop n remainder))
    by (now rewrite <- ink_app, take_drop).
  destruct (truthy (strip (take n remainder))) eqn:Eblank.
  - exists (take n remainder :: chunks). split; [reflexivity |]. split.
    + constructor; [| exact Hall]. unfold len. rewrite length_take. lia.
    + simpl. now rewrite ink_app, Hink, Hsplit.
  - exists chunks. split; [reflexivity |]. split; [exact Hall |].
    now rewrite Hink, Hsplit, (ink_blank _ Eblank).
Qed.

Lemma last_removelast {A : Type} (l : list A) (x : A) :
  last l = Some x -> l = removelast l ++ [x].
Proof.
  intros H. apply last_Some in H as [l' ->].
  now rewrite removelast_last.
Qed.

End SplitFacts.

(** X25: [find_split_index] returns the position right after the last
    split mark among the first [min(len(text), max_length)] characters;
    if there is no split mark among them, the position right after the
    last white-space character; and [-1] if there is neither, or if
    [max_length] is not positive. *)
Theorem find_split_index_spec (text split_marks : str) (max_length : Z) :
  let i := Split.find_split_index text max_length split_marks in
  let limit := Z.min (len text) max_length in
  let none_from (P : char -> bool) (from : Z) :=
    forall k c, from <= k < limit -> text !! Z.to_nat k = Some c ->
                P c = false in
  (i = -1
   /\ (max_length <= 0
       \/ none_from (fun c => mem c split_marks) 0 /\ none_from isspace 0))
  \/ (1 <= i <= limit
      /\ exists c, text !! Z.to_nat (i - 1) = Some c
         /\ (mem c split_marks = true
             /\ none_from (fun c => mem c split_marks) i
             \/ isspace c = true
                /\ none_from (fun c => mem c split_marks) 0
                /\ none_from isspace i)).
Proof.
  cbv zeta. unfold Split.find_split_index.
  destruct (max_length <=? 0) eqn:Emax.
  { left. apply Z.leb_le in Emax. auto. }
  apply Z.leb_gt in Emax.
  set (limit := Z.min (len text) max_length).
  assert (Hlimit : 0 <= limit) by (unfold limit, len; lia).
  assert (Hmarks : forall r,
            (if truthy split_marks
             then Split.scan_down (fun c => mem c split_marks) text
                    (Z.to_nat limit)
             else None) = r ->
            match r with
            | Some j =>
                (1 <= j <= Z.to_nat limit)%nat
                /\ (exists c, text !! (j - 1)%nat = Some c
                              /\ mem c split_marks = true)
                /\ forall k c, (j <= k < Z.to_nat limit)%nat ->
                               text !! k = Some c -> mem c split_marks = false
            | None =>
                forall k c, (k < Z.to_nat limit)%nat -> text !! k = Some c ->
                            mem c split_marks = false
            end).
  { intros r <-. destruct split_marks as [|m ms] eqn:Em.
    - simpl. reflexivity.
    - cbn [truthy].
      destruct (Split.scan_down _ text (Z.to_nat limit)) as [j|] eqn:E.
      + exact (SplitFacts.scan_down_Some _ _ _ _ E).
      + exact (SplitFacts.scan_down_None _ _ _ E). }
  destruct (if truthy split_marks then _ else None) as [j|] eqn:E1.
  - destruct (Hmarks _ eq_refl) as (Hj & (c & Hc & Pc) & Hrest).
    right. split; [lia |]. exists c. split.
    + now replace (Z.to_nat (Z.of_nat j - 1)) with (j - 1)%nat by lia.
    + left. split; [exact Pc |]. intros k d Hk Hd.
      apply (Hrest (Z.to_nat k) d); [lia | exact Hd].
  - pose proof (Hmarks _ eq_refl) as Hnone. simpl in Hnone.
    assert (Hnone' : forall k c, 0 <= k < limit ->
              text !! Z.to_nat k = Some c -> mem c split_marks = false).
    { intros k c Hk Hc. apply (Hnone (Z.to_nat k) c); [lia | exact Hc]. }
    destruct (Split.scan_down isspace text (Z.to_nat limit)) as [j|] eqn:E2.
    + apply SplitFacts.scan_down_Some in E2 as (Hj & (c & Hc & Pc) & Hrest).
      right. split; [lia |]. exists c. split.
      * now replace (Z.to_nat (Z.of_nat j - 1)) with (j - 1)%nat by lia.
      * right. split; [exact Pc |]. split; [exact Hnone' |].
        intros k d Hk Hd. apply (Hrest (Z.to_nat k) d); [lia | exact Hd].
    + left. split; [reflexivity |]. right. split; [exact Hnone' |].
      intros k c Hk Hc.
      apply (SplitFacts.scan_down_None _ _ _ E2 (Z.to_nat k) c);
        [lia | exact Hc].
Qed.

(** X26: [split_segment_to_max] always returns (its loop ends within
    one iteration per character).  With a positive maximum, every chunk
    and the tail have at most [max_length] characters; the chunks and
    the tail put end to end contain the characters of the segment that
    are not white space, all of them and in the same order; and a
    non-empty tail is a last chunk whose stripped length is below
    [max(min_length, 1)]. *)
Theorem split_segment_to_max_spec
    (segment split_marks : str) (max_length min_length : Z) :
  exists chunks tail,
    Split.split_segment_to_max segment max_length min_length split_marks
    = Some (chunks, tail)
    /\ Split.ink (concat chunks ++ tail) = Split.ink segment
    /\ (0 < max_length ->
        Forall (fun c => len c <= max_length) chunks /\ len tail <= max_length)
    /\ (tail = [] \/ len (strip tail) < Z.max min_length 1).
Proof.
  unfold Split.split_segment_to_max.
  destruct ((max_length <=? 0) || (len segment <=? max_length)) eqn:E.
  { exists [segment], []. split; [reflexivity |]. split.
    - simpl. now rewrite !app_nil_r.
    - split; [| now left]. intros Hmax.
      apply orb_prop in E as [E|E]; [apply Z.leb_le in E; lia |].
      apply Z.leb_le in E. split; [repeat constructor; exact E |].
      unfold len. simpl. lia. }
  apply orb_false_elim in E as [Emax Elen]. apply Z.leb_gt in Emax.
  destruct (SplitFacts.split_loop_spec (S (length segment)) segment max_length
              split_marks Emax) as (chunks & -> & Hall & Hink); [lia |].
  destruct (last chunks) as [last_chunk|] eqn:Elast.
  2:{ exists chunks, []. rewrite app_nil_r.
      split; [reflexivity |]. split; [exact Hink |].
      split; [| now left]. intros _. split; [exact Hall |].
      unfold len. simpl. lia. }
  destruct (len (strip last_chunk) <? Z.max min_length 1) eqn:Eshort.
  - exists (removelast chunks), last_chunk. split; [reflexivity |].
    pose proof (SplitFacts.last_removelast _ _ Elast) as Hsplit.
    rewrite Hsplit in Hink, Hall.
    rewrite concat_app in Hink. simpl in Hink. rewrite app_nil_r in Hink.
    split; [exact Hink |].
    apply Forall_app in Hall as [Hfront Hlast].
    split; [| right; now apply Z.ltb_lt].
    intros _. split; [exact Hfront | now inversion Hlast].
  - exists chunks, []. rewrite app_nil_r.
    split; [reflexivity |]. split; [exact Hink |].
    split; [| now left]. intros _. split; [exact Hall |].
    unfold len. simpl. lia.
Qed.

(** ** Logging *)

Section LogLevels.
Import Log.

Lemma LOG_LEVELS_get_range (name : string) (default : Z) :
  known_level name = true /\ 10 <= LOG_LEVELS_get name default <= 40
  \/ known_level name = false /\ LOG_LEVELS_get name default = default.
Proof.
  unfold known_level, LOG_LEVELS_get.
  destruct (String.eqb name "DEBUG"); [left; simpl; lia |].
  destruct (String.eqb name "INFO"); [left; simpl; lia |].
  destruct (String.eqb name "WARNING"); [left; simpl; lia |].
  destruct (String.eqb name "ERROR"); [left; simpl; lia |].
  right. auto.
Qed.

End LogLevels.

(** X27: the level filter of [send_log]: an [ERROR] message is sent
    under every configured level; a message whose level name is not one
    of the four known ones is never sent; a configured level that is not
    one of the four acts as [INFO]; and a message that is sent is also
    sent when its level is raised. *)
Theorem send_log_filter (level level' config_level : string) :
  Log.send_log_sends "ERROR" config_level = true
  /\ (Log.known_level level = false ->
      Log.send_log_sends level config_level = false)
  /\ (Log.known_level config_level = false ->
      Log.send_log_sends level config_level = Log.send_log_sends level "INFO")
  /\ (Log.LOG_LEVELS_get level 0 <= Log.LOG_LEVELS_get level' 0 ->
      Log.send_log_sends level config_level = true ->
      Log.send_log_sends level' config_level = true).
Proof.
  unfold Log.send_log_sends.
  change (Log.LOG_LEVELS_get "ERROR" 0) with 40.
  change (Log.LOG_LEVELS_get "INFO" 20) with 20.
  assert (Hunknown : Log.known_level level = false ->
            Log.LOG_LEVELS_get level 0 = 0).
  { intros Hl. destruct (LOG_LEVELS_get_range level 0) as [[H _]|[_ H]];
      [congruence | exact H]. }
  assert (Hraise : Log.LOG_LEVELS_get level 0 <= Log.LOG_LEVELS_get level' 0 ->
            negb (Log.LOG_LEVELS_get level 0
                  <? Log.LOG_LEVELS_get config_level 20) = true ->
            negb (Log.LOG_LEVELS_get level' 0
                  <? Log.LOG_LEVELS_get config_level 20) = true).
  { intros Hle H. apply negb_true_iff, Z.ltb_ge in H.
    apply negb_true_iff, Z.ltb_ge. lia. }
  destruct (LOG_LEVELS_get_range config_level 20) as [[Hk Hc]|[Hk Hc]].
  - split; [apply negb_true_iff, Z.ltb_ge; lia |].
    split; [| split; [congruence | exact Hraise]].
    intros Hl. rewrite (Hunknown Hl). apply negb_false_iff, Z.ltb_lt. lia.
  - split; [apply negb_true_iff, Z.ltb_ge; lia |].
    split; [| split; [intros _; now rewrite Hc | exact Hraise]].
    intros Hl. rewrite (Hunknown Hl), Hc. reflexivity.
Qed.

(** ** Conference mode: the end of a session with a tail of punctuation *)

Section SessionEnd.
Import Multi.

Lemma bind_silent {A B : Type} (m : M A) (k : A -> M B) (a : A)
    (st st1 : State) :
  m st = Done a st1 [] -> bind m k st = k a st1.
Proof.
  intros H. unfold bind. rewrite H. now destruct (k a st1).
Qed.

End SessionEnd.

(** X28: when a session ends while the tail buffer of the participant
    holds only punctuation and white space (but is not blank), the tail
    is discarded and the queue of the participant is left exactly as it
    is: no segment is appended and none is flagged as the end of the
    session.  The handler clears the buffer, closes the session and
    runs the election, nothing else. *)
Theorem session_end_with_punctuation_tail
    (cfg : Multi.Config) (ev : Multi.Event) (st : Multi.State)
    (sid : string) (ts : list Multi.Marker) (buf : str) :
  Multi.is_participant_port (Multi.ev_id ev) = true ->
  Multi.md_session_status ev = Some "ended"%string ->
  Multi.ev_id ev ∈ Multi.participant_names st ->
  Multi.current_session st !! Multi.ev_id ev = Some (Some sid) ->
  Multi.session_timestamps st !! Multi.ev_id ev = Some ts ->
  Multi.text_buffers st !! Multi.ev_id ev = Some buf ->
  truthy (strip buf) = true ->
  Multi.should_skip_segment (strip buf) (Multi.punctuation_marks cfg) = true ->
  Multi.handle cfg ev st
  = Multi.try_activate_queue
      (Multi.set_current_session <[Multi.ev_id ev := None]>
         (Multi.set_text_buffers <[Multi.ev_id ev := []]> st)).
Proof.
  intros Hport Hstatus Hin Hcur Hts Hbuf Htail Hskip.
  unfold Multi.handle. rewrite Hport.
  unfold Multi.on_participant_text. rewrite Hstatus.
  cbn [Multi.detect_session_event String.eqb Ascii.eqb Bool.eqb andb].
  erewrite bind_silent
    by (unfold Multi.ensure_participant_initialized, Multi.bind, Multi.get,
          Multi.ret; rewrite (bool_decide_eq_true_2 _ Hin); reflexivity).
  cbv beta zeta. unfold Multi.on_session_end.
  erewrite bind_silent by (unfold Multi.read; rewrite Hcur; reflexivity).
  cbv beta iota zeta.
  erewrite bind_silent by (unfold Multi.read; rewrite Hts; reflexivity).
  cbv beta iota zeta.
  erewrite bind_silent by (unfold Multi.read; rewrite Hbuf; reflexivity).
  cbv beta iota zeta. rewrite Htail, Hskip. cbn [negb Multi.when].
  erewrite bind_silent by reflexivity.
  erewrite bind_silent by reflexivity.
  reflexivity.
Qed.

Lemma session_end_with_punctuation_tail_witness :
  Multi.handle cfg0 (ended_on "pA") punctuation_tail_state
  = Multi.try_activate_queue
      (Multi.set_current_session <["pA"%string := None]>
         (Multi.set_text_buffers <["pA"%string := []]>
            punctuation_tail_state)).
Proof.
  apply (session_end_with_punctuation_tail cfg0 (ended_on "pA")
           punctuation_tail_state "s1"
           [Multi.mk_marker "s1" 1%Q None "started"] (lit "."));
    try reflexivity.
  left.
Defined.
